(** * Digital sliding puzzle: the Board engine and the star table

    A shallow embedding of [src/js/core/Board.js] (with the parts of
    [src/js/ui/Block.js] and of the Tween loop that the board relies on)
    and of [GameScene._calculateStars].

    - JS numbers used as indices and counters are [Z]: sizes, rows and
      columns are safe integers (between [MIN_SAFE_INTEGER] and its
      opposite), on which the arithmetic of the board is exact.
    - A JS array is an object keyed by index: writing any integer index
      succeeds, reading an absent index gives [undefined], and indexing
      [undefined] raises a TypeError.  The grid is therefore a finite map
      from row index to row, a row a finite map from column index to number.
    - Block objects live in a heap and are named by their address; the
      board's [blocks] array, the move queue and the suspended [moveBlock]
      calls all hold addresses, so that they alias as in the source.
    - An [async] function is cut at its [await]: the part before it runs with
      the call, the part after it runs when the awaited animation settles
      or, for [shuffle], when the timer it waits for fires.  Other calls may
      arrive in between.
      [then] callbacks of already resolved promises are counted and run as
      steps of their own.
    - A TypeError ends the run: the board is not followed past an exception.
    - Pixels, sound and drawing ([moveAtPosition], [contains],
      [updatePosition], [draw], the click and enter animations) are left
      out.

    The file also embeds [src/js/core/Timer.js], whose reading
    [_calculateStars] rates, and the [EventEmitter] of [src/game.js] through
    which the scenes announce a victory or a change of scene.  The timer's
    methods take the reading of [Date.now()] as an argument. *)

From Stdlib Require Import Ascii.
From stdpp Require Import base numbers option list gmap strings pretty.

Local Open Scope Z_scope.

(** ** Results of code that may raise *)

Inductive result (A : Type) : Type :=
| Ok (a : A)
| TypeError.
Arguments Ok {A} a.
Arguments TypeError {A}.

#[global] Instance result_ret : MRet result := λ A a, Ok a.
#[global] Instance result_bind : MBind result := λ A B f m,
  match m with
  | Ok a => f a
  | TypeError => TypeError
  end.

(** [for (let x of l) body], threading the loop state and stopping at the
    first exception. *)
Fixpoint for_each {S : Type} (l : list Z) (body : Z → S → result S) (s : S)
  : result S :=
  match l with
  | [] => Ok s
  | x :: l' => s' ← body x s; for_each l' body s'
  end.

(** ** The grid *)

Abbreviation Grid := (gmap Z (gmap Z Z)).

(** [grid[r][c]] when no exception is involved: [None] is [undefined]. *)
Definition cell (g : Grid) (r c : Z) : option Z := g !! r ≫= (.!! c).

(** Reading [grid[r][c]]: a TypeError when [grid[r]] is undefined. *)
Definition grid_read (g : Grid) (r c : Z) : result (option Z) :=
  match g !! r with
  | None => TypeError
  | Some rw => Ok (rw !! c)
  end.

(** The assignment [grid[r][c] = v]. *)
Definition grid_write (g : Grid) (r c v : Z) : result Grid :=
  match g !! r with
  | None => TypeError
  | Some rw => Ok (<[r := <[c := v]> rw]> g)
  end.

(** An array literal of array literals, as a grid. *)
Definition row_of_list (l : list Z) : gmap Z Z :=
  list_to_map (zip (seqZ 0 (Z.of_nat (length l))) l).
Definition grid_of_rows (rows : list (list Z)) : Grid :=
  list_to_map (zip (seqZ 0 (Z.of_nat (length rows))) (row_of_list <$> rows)).

(** ** Blocks, move records and the board *)

Abbreviation addr := nat.

(** The logical fields of a [Block].  Pixel position, scale and colours are
    presentation and are left out. *)
Record Block := mkBlock {
  value : Z;
  row : Z;
  col : Z;
  targetRow : Z;
  targetCol : Z
}.

Record MoveRecord := mkMoveRecord {
  mv_value : Z;
  mv_from : Z * Z;
  mv_to : Z * Z
}.

(** A [moveBlock] call suspended at [await block.setPixelPosition(...)]. *)
Record Flight := mkFlight {
  f_block : addr;
  f_oldEmptyRow : Z;
  f_oldEmptyCol : Z;
  f_animate : bool;
  (** started by [_processQueue], which attached a [then] callback *)
  f_chained : bool
}.

(** The directions of [shuffle]. *)
Inductive Direction := up | down | left | right.

#[global] Instance Direction_eq_dec : EqDecision Direction.
Proof. solve_decision. Defined.

(** A [shuffle] call suspended at its [await new Promise(...)]: the loop
    resumes with turn [sc_i] of [sc_moves], [sc_rand] giving the draws. *)
Record Scramble := mkScramble {
  sc_moves : Z;
  sc_i : nat;
  sc_lastDirection : option Direction;
  sc_rand : nat → nat
}.

(** The fields of the [Board] object, followed by what the run time holds:
    the heap of Block objects, the suspended [moveBlock] calls, the number
    of [_processQueue] callbacks whose promise is already resolved, and the
    suspended [shuffle] calls. *)
Record World := mkWorld {
  size : Z;
  grid : Grid;
  blocks : list addr;
  emptyRow : Z;
  emptyCol : Z;
  moveHistory : list MoveRecord;
  moveCount : Z;
  isAnimating : bool;
  moveQueue : list (addr * bool);
  isProcessingQueue : bool;
  heap : list Block;
  flights : list Flight;
  callbacks : nat;
  shuffles : list Scramble
}.

Definition set_grid (g : Grid) (w : World) : World :=
  mkWorld (size w) g (blocks w) (emptyRow w) (emptyCol w) (moveHistory w)
    (moveCount w) (isAnimating w) (moveQueue w) (isProcessingQueue w) (heap w)
    (flights w) (callbacks w) (shuffles w).
Definition set_blocks (bs : list addr) (w : World) : World :=
  mkWorld (size w) (grid w) bs (emptyRow w) (emptyCol w) (moveHistory w)
    (moveCount w) (isAnimating w) (moveQueue w) (isProcessingQueue w) (heap w)
    (flights w) (callbacks w) (shuffles w).
Definition set_empty (r c : Z) (w : World) : World :=
  mkWorld (size w) (grid w) (blocks w) r c (moveHistory w) (moveCount w)
    (isAnimating w) (moveQueue w) (isProcessingQueue w) (heap w) (flights w)
    (callbacks w) (shuffles w).
Definition set_moveHistory (h : list MoveRecord) (w : World) : World :=
  mkWorld (size w) (grid w) (blocks w) (emptyRow w) (emptyCol w) h
    (moveCount w) (isAnimating w) (moveQueue w) (isProcessingQueue w) (heap w)
    (flights w) (callbacks w) (shuffles w).
Definition set_moveCount (n : Z) (w : World) : World :=
  mkWorld (size w) (grid w) (blocks w) (emptyRow w) (emptyCol w)
    (moveHistory w) n (isAnimating w) (moveQueue w) (isProcessingQueue w)
    (heap w) (flights w) (callbacks w) (shuffles w).
Definition set_isAnimating (b : bool) (w : World) : World :=
  mkWorld (size w) (grid w) (blocks w) (emptyRow w) (emptyCol w)
    (moveHistory w) (moveCount w) b (moveQueue w) (isProcessingQueue w)
    (heap w) (flights w) (callbacks w) (shuffles w).
Definition set_moveQueue (q : list (addr * bool)) (w : World) : World :=
  mkWorld (size w) (grid w) (blocks w) (emptyRow w) (emptyCol w)
    (moveHistory w) (moveCount w) (isAnimating w) q (isProcessingQueue w)
    (heap w) (flights w) (callbacks w) (shuffles w).
Definition set_isProcessingQueue (b : bool) (w : World) : World :=
  mkWorld (size w) (grid w) (blocks w) (emptyRow w) (emptyCol w)
    (moveHistory w) (moveCount w) (isAnimating w) (moveQueue w) b (heap w)
    (flights w) (callbacks w) (shuffles w).
Definition set_heap (h : list Block) (w : World) : World :=
  mkWorld (size w) (grid w) (blocks w) (emptyRow w) (emptyCol w)
    (moveHistory w) (moveCount w) (isAnimating w) (moveQueue w)
    (isProcessingQueue w) h (flights w) (callbacks w) (shuffles w).
Definition set_flights (fs : list Flight) (w : World) : World :=
  mkWorld (size w) (grid w) (blocks w) (emptyRow w) (emptyCol w)
    (moveHistory w) (moveCount w) (isAnimating w) (moveQueue w)
    (isProcessingQueue w) (heap w) fs (callbacks w) (shuffles w).
Definition set_callbacks (n : nat) (w : World) : World :=
  mkWorld (size w) (grid w) (blocks w) (emptyRow w) (emptyCol w)
    (moveHistory w) (moveCount w) (isAnimating w) (moveQueue w)
    (isProcessingQueue w) (heap w) (flights w) n (shuffles w).
Definition set_shuffles (ss : list Scramble) (w : World) : World :=
  mkWorld (size w) (grid w) (blocks w) (emptyRow w) (emptyCol w)
    (moveHistory w) (moveCount w) (isAnimating w) (moveQueue w)
    (isProcessingQueue w) (heap w) (flights w) (callbacks w) ss.

(** Field assignments on the block at address [a]. *)
Definition set_block_pos (r c : Z) (b : Block) : Block :=
  mkBlock (value b) r c (targetRow b) (targetCol b).
Definition set_block_target (r c : Z) (b : Block) : Block :=
  mkBlock (value b) (row b) (col b) r c.
Definition update_block (a : addr) (f : Block → Block) (w : World) : World :=
  set_heap (alter f a (heap w)) w.

(** ** Board.js *)

(** [new Block({value, row, col, ...})]: the targets start at the position. *)
Definition new_Block (v r c : Z) : Block := mkBlock v r c r c.

(** [_createBlocks]: one new Block per cell, row by row; [options.value || 0]
    turns an undefined cell into 0. *)
Definition _createBlocks (w : World) : result World :=
  for_each (seqZ 0 (size w)) (λ r w,
    for_each (seqZ 0 (size w)) (λ c w,
      v ← grid_read (grid w) r c;
      let b := new_Block (default 0 v) r c in
      Ok (set_blocks (blocks w ++ [length (heap w)])
            (set_heap (heap w ++ [b]) w))) w)
    (set_blocks [] w).

(** [_initGrid]: the solved grid, then the blocks. *)
Definition _initGrid (w : World) : result World :=
  let w := set_moveCount 0 (set_moveHistory [] (set_blocks [] (set_grid ∅ w))) in
  w ← for_each (seqZ 0 (size w)) (λ r w,
    let w := set_grid (<[r := ∅]> (grid w)) w in
    for_each (seqZ 0 (size w)) (λ c w,
      let v := r * size w + c + 1 in
      if v <? size w * size w then
        g ← grid_write (grid w) r c v; Ok (set_grid g w)
      else
        g ← grid_write (grid w) r c 0; Ok (set_empty r c (set_grid g w))) w) w;
  _createBlocks w.

(** [Number.MIN_SAFE_INTEGER]: from there upwards [size - 1] is the exact
    difference. *)
Definition MIN_SAFE_INTEGER : Z := - (2 ^ 53 - 1).

(** [new Board(size)], for a safe integer [size].  The layout options only
    place pixels. *)
Definition new_Board (sz : Z) : result World :=
  _initGrid (mkWorld sz ∅ [] (sz - 1) (sz - 1) [] 0 false [] false [] [] 0 []).

Definition reset (w : World) : result World := _initGrid w.

(** [getBlock]: the first block of [blocks] at that row and column. *)
Definition block_at (w : World) (r c : Z) (a : addr) : bool :=
  match heap w !! a with
  | Some b => (row b =? r) && (col b =? c)
  | None => false
  end.
Definition getBlock (w : World) (r c : Z) : option addr :=
  find (block_at w r c) (blocks w).

Definition canMove (w : World) (r c : Z) : bool :=
  let rowDiff := Z.abs (r - emptyRow w) in
  let colDiff := Z.abs (c - emptyCol w) in
  ((rowDiff =? 1) && (colDiff =? 0)) || ((rowDiff =? 0) && (colDiff =? 1)).

(** [block.setPixelPosition(x, y, animate, 180)]: an animated call first
    stops the tween the block may still be running, and the move that awaits
    that tween never resumes. *)
Definition stop_tween (a : addr) (animate : bool) (fs : list Flight)
  : list Flight :=
  if animate
  then filter (λ f : Flight, ¬ (f_animate f = true ∧ f_block f = a)) fs
  else fs.

(** What the promise returned by [moveBlock] is once the call returns. *)
Inductive Promise :=
| Resolved (b : bool)
| Pending.

(** [moveBlock] up to its [await].  [chained] tells that the call was made by
    [_processQueue]; [None] is a null or undefined block. *)
Definition moveBlock_from (chained : bool) (o : option addr) (animate : bool)
    (w : World) : result (Promise * World) :=
  match o with
  | None => Ok (Resolved false, w)
  | Some a =>
    match heap w !! a with
    | None => Ok (Resolved false, w)
    | Some b =>
      if value b =? 0 then Ok (Resolved false, w)
      else if negb (canMove w (row b) (col b)) then Ok (Resolved false, w)
      else if isAnimating w then
        Ok (Resolved false, set_moveQueue (moveQueue w ++ [(a, animate)]) w)
      else
        let w := set_isAnimating true w in
        let w := set_moveHistory
          (moveHistory w ++
             [mkMoveRecord (value b) (row b, col b) (emptyRow w, emptyCol w)]) w in
        g ← grid_write (grid w) (emptyRow w) (emptyCol w) (value b);
        g ← grid_write g (row b) (col b) 0;
        let oldEmptyRow := emptyRow w in
        let oldEmptyCol := emptyCol w in
        let w := set_empty (row b) (col b) (set_grid g w) in
        let w := update_block a (set_block_target oldEmptyRow oldEmptyCol) w in
        Ok (Pending,
            set_flights
              (stop_tween a animate (flights w) ++
                 [mkFlight a oldEmptyRow oldEmptyCol animate chained]) w)
    end
  end.

Definition moveBlock : option addr → bool → World → result (Promise * World) :=
  moveBlock_from false.

Definition moveAt (r c : Z) (animate : bool) (w : World)
  : result (Promise * World) :=
  moveBlock (getBlock w r c) animate w.

(** [_processQueue].  When the promise of the dequeued move is resolved at
    once, its [then] callback is due. *)
Definition _processQueue (w : World) : result World :=
  if isProcessingQueue w then Ok w
  else match moveQueue w with
  | [] => Ok w
  | (a, animate) :: q =>
    let w := set_moveQueue q (set_isProcessingQueue true w) in
    '(p, w) ← moveBlock_from true (Some a) animate w;
    match p with
    | Resolved _ => Ok (set_callbacks (S (callbacks w)) w)
    | Pending => Ok w
    end
  end.

(** The [then] callback of [_processQueue]. *)
Definition then_callback (w : World) : result World :=
  match callbacks w with
  | O => Ok w
  | S n => _processQueue (set_isProcessingQueue false (set_callbacks n w))
  end.

(** The animation of the [i]-th suspended move settles and [moveBlock] runs
    to its end.  An animated move first passes the Tween's [onComplete]
    ([row = targetRow], [col = targetCol]). *)
Definition settle (i : nat) (w : World) : result World :=
  match flights w !! i with
  | None => Ok w
  | Some f =>
    let w := set_flights (delete i (flights w)) w in
    let w :=
      if f_animate f
      then update_block (f_block f)
             (λ b, set_block_pos (targetRow b) (targetCol b) b) w
      else w in
    let w := update_block (f_block f)
               (set_block_pos (f_oldEmptyRow f) (f_oldEmptyCol f)) w in
    let w := set_moveCount (moveCount w + 1) w in
    let w := set_isAnimating false w in
    w ← _processQueue w;
    Ok (if f_chained f then set_callbacks (S (callbacks w)) w else w)
  end.

(** [checkWin]: the two loops return false at the first mismatch. *)
Fixpoint all_cells (f : Z → result bool) (l : list Z) : result bool :=
  match l with
  | [] => Ok true
  | x :: l' => b ← f x; if (b : bool) then all_cells f l' else Ok false
  end.

Definition expectedValue (sz r c : Z) : Z :=
  if (r =? sz - 1) && (c =? sz - 1) then 0 else r * sz + c + 1.

Definition checkWin (w : World) : result bool :=
  all_cells (λ r,
    all_cells (λ c,
      let expected := r * size w + c + 1 in
      actual ← grid_read (grid w) r c;
      if (r =? size w - 1) && (c =? size w - 1)
      then Ok (bool_decide (actual = Some 0))
      else Ok (bool_decide (actual = Some expected)))
      (seqZ 0 (size w)))
    (seqZ 0 (size w)).

(** [destroy]: every block of the board stops its tween, so that an animated
    move of such a block never settles ([Tween.stop] drops the tween without
    running [onComplete]); then the array of blocks is emptied. *)
Definition stop_tweens (w : World) : World :=
  set_flights
    (filter (λ f : Flight, ¬ (f_animate f = true ∧ f_block f ∈ blocks w))
       (flights w))
    w.
Definition destroy (w : World) : World := set_blocks [] (stop_tweens w).

(** [await board.moveBlock(block, animate)] with nothing else arriving
    before the promise resolves: the boolean it resolves to. *)
Definition awaited_moveBlock (o : option addr) (animate : bool) (w : World)
  : result (bool * World) :=
  '(p, w) ← moveBlock o animate w;
  match p with
  | Resolved r => Ok (r, w)
  | Pending => w ← settle (length (flights w) - 1) w; Ok (true, w)
  end.

(** ** GameScene._calculateStars *)

Record TimeLimit := mkLimit { stars : Z; maxTime : Z }.

Definition timeLimits4x4 : list TimeLimit :=
  [mkLimit 3 60; mkLimit 2 180; mkLimit 1 300].
Definition timeLimits5x5 : list TimeLimit :=
  [mkLimit 3 150; mkLimit 2 360; mkLimit 1 720].

Fixpoint first_limit (elapsed : Z) (limits : list TimeLimit) : Z :=
  match limits with
  | [] => 0
  | l :: ls => if elapsed <=? maxTime l then stars l else first_limit elapsed ls
  end.

(** The rating for a number of elapsed seconds. *)
Definition stars_for (boardSize elapsed : Z) : Z :=
  first_limit elapsed (if boardSize =? 4 then timeLimits4x4 else timeLimits5x5).

(** [timeMs] is [this.timer.getTime()], in milliseconds. *)
Definition _calculateStars (boardSize timeMs : Z) : Z :=
  stars_for boardSize (timeMs / 1000).

(** ** shuffle *)

Record Candidate := mkCandidate {
  c_row : Z;
  c_col : Z;
  c_direction : Direction
}.

(** The loop body's list of directions, in the order up, down, left, right;
    the reverse of the last direction is left out. *)
Definition possibleMoves (w : World) (lastDirection : option Direction)
  : list Candidate :=
  (if (0 <? emptyRow w) && bool_decide (lastDirection ≠ Some down)
   then [mkCandidate (emptyRow w - 1) (emptyCol w) up] else []) ++
  (if (emptyRow w <? size w - 1) && bool_decide (lastDirection ≠ Some up)
   then [mkCandidate (emptyRow w + 1) (emptyCol w) down] else []) ++
  (if (0 <? emptyCol w) && bool_decide (lastDirection ≠ Some right)
   then [mkCandidate (emptyRow w) (emptyCol w - 1) left] else []) ++
  (if (emptyCol w <? size w - 1) && bool_decide (lastDirection ≠ Some left)
   then [mkCandidate (emptyRow w) (emptyCol w + 1) right] else []).

(** [Math.floor(Math.random() * n)] is some index below [n] (and 0 when [n]
    is 0): the draw is reduced into that range. *)
Definition random_index (draw n : nat) : nat := (draw mod n)%nat.

(** One turn of the scramble loop. *)
Definition shuffle_step (draw : nat) (st : World * option Direction)
  : result (World * option Direction) :=
  let '(w, lastDirection) := st in
  let moves := possibleMoves w lastDirection in
  match moves !! random_index draw (length moves) with
  | None => Ok (w, lastDirection)
  | Some mv =>
    match getBlock w (c_row mv) (c_col mv) ≫= λ a, (a,.) <$> heap w !! a with
    | None => TypeError
    | Some (a, b) =>
      g ← grid_write (grid w) (emptyRow w) (emptyCol w) (value b);
      g ← grid_write g (row b) (col b) 0;
      let oldEmptyRow := emptyRow w in
      let oldEmptyCol := emptyCol w in
      let w := set_empty (row b) (col b) (set_grid g w) in
      let w := update_block a
        (λ b, set_block_target oldEmptyRow oldEmptyCol
                (set_block_pos oldEmptyRow oldEmptyCol b)) w in
      Ok (w, Some (c_direction mv))
    end
  end.

Fixpoint shuffle_loop (n i : nat) (rand : nat → nat)
    (st : World * option Direction) : result (World * option Direction) :=
  match n with
  | O => Ok st
  | S n' => st' ← shuffle_step (rand i) st; shuffle_loop n' (S i) rand st'
  end.

(** [moveCount || (this.size === 4 ? 80 : 150)]: an absent count and the
    count 0 are both falsy. *)
Definition shuffle_moves (sz : Z) (moveCount : option Z) : Z :=
  match moveCount with
  | Some m => if m =? 0 then (if sz =? 4 then 80 else 150) else m
  | None => if sz =? 4 then 80 else 150
  end.

(** [shuffle], run to completion: [rand i] is the random draw of turn [i].
    The periodic [setTimeout] yields let other calls in; here none arrives
    before the scramble ends ([shuffle_from] below cuts the loop at those
    yields). *)
Definition shuffle (moveCount : option Z) (rand : nat → nat) (w : World)
  : result World :=
  let w := set_isAnimating true w in
  let moves := shuffle_moves (size w) moveCount in
  '(w, _) ← shuffle_loop (Z.to_nat moves) 0 rand (w, None);
  Ok (set_isAnimating false (set_moveHistory [] (set_moveCount 0 w))).

(** [shuffle] is cut at its [await], which stands before every turn [i > 0]
    that is a multiple of 10: the loop from turn [i] on runs up to the next
    such turn and suspends there, or runs to its end and releases the lock.
    Calls that arrive while it is suspended find [isAnimating] set. *)
Definition shuffle_from (moves : Z) (i : nat) (lastDirection : option Direction)
    (rand : nat → nat) (w : World) : result World :=
  let stop := Nat.min (Z.to_nat moves) (10 * (Nat.div i 10 + 1))%nat in
  '(w, lastDirection) ← shuffle_loop (stop - i)%nat i rand (w, lastDirection);
  if (stop <? Z.to_nat moves)%nat
  then Ok (set_shuffles
             (shuffles w ++ [mkScramble moves stop lastDirection rand]) w)
  else Ok (set_isAnimating false (set_moveHistory [] (set_moveCount 0 w))).

(** The call of [shuffle], up to its first [await]. *)
Definition shuffle_start (moveCount : option Z) (rand : nat → nat) (w : World)
  : result World :=
  let w := set_isAnimating true w in
  shuffle_from (shuffle_moves (size w) moveCount) 0 None rand w.

(** The timer of the [k]-th suspended [shuffle] fires and its loop goes
    on. *)
Definition shuffle_resume (k : nat) (w : World) : result World :=
  match shuffles w !! k with
  | None => Ok w
  | Some s =>
    shuffle_from (sc_moves s) (sc_i s) (sc_lastDirection s) (sc_rand s)
      (set_shuffles (delete k (shuffles w)) w)
  end.

(** The suspended [shuffle] resumed [n] times with nothing arriving in
    between. *)
Fixpoint resume_all (n : nat) (w : World) : result World :=
  match n with
  | O => Ok w
  | S n' => w ← shuffle_resume 0 w; resume_all n' w
  end.

(** ** Board.js: the other lookups *)

(** [getBlockByValue]: the first block of [blocks] that carries the value. *)
Definition has_value (w : World) (v : Z) (a : addr) : bool :=
  match heap w !! a with
  | Some b => value b =? v
  | None => false
  end.
Definition getBlockByValue (w : World) (v : Z) : option addr :=
  find (has_value w v) (blocks w).

Definition getMoveCount (w : World) : Z := moveCount w.

(** [await board.moveAt(row, col, animate)] with nothing else arriving
    before the promise resolves. *)
Definition awaited_moveAt (r c : Z) (animate : bool) (w : World)
  : result (bool * World) :=
  awaited_moveBlock (getBlock w r c) animate w.

(** ** Timer.js *)

(** [Number.prototype.toString] on an integer, and [padStart] with a
    one-character filler. *)
Definition toString (x : Z) : string := pretty x.

Fixpoint repeat_char (n : nat) (c : ascii) : string :=
  match n with
  | O => EmptyString
  | S k => String c (repeat_char k c)
  end.
Definition padStart (targetLength : nat) (c : ascii) (s : string) : string :=
  repeat_char (targetLength - String.length s) c +:+ s.

Module Timer.

Record Timer := mkTimer {
  startTime : Z;
  elapsedTime : Z;
  isRunning : bool;
  isPaused : bool
}.

Definition new_Timer : Timer := mkTimer 0 0 false false.

(** Each method reads the clock once: [now] is that reading of
    [Date.now()], in milliseconds. *)
Definition start (now : Z) (t : Timer) : Timer :=
  if isRunning t then t
  else mkTimer (now - elapsedTime t) (elapsedTime t) true false.

Definition stop (now : Z) (t : Timer) : Timer :=
  if negb (isRunning t) then t
  else mkTimer (startTime t) (now - startTime t) false false.

Definition pause (now : Z) (t : Timer) : Timer :=
  if negb (isRunning t) || isPaused t then t
  else mkTimer (startTime t) (now - startTime t) false true.

Definition resume (now : Z) (t : Timer) : Timer :=
  if negb (isPaused t) then t
  else mkTimer (now - elapsedTime t) (elapsedTime t) true false.

Definition reset (t : Timer) : Timer := mkTimer 0 0 false false.

Definition getTime (now : Z) (t : Timer) : Z :=
  if isRunning t then now - startTime t else elapsedTime t.

(** [%] is the remainder of the truncated division, [Math.floor] of a
    quotient the floored division. *)
Definition getFormattedTime (showMilliseconds : bool) (now : Z) (t : Timer)
  : string :=
  let time := getTime now t in
  let totalSeconds := time / 1000 in
  let minutes := totalSeconds / 60 in
  let seconds := Z.rem totalSeconds 60 in
  let ms := Z.rem time 1000 / 10 in
  let mm := padStart 2 "0"%char (toString minutes) in
  let ss := padStart 2 "0"%char (toString seconds) in
  if showMilliseconds
  then mm +:+ ":" +:+ ss +:+ "." +:+ padStart 2 "0"%char (toString ms)
  else mm +:+ ":" +:+ ss.

Record TimeObject := mkTimeObject {
  minutes : Z;
  seconds : Z;
  milliseconds : Z;
  totalMilliseconds : Z
}.

Definition getTimeObject (now : Z) (t : Timer) : TimeObject :=
  let time := getTime now t in
  let totalSeconds := time / 1000 in
  mkTimeObject (totalSeconds / 60) (Z.rem totalSeconds 60) (Z.rem time 1000)
    time.

Definition isActive (t : Timer) : bool := isRunning t.
Definition isOnPause (t : Timer) : bool := isPaused t.

End Timer.

(** ** EventEmitter *)

Module EventEmitter.

(** The functions handed to the emitter, compared by identity as [!==]
    does: a function of the caller, or the closure [onceCallback] that
    [once] creates around one. *)
Inductive Callback :=
| Listener (id : nat)
| OnceCallback (closure : nat) (event : string) (callback : nat).

#[global] Instance Callback_eq_dec : EqDecision Callback.
Proof. solve_decision. Defined.

(** [events] is a plain object: own properties are the arrays of listeners,
    and the names of [Object.prototype] are found through the prototype.
    [closures] counts the closures [once] has created, which names the next
    one. *)
Record EventEmitter := mkEventEmitter {
  events : gmap string (list Callback);
  closures : nat
}.

Definition new_EventEmitter : EventEmitter := mkEventEmitter ∅ 0.

Definition Object_prototype : list string :=
  ["constructor"; "__defineGetter__"; "__defineSetter__"; "hasOwnProperty";
   "__lookupGetter__"; "__lookupSetter__"; "isPrototypeOf";
   "propertyIsEnumerable"; "toString"; "valueOf"; "__proto__";
   "toLocaleString"].

(** [this.events[event]]. *)
Inductive Slot :=
| Undefined
| Inherited
| Listeners (l : list Callback).

Definition slot (e : EventEmitter) (event : string) : Slot :=
  match events e !! event with
  | Some l => Listeners l
  | None => if bool_decide (event ∈ Object_prototype) then Inherited
            else Undefined
  end.

Definition set_events (ev : gmap string (list Callback)) (e : EventEmitter)
  : EventEmitter :=
  mkEventEmitter ev (closures e).

(** An inherited property is truthy and has no [push]. *)
Definition on (event : string) (callback : Callback) (e : EventEmitter)
  : result EventEmitter :=
  match slot e event with
  | Undefined => Ok (set_events (<[event := [callback]]> (events e)) e)
  | Listeners l => Ok (set_events (<[event := l ++ [callback]]> (events e)) e)
  | Inherited => TypeError
  end.

(** [None] is a missing callback; [delete] of a property that is not an own
    one does nothing. *)
Definition off (event : string) (callback : option Callback) (e : EventEmitter)
  : result EventEmitter :=
  match slot e event, callback with
  | Undefined, _ => Ok e
  | Inherited, None => Ok e
  | Inherited, Some _ => TypeError
  | Listeners l, None => Ok (set_events (delete event (events e)) e)
  | Listeners l, Some cb =>
    Ok (set_events (<[event := filter (λ c, c ≠ cb) l]> (events e)) e)
  end.

(** Calling a callback with [args].  What a listener of the caller does is
    not followed, only that it is called: the log takes its name and the
    arguments, listeners do not call back into the emitter, and an exception
    of theirs is caught by [emit].  The closure of [once] first removes
    itself. *)
Definition invoke {A : Type} (cb : Callback) (args : A)
    (st : EventEmitter * list (nat * A)) : EventEmitter * list (nat * A) :=
  match cb with
  | Listener id => (st.1, st.2 ++ [(id, args)])
  | OnceCallback _ event id =>
    match off event (Some cb) st.1 with
    | Ok e => (e, st.2 ++ [(id, args)])
    | TypeError => st
    end
  end.

(** [forEach] walks the array that was in place when [emit] was called;
    [off] installs a filtered copy and leaves that array alone. *)
Definition emit {A : Type} (event : string) (args : A)
    (st : EventEmitter * list (nat * A))
  : result (EventEmitter * list (nat * A)) :=
  match slot st.1 event with
  | Undefined => Ok st
  | Inherited => TypeError
  | Listeners l => Ok (foldl (λ st cb, invoke cb args st) st l)
  end.

Definition once (event : string) (callback : nat) (e : EventEmitter)
  : result EventEmitter :=
  on event (OnceCallback (closures e) event callback)
    (mkEventEmitter (events e) (S (closures e))).

End EventEmitter.

(** * Vocabulary of the properties *)

(** ** Grids and distances *)

Definition grid4_solved : Grid :=
  grid_of_rows [[1; 2; 3; 4]; [5; 6; 7; 8]; [9; 10; 11; 12]; [13; 14; 15; 0]].
Definition grid4_swapped : Grid :=
  grid_of_rows [[1; 2; 3; 4]; [5; 6; 7; 8]; [9; 10; 0; 12]; [13; 14; 15; 11]].

(** Draws that take the blank of a fresh 4x4 board six times round the 2x2
    loop of its corner (up, left, down, right) and then seven times round
    the 2x4 loop of the two bottom rows: 80 turns, none the reverse of the
    one before. *)
Definition round_trip_draws : list nat :=
  concat (replicate 6 [0; 1; 1; 1] ++ replicate 7 [0; 1; 2; 2; 1; 0; 1; 1])%nat.

Definition manhattan (r c r' c' : Z) : Z := Z.abs (r - r') + Z.abs (c - c').
Definition chebyshev (r c r' c' : Z) : Z := Z.abs (r - r') `max` Z.abs (c - c').

(** The block denoted by a [moveBlock] argument. *)
Definition deref (w : World) (o : option addr) : option Block :=
  o ≫= λ a, heap w !! a.

(** The grid after the two writes of a slide: the tile [v] of cell (r, c)
    goes to the blank (er, ec), and (r, c) becomes the blank. *)
Definition slid (g : Grid) (er ec r c v : Z) (g' : Grid) : Prop :=
  ∀ r' c', cell g' r' c' =
           if decide (r' = r ∧ c' = c) then Some 0
           else if decide (r' = er ∧ c' = ec) then Some v
           else cell g r' c'.

Definition in_square (N r c : Z) : Prop := 0 ≤ r < N ∧ 0 ≤ c < N.

(** The puzzle invariant of a grid with its blank: each value of 0..N²-1
    sits in exactly one cell of the square, nothing lies outside it, and the
    tracked blank cell holds 0. *)
Record puzzle (N : Z) (g : Grid) (er ec : Z) : Prop := {
  pz_dom : ∀ r c, is_Some (cell g r c) → in_square N r c;
  pz_def : ∀ r c, in_square N r c → ∃ v, cell g r c = Some v ∧ 0 ≤ v < N * N;
  pz_inj : ∀ r c r' c' v,
    cell g r c = Some v → cell g r' c' = Some v → r = r' ∧ c = c';
  pz_surj : ∀ v, 0 ≤ v < N * N → ∃ r c, cell g r c = Some v;
  pz_blank : cell g er ec = Some 0
}.

(** The solved arrangement. *)
Definition wins (N : Z) (g : Grid) : Prop :=
  ∀ r c, in_square N r c → cell g r c = Some (expectedValue N r c).

(** A winning arrangement can be reached by sliding tiles next to the
    blank into it. *)
Inductive slides_to_win (N : Z) : Grid → Z → Z → Prop :=
| stw_win g er ec : wins N g → slides_to_win N g er ec
| stw_slide g er ec r c v g' :
    cell g r c = Some v → manhattan r c er ec = 1 →
    slid g er ec r c v g' → slides_to_win N g' r c →
    slides_to_win N g er ec.

(** The cells of the square, row by row. *)
Definition cells_list (N : Z) : list (Z * Z) :=
  r ← seqZ 0 N; (λ c, (r, c)) <$> seqZ 0 N.

Definition solved_block (N : Z) (p : Z * Z) : Block :=
  new_Block (expectedValue N p.1 p.2) p.1 p.2.

Definition solved_cells (N : Z) (g : Grid) : Prop :=
  ∀ r c, cell g r c =
         if decide (in_square N r c) then Some (expectedValue N r c) else None.

(** [_initGrid] starts from empty arrays and zeroed counters. *)
Definition cleared (w : World) : World :=
  set_moveCount 0 (set_moveHistory [] (set_blocks [] (set_grid ∅ w))).

(** The board after [_createBlocks] has pushed the blocks of the cells [pc]:
    each new block takes the next heap address. *)
Definition built (w : World) (pc : list (Z * Z)) : World :=
  set_blocks (seq (length (heap w)) (length pc))
    (set_heap (heap w ++ (solved_block (size w) <$> pc)) w).

Definition built_blocks (N : Z) (h0 : list Block) : list addr :=
  seq (length h0) (length (cells_list N)).
Definition built_heap (N : Z) (h0 : list Block) : list Block :=
  h0 ++ (solved_block N <$> cells_list N).

(** ** Events and reachable worlds *)

#[global] Instance result_fmap : FMap result := λ A B f m,
  match m with
  | Ok a => Ok (f a)
  | TypeError => TypeError
  end.

(** What can happen to a board: calls from the scene, and the event loop
    resuming a suspended move, running a due callback or resuming a
    suspended [shuffle]. *)
Inductive Event :=
| EMove (o : option addr) (animate : bool)
| ESettle (i : nat)
| ECallback
| EShuffle (moveCount : option Z) (rand : nat → nat)
| EResume (k : nat)
| EReset.

Definition step (e : Event) (w : World) : result World :=
  match e with
  | EMove o animate => snd <$> moveBlock o animate w
  | ESettle i => settle i w
  | ECallback => then_callback w
  | EShuffle moveCount rand => shuffle_start moveCount rand w
  | EResume k => shuffle_resume k w
  | EReset => reset w
  end.

(** No move is in flight, queued or about to be dequeued. *)
Definition idle (w : World) : Prop :=
  flights w = [] ∧ callbacks w = O ∧ moveQueue w = [].

(** The tile handed to [moveBlock] is one of the board's blocks (what
    [getBlock] and [moveAtPosition] find), or null. *)
Definition own_tile (w : World) (o : option addr) : Prop :=
  match o with
  | None => True
  | Some a => a ∈ blocks w
  end.

(** Moves may be requested at any time, also while a move animates and
    while a [shuffle] is suspended; [shuffle] and [reset] are called on an
    idle board on which no [shuffle] is running. *)
Definition permitted (e : Event) (w : World) : Prop :=
  match e with
  | EMove o _ => own_tile w o
  | EShuffle _ _ | EReset => idle w ∧ shuffles w = []
  | ESettle _ | ECallback | EResume _ => True
  end.

Inductive reachable (N : Z) : World → Prop :=
| reach_new w : new_Board N = Ok w → reachable N w
| reach_step w e w' :
    reachable N w → permitted e w → step e w = Ok w' → reachable N w'.

(** ** The invariant of reachable worlds *)

Definition block_of (w : World) (a : addr) (b : Block) : Prop :=
  a ∈ blocks w ∧ heap w !! a = Some b.

(** The values carried by the blocks of the board: one block per value,
    the blank's block last in the array. *)
Record tiles (N : Z) (bs : list addr) (h : list Block) : Prop := {
  t_nodup : NoDup bs;
  t_heap : ∀ a, a ∈ bs → is_Some (h !! a);
  t_inj : ∀ a a' b b',
    a ∈ bs → a' ∈ bs → h !! a = Some b → h !! a' = Some b' →
    value b = value b' → a = a';
  t_surj : ∀ v, 0 ≤ v < N * N → ∃ a b, a ∈ bs ∧ h !! a = Some b ∧ value b = v;
  t_last : ∃ bs' a0 b0, bs = bs' ++ [a0] ∧ h !! a0 = Some b0 ∧ value b0 = 0
}.

Record Inv (N : Z) (w : World) : Prop := {
  inv_size : size w = N;
  inv_puzzle : puzzle N (grid w) (emptyRow w) (emptyCol w);
  inv_tiles : tiles N (blocks w) (heap w);
  inv_blank_block : ∀ a b,
    block_of w a b → value b = 0 → row b = N - 1 ∧ col b = N - 1;
  inv_block_pos : ∀ a b,
    block_of w a b → value b ≠ 0 →
    cell (grid w) (row b) (col b) = Some (value b) ∨
    ∃ f, f ∈ flights w ∧ f_block f = a;
  inv_flight : ∀ f,
    f ∈ flights w →
    ∃ b, block_of w (f_block f) b ∧ value b ≠ 0 ∧
         cell (grid w) (f_oldEmptyRow f) (f_oldEmptyCol f) = Some (value b);
  inv_single : (length (flights w) ≤ 1)%nat;
  inv_anim : isAnimating w = false → flights w = [];
  inv_queue : ∀ a animate, (a, animate) ∈ moveQueue w → a ∈ blocks w;
  inv_solvable : slides_to_win N (grid w) (emptyRow w) (emptyCol w)
}.

(** A [then] callback is pending, or a dequeued move is in flight, whenever
    [isProcessingQueue] is set. *)
Definition processing_ok (w : World) : Prop :=
  isProcessingQueue w = true →
  (0 < callbacks w)%nat ∨ ∃ f, f ∈ flights w ∧ f_chained f = true.

(** At most one [shuffle] is running, and while it is suspended it holds
    the lock and no move is in flight. *)
Definition shuffling_ok (w : World) : Prop :=
  (length (shuffles w) ≤ 1)%nat ∧
  (shuffles w ≠ [] → flights w = [] ∧ isAnimating w = true).

(** ** Moves, cut at their await *)

(** The world in which [moveBlock] suspends once it has accepted block [b]
    at address [a]; [g] is the grid after the two writes. *)
Definition accepted (w : World) (chained : bool) (a : addr) (animate : bool)
    (b : Block) (g : Grid) : World :=
  set_flights
    (stop_tween a animate (flights w) ++
       [mkFlight a (emptyRow w) (emptyCol w) animate chained])
    (update_block a (set_block_target (emptyRow w) (emptyCol w))
       (set_empty (row b) (col b)
          (set_grid g
             (set_moveHistory
                (moveHistory w ++
                   [mkMoveRecord (value b) (row b, col b)
                      (emptyRow w, emptyCol w)])
                (set_isAnimating true w))))).

(** The board once the suspended move [f] has run up to its call of
    [_processQueue]. *)
Definition finished (i : nat) (f : Flight) (w : World) : World :=
  let w := set_flights (delete i (flights w)) w in
  let w :=
    if f_animate f
    then update_block (f_block f)
           (λ b, set_block_pos (targetRow b) (targetCol b) b) w
    else w in
  let w := update_block (f_block f)
             (set_block_pos (f_oldEmptyRow f) (f_oldEmptyCol f)) w in
  let w := set_moveCount (moveCount w + 1) w in
  set_isAnimating false w.

(** ** Playing and draining *)

(** The cell contents of the size x size square, read row by row. *)
Definition grid_values (w : World) : list (option Z) :=
  (λ p, cell (grid w) p.1 p.2) <$> cells_list (size w).

(** Awaited [moveBlock] calls one after the other, each of which has to be
    accepted (resolve to true). *)
Fixpoint play (ms : list (addr * bool)) (w : World) : result (bool * World) :=
  match ms with
  | [] => Ok (true, w)
  | m :: ms' =>
    '(r, w') ← awaited_moveBlock (Some m.1) m.2 w;
    if (r : bool) then play ms' w' else Ok (false, w')
  end.

(** Some finite sequence of legal moves of the board's tiles leads to a
    world in which [checkWin()] is true. *)
Definition solvable (w : World) : Prop :=
  ∃ ms w', (∀ m, m ∈ ms → m.1 ∈ blocks w) ∧
           play ms w = Ok (true, w') ∧ checkWin w' = Ok true.

(** Requests issued one after the other without waiting for any promise. *)
Fixpoint request_all (ms : list (option addr * bool)) (w : World)
  : result World :=
  match ms with
  | [] => Ok w
  | m :: ms' => '(_, w') ← moveBlock m.1 m.2 w; request_all ms' w'
  end.

(** The event loop: due [then] callbacks run first (they are microtasks),
    then the animation in flight settles; [fuel] bounds the number of
    turns. *)
Fixpoint drain (fuel : nat) (w : World) : result World :=
  match fuel with
  | O => Ok w
  | S k =>
    match callbacks w, flights w with
    | S _, _ => w' ← then_callback w; drain k w'
    | O, _ :: _ => w' ← settle 0 w; drain k w'
    | O, [] => Ok w
    end
  end.

(** The same requests, each awaited before the next is issued. *)
Fixpoint in_sequence (ms : list (option addr * bool)) (w : World)
  : result World :=
  match ms with
  | [] => Ok w
  | m :: ms' => '(_, w') ← awaited_moveBlock m.1 m.2 w; in_sequence ms' w'
  end.

(** The two tests every [moveBlock] call starts with. *)
Definition legal_at (w : World) (m : option addr * bool) : bool :=
  match deref w m.1 with
  | Some b => negb (value b =? 0) && canMove w (row b) (col b)
  | None => false
  end.

Definition to_queue (ms : list (option addr * bool)) : list (addr * bool) :=
  omap (λ m, (λ a, (a, m.2)) <$> m.1) ms.

(** The exits of [moveBlock]. *)
Inductive Attempt :=
| ARejected
| AQueued (a : addr)
| AThrows
| AAccepted (a : addr) (b : Block) (g : Grid).

Definition attempt (w : World) (o : option addr) : Attempt :=
  match o with
  | None => ARejected
  | Some a =>
    match heap w !! a with
    | None => ARejected
    | Some b =>
      if value b =? 0 then ARejected
      else if negb (canMove w (row b) (col b)) then ARejected
      else if isAnimating w then AQueued a
      else
        match grid_write (grid w) (emptyRow w) (emptyCol w) (value b) with
        | TypeError => AThrows
        | Ok g1 =>
          match grid_write g1 (row b) (col b) 0 with
          | TypeError => AThrows
          | Ok g2 => AAccepted a b g2
          end
        end
    end
  end.

Definition to_requests (q : list (addr * bool)) : list (option addr * bool) :=
  (λ m, (Some m.1, m.2)) <$> q.

(** ** The bookkeeping of moves *)

(** The bookkeeping of moves: the counter counts the records of the history
    whose move has settled, and the history is the path of the blank (which
    a running [shuffle] moves on without a record). *)
Record ledger (w : World) : Prop := {
  lg_nonneg : 0 ≤ moveCount w;
  lg_count :
    moveCount w + Z.of_nat (length (flights w))
    = Z.of_nat (length (moveHistory w));
  lg_last : shuffles w = [] → ∀ m,
    last (moveHistory w) = Some m →
    mv_from m = (emptyRow w, emptyCol w) ∧
    cell (grid w) (mv_to m).1 (mv_to m).2 = Some (mv_value m);
  lg_chain : ∀ i m m',
    moveHistory w !! i = Some m → moveHistory w !! S i = Some m' →
    mv_to m' = mv_from m;
  lg_legal : ∀ m,
    m ∈ moveHistory w →
    mv_value m ≠ 0 ∧
    manhattan (mv_from m).1 (mv_from m).2 (mv_to m).1 (mv_to m).2 = 1
}.

(** ** Directions of the scramble *)

Definition opposite (d : Direction) : Direction :=
  match d with
  | up => down
  | down => up
  | left => right
  | right => left
  end.

(** The cell next to (r, c) in a direction. *)
Definition towards (d : Direction) (r c : Z) : Z * Z :=
  match d with
  | up => (r - 1, c)
  | down => (r + 1, c)
  | left => (r, c - 1)
  | right => (r, c + 1)
  end.

(** ** The order of the event loop *)

(** The order of the JavaScript event loop: the [then] callbacks of
    resolved promises are microtasks, and run before the next touch event
    can call [moveBlock].  Here no touch arrives while a [shuffle] is
    running either. *)
Definition permitted_in_turn (e : Event) (w : World) : Prop :=
  permitted e w ∧
  match e with
  | EMove _ _ => callbacks w = O ∧ shuffles w = []
  | _ => True
  end.

Inductive reachable_in_turn (N : Z) : World → Prop :=
| turn_new w : new_Board N = Ok w → reachable_in_turn N w
| turn_step w e w' :
    reachable_in_turn N w → permitted_in_turn e w → step e w = Ok w' →
    reachable_in_turn N w'.

(** How the lock, the queue and the callbacks hang together. *)
Record queue_ok (w : World) : Prop := {
  q_lock : isAnimating w = true → shuffles w = [] → flights w ≠ [];
  q_shuffle : shuffles w ≠ [] → callbacks w = O ∧ moveQueue w = [];
  q_micro : (0 < callbacks w)%nat → flights w = [];
  q_pending : moveQueue w ≠ [] → flights w ≠ [] ∨ (0 < callbacks w)%nat;
  q_chained : ∀ f,
    f ∈ flights w → f_chained f = true → isProcessingQueue w = true;
  q_one : (callbacks w ≤ 1)%nat;
  q_busy : (0 < callbacks w)%nat → isProcessingQueue w = true
}.

(** ** Timers *)

(** Calls made on a timer, each with the clock reading at the call. *)
Inductive TimerCall := TStart | TStop | TPause | TResume | TReset.

Definition timer_call (c : TimerCall) (now : Z) (t : Timer.Timer)
  : Timer.Timer :=
  match c with
  | TStart => Timer.start now t
  | TStop => Timer.stop now t
  | TPause => Timer.pause now t
  | TResume => Timer.resume now t
  | TReset => Timer.reset t
  end.

Definition timer_run (cs : list (TimerCall * Z)) (t : Timer.Timer)
  : Timer.Timer :=
  foldl (λ t c, timer_call c.1 c.2 t) t cs.

(** The clock never goes back: the readings, from [t0] on, only grow. *)
Fixpoint clock_from (t0 : Z) (ts : list Z) : Prop :=
  match ts with
  | [] => True
  | t :: ts' => t0 ≤ t ∧ clock_from t ts'
  end.

Fixpoint last_reading (t0 : Z) (ts : list Z) : Z :=
  match ts with
  | [] => t0
  | t :: ts' => last_reading t ts'
  end.

(** The character of a decimal digit. *)
Definition digit (d : Z) : ascii := Ascii.ascii_of_nat (48 + Z.to_nat d).

Definition two_digits (n : Z) : string :=
  String (digit (n / 10)) (String (digit (n mod 10)) EmptyString).

(** The invariant of a timer used with a clock that never goes back, last
    read at [tl]. *)
Record timer_ok (tl : Z) (t : Timer.Timer) : Prop := {
  tk_flags : ¬ (Timer.isRunning t = true ∧ Timer.isPaused t = true);
  tk_elapsed : 0 ≤ Timer.elapsedTime t;
  tk_start : Timer.isRunning t = true → Timer.startTime t ≤ tl
}.

(** ** Emitters *)

(** The listener a callback ends up calling. *)
Definition target (c : EventEmitter.Callback) : nat :=
  match c with
  | EventEmitter.Listener id => id
  | EventEmitter.OnceCallback _ _ id => id
  end.

Definition lasting (c : EventEmitter.Callback) : Prop :=
  match c with
  | EventEmitter.Listener _ => True
  | EventEmitter.OnceCallback _ _ _ => False
  end.

#[global] Instance lasting_dec (c : EventEmitter.Callback) : Decision (lasting c).
Proof. destruct c; apply _. Defined.

(** The calls a program makes on an emitter: its own functions are the
    listeners. *)
Inductive EmitterCall :=
| COn (event : string) (id : nat)
| COff (event : string) (id : option nat)
| COnce (event : string) (id : nat)
| CEmit (event : string).

Definition emitter_call (c : EmitterCall) (e : EventEmitter.EventEmitter)
  : result EventEmitter.EventEmitter :=
  match c with
  | COn event id => EventEmitter.on event (EventEmitter.Listener id) e
  | COff event id => EventEmitter.off event (EventEmitter.Listener <$> id) e
  | COnce event id => EventEmitter.once event id e
  | CEmit event => fst <$> EventEmitter.emit event () (e, [])
  end.

Inductive emitter_reachable : EventEmitter.EventEmitter → Prop :=
| er_new : emitter_reachable EventEmitter.new_EventEmitter
| er_call e c e' :
    emitter_reachable e → emitter_call c e = Ok e' → emitter_reachable e'.

(** The closures stored under an event were made for it by [once], one
    registration each, and no own property has an inherited name. *)
Record emitter_ok (e : EventEmitter.EventEmitter) : Prop := {
  ok_once : ∀ ev l k ev' i,
    EventEmitter.events e !! ev = Some l →
    EventEmitter.OnceCallback k ev' i ∈ l →
    ev' = ev ∧ (k < EventEmitter.closures e)%nat;
  ok_nodup : ∀ ev l,
    EventEmitter.events e !! ev = Some l → NoDup (filter (λ c, ¬ lasting c) l);
  ok_own : ∀ ev,
    is_Some (EventEmitter.events e !! ev) → ev ∉ EventEmitter.Object_prototype
}.

(** * Properties *)

(** ** Win detection *)

Lemma all_cells_true (f : Z → result bool) (l : list Z) :
  all_cells f l = Ok true ↔ ∀ x, x ∈ l → f x = Ok true.
Proof.
  induction l as [|x l IH]; simpl.
  - split; [intros _ y Hy; inversion Hy | done].
  - destruct (f x) as [[|]|] eqn:Hx; simpl.
    + rewrite IH. split.
      * intros H y Hy. apply elem_of_cons in Hy as [->|Hy]; auto.
      * intros H y Hy. apply H. by right.
    + split; [done|]. intros H. specialize (H x (list_elem_of_here _ _)).
      congruence.
    + split; [done|]. intros H. specialize (H x (list_elem_of_here _ _)).
      congruence.
Qed.

Lemma win_cell_true (g : Grid) (sz r c : Z) :
  (actual ← grid_read g r c;
   if (r =? sz - 1) && (c =? sz - 1)
   then Ok (bool_decide (actual = Some 0))
   else Ok (bool_decide (actual = Some (r * sz + c + 1)))) = Ok true
  ↔ cell g r c = Some (expectedValue sz r c).
Proof.
  unfold grid_read, cell, expectedValue.
  destruct (g !! r) as [rw|]; simpl; [|split; discriminate].
  destruct ((r =? sz - 1) && (c =? sz - 1)).
  - split; [intros [= H%bool_decide_eq_true]; done|].
    intros ->. by rewrite bool_decide_eq_true_2.
  - split; [intros [= H%bool_decide_eq_true]; done|].
    intros ->. by rewrite bool_decide_eq_true_2.
Qed.

Lemma checkWin_true_iff (w : World) :
  checkWin w = Ok true ↔
  ∀ r c, 0 ≤ r < size w → 0 ≤ c < size w →
         cell (grid w) r c = Some (expectedValue (size w) r c).
Proof.
  unfold checkWin. rewrite all_cells_true.
  setoid_rewrite all_cells_true. setoid_rewrite win_cell_true.
  setoid_rewrite elem_of_seqZ. split.
  - intros H r c Hr Hc. apply H; lia.
  - intros H r Hr c Hc. apply H; lia.
Qed.

(** C5: [checkWin] returns true exactly when every cell (row, col) of the
    size x size square holds [row*size+col+1], the last cell holding 0; the
    solved 4x4 grid wins, and with the values at (2,2) and (3,3) swapped it
    does not. *)
Theorem checkWin_iff_solved :
  (∀ w : World,
     checkWin w = Ok true ↔
     ∀ r c, 0 ≤ r < size w → 0 ≤ c < size w →
            cell (grid w) r c = Some (expectedValue (size w) r c)) ∧
  (w ← new_Board 4; checkWin (set_grid grid4_solved w)) = Ok true ∧
  (w ← new_Board 4; checkWin (set_grid grid4_swapped w)) = Ok false.
Proof.
  split; [apply checkWin_true_iff|split; vm_compute; reflexivity].
Qed.

(** ** Move legality *)

Lemma canMove_manhattan (w : World) (r c : Z) :
  canMove w r c = true ↔ manhattan r c (emptyRow w) (emptyCol w) = 1.
Proof.
  unfold canMove, manhattan. split.
  - intros H. apply orb_true_iff in H as [H|H];
      apply andb_true_iff in H as [H1%Z.eqb_eq H2%Z.eqb_eq]; lia.
  - intros H. apply orb_true_iff.
    destruct (decide (Z.abs (r - emptyRow w) = 1)) as [Hr|Hr].
    + left. apply andb_true_iff. split; apply Z.eqb_eq; lia.
    + right. apply andb_true_iff. split; apply Z.eqb_eq; lia.
Qed.

(** C6: [canMove] holds exactly at Manhattan distance 1 from the blank, that
    is on its four orthogonal neighbours; it fails on the blank's own cell
    and on the diagonal neighbours (Chebyshev distance 1, Manhattan 2). *)
Theorem canMove_iff_orthogonal_neighbour (w : World) (r c : Z) :
  (canMove w r c = true ↔ manhattan r c (emptyRow w) (emptyCol w) = 1) ∧
  (canMove w r c = true ↔
     (r, c) ∈ [(emptyRow w - 1, emptyCol w); (emptyRow w + 1, emptyCol w);
               (emptyRow w, emptyCol w - 1); (emptyRow w, emptyCol w + 1)]) ∧
  canMove w (emptyRow w) (emptyCol w) = false ∧
  (canMove w r c = true →
     ¬ (chebyshev r c (emptyRow w) (emptyCol w) = 1 ∧
        manhattan r c (emptyRow w) (emptyCol w) = 2)).
Proof.
  split; [apply canMove_manhattan|].
  unfold canMove, manhattan, chebyshev.
  repeat split.
  - intros H. apply orb_true_iff in H as [H|H];
      apply andb_true_iff in H as [H1%Z.eqb_eq H2%Z.eqb_eq];
      rewrite !elem_of_cons.
    + destruct (decide (r = emptyRow w - 1)); [left|right; left];
        f_equal; lia.
    + destruct (decide (c = emptyCol w - 1));
        [right; right; left|right; right; right; left]; f_equal; lia.
  - rewrite !elem_of_cons, elem_of_nil. intros H. apply orb_true_iff.
    destruct H as [[= -> ->]|[[= -> ->]|[[= -> ->]|[[= -> ->]|[]]]]];
      [left|left|right|right]; apply andb_true_iff; split; apply Z.eqb_eq; lia.
  - rewrite !Z.sub_diag. reflexivity.
  - intros H [_ H2]. apply orb_true_iff in H as [H|H];
      apply andb_true_iff in H as [H1%Z.eqb_eq H3%Z.eqb_eq]; lia.
Qed.

(** ** Star rating *)

(** C7: the rating is the fixed table applied to the board size and the
    whole elapsed seconds, with the listed boundary values. *)
Theorem stars_table :
  (∀ boardSize timeMs,
     _calculateStars boardSize timeMs = stars_for boardSize (timeMs / 1000)) ∧
  stars_for 4 59 = 3 ∧ stars_for 4 60 = 3 ∧ stars_for 4 61 = 2 ∧
  stars_for 4 300 = 1 ∧ stars_for 4 301 = 0 ∧
  stars_for 5 720 = 1 ∧ stars_for 5 721 = 0.
Proof. repeat split. Qed.

(** ** Rejected moves *)

(** C8: on the blank tile, or on a tile that [canMove] refuses, [moveBlock]
    resolves to false without raising and leaves the board as it was: grid,
    blank position, counter, history and queue. *)
Theorem moveBlock_rejects (w : World) (a : addr) (b : Block) (animate : bool) :
  heap w !! a = Some b →
  value b = 0 ∨ canMove w (row b) (col b) = false →
  moveBlock (Some a) animate w = Ok (Resolved false, w).
Proof.
  intros Hb H. unfold moveBlock, moveBlock_from. rewrite Hb.
  destruct (value b =? 0) eqn:Hv; [done|].
  destruct H as [H|H]; [apply Z.eqb_neq in Hv; done|].
  by rewrite H.
Qed.

(** ** Grid writes, cell by cell *)

Lemma cell_insert_row (g : Grid) (r : Z) (rw : gmap Z Z) (r' c' : Z) :
  cell (<[r := rw]> g) r' c' = if decide (r' = r) then rw !! c' else cell g r' c'.
Proof.
  unfold cell. destruct (decide (r' = r)) as [->|Hne].
  - by rewrite lookup_insert_eq.
  - by rewrite lookup_insert_ne.
Qed.

Lemma grid_write_cell (g g' : Grid) (r c v : Z) :
  grid_write g r c v = Ok g' →
  ∀ r' c', cell g' r' c' =
           if decide (r' = r ∧ c' = c) then Some v else cell g r' c'.
Proof.
  unfold grid_write. destruct (g !! r) as [rw|] eqn:Hr; [|done].
  intros [= <-] r' c'. rewrite cell_insert_row.
  destruct (decide (r' = r)) as [->|Hne].
  - destruct (decide (c' = c)) as [->|Hc].
    + rewrite lookup_insert_eq. by rewrite decide_True.
    + rewrite lookup_insert_ne by done. rewrite decide_False by naive_solver.
      unfold cell. by rewrite Hr.
  - by rewrite decide_False by naive_solver.
Qed.

Lemma grid_write_row (g g' : Grid) (r c v : Z) :
  grid_write g r c v = Ok g' → is_Some (g' !! r).
Proof.
  unfold grid_write. destruct (g !! r); [|done]. intros [= <-].
  rewrite lookup_insert_eq. eauto.
Qed.

Lemma grid_write_is_Ok (g : Grid) (r c0 c v : Z) :
  is_Some (cell g r c0) → ∃ g', grid_write g r c v = Ok g'.
Proof.
  unfold cell, grid_write. destruct (g !! r); [eauto|].
  intros [? ?]; discriminate.
Qed.

Lemma grid_read_cell (g : Grid) (r c : Z) :
  is_Some (cell g r c) → grid_read g r c = Ok (cell g r c).
Proof.
  unfold cell, grid_read. destruct (g !! r); [done|].
  intros [? ?]; discriminate.
Qed.

Lemma grid_write_slid (g : Grid) (er ec r c v : Z) :
  is_Some (cell g er ec) → is_Some (cell g r c) →
  ∃ g1 g2, grid_write g er ec v = Ok g1 ∧ grid_write g1 r c 0 = Ok g2 ∧
           slid g er ec r c v g2.
Proof.
  intros He Hp.
  destruct (grid_write_is_Ok g er ec ec v He) as [g1 H1].
  assert (is_Some (cell g1 r c)) as Hp1.
  { rewrite (grid_write_cell _ _ _ _ _ H1). by case_decide. }
  destruct (grid_write_is_Ok g1 r c c 0 Hp1) as [g2 H2].
  exists g1, g2. split; [done|]. split; [done|].
  intros r' c'. rewrite (grid_write_cell _ _ _ _ _ H2).
  case_decide; [done|]. by rewrite (grid_write_cell _ _ _ _ _ H1).
Qed.

Lemma slid_from_writes (g g1 g2 : Grid) (er ec r c v : Z) :
  grid_write g er ec v = Ok g1 → grid_write g1 r c 0 = Ok g2 →
  slid g er ec r c v g2.
Proof.
  intros H1 H2 r' c'. rewrite (grid_write_cell _ _ _ _ _ H2).
  case_decide; [done|]. by rewrite (grid_write_cell _ _ _ _ _ H1).
Qed.

(** ** The puzzle invariant of a grid with its blank *)

Section Puzzle.
Variable N : Z.

Lemma puzzle_slid (g g' : Grid) (er ec r c v : Z) :
  puzzle N g er ec → cell g r c = Some v → ¬ (r = er ∧ c = ec) →
  slid g er ec r c v g' → puzzle N g' r c.
Proof.
  intros [Hdom Hdef Hinj Hsurj Hblank] Hp Hne Hs.
  assert (v ≠ 0) as Hv.
  { intros ->. destruct (Hinj _ _ _ _ _ Hp Hblank). naive_solver. }
  split.
  - intros r' c'. rewrite Hs. repeat case_decide.
    + intros _. apply Hdom. naive_solver.
    + intros _. apply Hdom. naive_solver.
    + apply Hdom.
  - intros r' c' Hin. rewrite Hs. repeat case_decide.
    + exists 0. split; [done|]. destruct (Hdef _ _ Hin) as (?&?&?). lia.
    + exists v. split; [done|].
      destruct (Hdef r c) as (v'&Hv'&?); [apply Hdom; eauto|]. congruence.
    + by apply Hdef.
  - intros r1 c1 r2 c2 u. rewrite !Hs.
    destruct (decide (r1 = r ∧ c1 = c)) as [[-> ->]|Hn1];
      destruct (decide (r2 = r ∧ c2 = c)) as [[-> ->]|Hn2]; [done| | |].
    + case_decide; intros [= <-] Hx; [congruence|].
      destruct (Hinj _ _ _ _ _ Hx Hblank). naive_solver.
    + case_decide; intros Hx [= <-]; [congruence|].
      destruct (Hinj _ _ _ _ _ Hx Hblank). naive_solver.
    + destruct (decide (r1 = er ∧ c1 = ec)) as [[-> ->]|Hm1];
        destruct (decide (r2 = er ∧ c2 = ec)) as [[-> ->]|Hm2]; [done| | |].
      * intros [= <-] Hx. destruct (Hinj _ _ _ _ _ Hx Hp). naive_solver.
      * intros Hx [= <-]. destruct (Hinj _ _ _ _ _ Hx Hp). naive_solver.
      * apply Hinj.
  - intros u Hu. destruct (Hsurj u Hu) as (r1&c1&H1).
    destruct (decide (u = v)) as [->|Huv].
    { exists er, ec. rewrite Hs. rewrite decide_False by naive_solver.
      by rewrite decide_True. }
    destruct (decide (u = 0)) as [->|Hu0].
    { exists r, c. rewrite Hs. by rewrite decide_True. }
    exists r1, c1. rewrite Hs.
    rewrite decide_False by (intros [-> ->]; congruence).
    rewrite decide_False by (intros [-> ->]; congruence). done.
  - rewrite Hs. by rewrite decide_True.
Qed.

Lemma slides_to_win_cells (g1 g2 : Grid) (er ec : Z) :
  (∀ r c, cell g1 r c = cell g2 r c) →
  slides_to_win N g1 er ec → slides_to_win N g2 er ec.
Proof.
  intros Heq H. revert g2 Heq.
  induction H as [g er ec Hw|g er ec r c v g' Hp Hm Hs Hw' _]; intros g2 Heq.
  - apply stw_win. intros r c Hin. rewrite <- Heq. by apply Hw.
  - eapply stw_slide with (g' := g'); [by rewrite <- Heq|done| |done].
    intros r' c'. rewrite Hs. by rewrite Heq.
Qed.

(** Sliding is undone by sliding the same tile back. *)
Lemma slides_to_win_slid (g g' : Grid) (er ec r c v : Z) :
  puzzle N g er ec → cell g r c = Some v → manhattan r c er ec = 1 →
  slid g er ec r c v g' →
  slides_to_win N g er ec → slides_to_win N g' r c.
Proof.
  intros Hpz Hp Hm Hs Hw.
  assert (¬ (r = er ∧ c = ec)) as Hne by (unfold manhattan in Hm; lia).
  apply (stw_slide N g' r c er ec v g); [| |  |done].
  - rewrite Hs. rewrite decide_False by naive_solver. by rewrite decide_True.
  - unfold manhattan in *. lia.
  - intros r' c'. rewrite !Hs. destruct Hpz as [_ _ _ _ Hb].
    repeat case_decide; naive_solver.
Qed.
End Puzzle.

(** ** Loops *)

Lemma for_each_inv {S : Type} (I : list Z → S → Prop) (l : list Z)
    (body : Z → S → result S) (s : S) :
  I [] s →
  (∀ seen x s, I seen s → x ∈ l → ∃ s', body x s = Ok s' ∧ I (seen ++ [x]) s') →
  ∃ s', for_each l body s = Ok s' ∧ I l s'.
Proof.
  intros H0 Hstep.
  cut (∀ seen s, I seen s → ∃ s', for_each l body s = Ok s' ∧ I (seen ++ l) s').
  { intros H. apply (H [] s H0). }
  revert Hstep. clear H0. induction l as [|x l IH]; intros Hstep seen s0 Hs.
  - exists s0. by rewrite app_nil_r.
  - destruct (Hstep seen x s0 Hs) as (s1&Hb&H1); [by left|].
    destruct (IH (λ seen x s Hi Hx, Hstep seen x s Hi (list_elem_of_further _ _ _ Hx))
                 (seen ++ [x]) s1 H1) as (s2&Hf&H2).
    exists s2. simpl. rewrite Hb. simpl. split; [done|].
    by rewrite <- app_assoc in H2.
Qed.

(** ** What [_initGrid] builds *)

Lemma expectedValue_last (N r c : Z) :
  in_square N r c → ¬ (r * N + c + 1 < N * N) → r = N - 1 ∧ c = N - 1.
Proof. unfold in_square. intros [? ?] ?. nia. Qed.

Lemma expectedValue_inner (N r c : Z) :
  in_square N r c → r * N + c + 1 < N * N →
  expectedValue N r c = r * N + c + 1.
Proof.
  unfold in_square, expectedValue. intros [? ?] ?.
  destruct (r =? N - 1) eqn:Hr; [|done].
  destruct (c =? N - 1) eqn:Hc; [|done]. simpl.
  apply Z.eqb_eq in Hr, Hc. nia.
Qed.

Lemma expectedValue_corner (N : Z) : expectedValue N (N - 1) (N - 1) = 0.
Proof. unfold expectedValue. by rewrite !Z.eqb_refl. Qed.

Lemma initGrid_cells (w : World) :
  ∃ g er ec,
    for_each (seqZ 0 (size (cleared w))) (λ r w,
      let w := set_grid (<[r := ∅]> (grid w)) w in
      for_each (seqZ 0 (size w)) (λ c w,
        let v := r * size w + c + 1 in
        if v <? size w * size w then
          g ← grid_write (grid w) r c v; Ok (set_grid g w)
        else
          g ← grid_write (grid w) r c 0; Ok (set_empty r c (set_grid g w))) w)
      (cleared w)
    = Ok (set_empty er ec (set_grid g (cleared w))) ∧
    solved_cells (size w) g ∧ (0 < size w → er = size w - 1 ∧ ec = size w - 1).
Proof.
  set (N := size w). set (w0 := cleared w).
  set (I := λ (seen : list Z) (s : World),
    ∃ g er ec, s = set_empty er ec (set_grid g w0) ∧
      (∀ r c, cell g r c =
         if decide (r ∈ seen ∧ 0 ≤ c < N)
         then Some (expectedValue N r c) else None) ∧
      (N - 1 ∈ seen → er = N - 1 ∧ ec = N - 1)).
  destruct (for_each_inv I (seqZ 0 (size w0)) (λ r w,
      let w := set_grid (<[r := ∅]> (grid w)) w in
      for_each (seqZ 0 (size w)) (λ c w,
        let v := r * size w + c + 1 in
        if v <? size w * size w then
          g ← grid_write (grid w) r c v; Ok (set_grid g w)
        else
          g ← grid_write (grid w) r c 0; Ok (set_empty r c (set_grid g w))) w)
      w0) as (s&Hs&g&er&ec&->&Hc&He).
  - exists ∅, (emptyRow w), (emptyCol w). split; [by destruct w|].
    split; [|intros H; inversion H].
    intros r c. rewrite decide_False; [done|]. intros [H _]. inversion H.
  - intros seen r s (g&er&ec&->&Hc&He) Hr.
    apply elem_of_seqZ in Hr. change (size w0) with N in Hr.
    set (J := λ (seenc : list Z) (s : World),
      ∃ g' er' ec', s = set_empty er' ec' (set_grid g' w0) ∧
        (∀ r' c', cell g' r' c' =
           if decide (r' = r)
           then (if decide (c' ∈ seenc) then Some (expectedValue N r c')
                 else None)
           else cell g r' c') ∧
        ((r = N - 1 ∧ N - 1 ∈ seenc) ∨ N - 1 ∈ seen → er' = N - 1 ∧ ec' = N - 1) ∧
        is_Some (g' !! r)).
    simpl.
    destruct (for_each_inv J (seqZ 0 N) (λ c w,
        let v := r * size w + c + 1 in
        if v <? size w * size w then
          g ← grid_write (grid w) r c v; Ok (set_grid g w)
        else
          g ← grid_write (grid w) r c 0; Ok (set_empty r c (set_grid g w)))
        (set_empty er ec (set_grid (<[r := ∅]> g) w0)))
      as (s&Hs&g'&er'&ec'&->&Hc'&He'&_).
    + exists (<[r := ∅]> g), er, ec. split; [done|]. split; [|split].
      * intros r' c'. rewrite cell_insert_row. case_decide; [|done].
        rewrite decide_False; [done|]. intros H'; inversion H'.
      * intros [[_ H']|H']; [inversion H'|by apply He].
      * rewrite lookup_insert_eq. eauto.
    + intros seenc c s (g'&er'&ec'&->&Hc'&He'&[rw Hrw]) Hcin.
      apply elem_of_seqZ in Hcin. simpl. fold N.
      assert (∀ v, ∃ g'', grid_write g' r c v = Ok g'') as Hw.
      { intros v. unfold grid_write. rewrite Hrw. eauto. }
      destruct (r * N + c + 1 <? N * N) eqn:Hv.
      * apply Z.ltb_lt in Hv. destruct (Hw (r * N + c + 1)) as [g'' Hg''].
        rewrite Hg''. simpl. eexists. split; [done|].
        exists g'', er', ec'. split; [done|].
        split; [|split; [|by eapply grid_write_row]].
        -- intros r' c'. rewrite (grid_write_cell _ _ _ _ _ Hg''), Hc'.
           rewrite <- (expectedValue_inner N r c) by (done || unfold in_square; lia).
           destruct (decide (r' = r)) as [->|Hne].
           ++ destruct (decide (c' = c)) as [->|Hnec].
              ** rewrite decide_True by done.
                 rewrite decide_True by (apply elem_of_app; right; by left).
                 done.
              ** rewrite decide_False by naive_solver.
                 repeat case_decide; try done.
                 --- exfalso. set_solver.
                 --- exfalso. set_solver.
           ++ rewrite decide_False by naive_solver. done.
        -- intros [[-> H']|H']; [|by apply He'; right].
           apply elem_of_app in H' as [H'|H']; [apply He'; by left|].
           apply list_elem_of_singleton in H'. subst c. lia.
      * apply Z.ltb_ge in Hv. destruct (Hw 0) as [g'' Hg''].
        rewrite Hg''. simpl. eexists. split; [done|].
        destruct (expectedValue_last N r c) as [-> ->];
          [unfold in_square; lia|lia|].
        exists g'', (N - 1), (N - 1). split; [done|].
        split; [|split; [done|by eapply grid_write_row]].
        intros r' c'. rewrite (grid_write_cell _ _ _ _ _ Hg''), Hc'.
        rewrite <- (expectedValue_corner N).
        destruct (decide (r' = N - 1)) as [->|Hne].
        -- destruct (decide (c' = N - 1)) as [->|Hnec].
           ++ rewrite decide_True by done.
              rewrite decide_True by (apply elem_of_app; right; by left).
              done.
           ++ rewrite decide_False by naive_solver.
              repeat case_decide; try done.
              ** exfalso. set_solver.
              ** exfalso. set_solver.
        -- rewrite decide_False by naive_solver. done.
    + exists (set_empty er' ec' (set_grid g' w0)). split; [exact Hs|].
      exists g', er', ec'. split; [done|]. split.
      * intros r' c'. rewrite Hc', Hc.
        destruct (decide (r' = r)) as [->|Hne].
        -- repeat case_decide; try done; exfalso;
             rewrite ?elem_of_app, ?elem_of_seqZ, ?list_elem_of_singleton in *;
             naive_solver lia.
        -- repeat case_decide; try done; exfalso;
             rewrite ?elem_of_app, ?elem_of_seqZ, ?list_elem_of_singleton in *;
             naive_solver lia.
      * intros H'. apply He'. apply elem_of_app in H' as [H'|H']; [by right|].
        apply list_elem_of_singleton in H'. left. split; [done|].
        apply elem_of_seqZ. lia.
  - exists g, er, ec. split; [exact Hs|]. split.
    + intros r c. rewrite Hc. change (size w0) with N.
      unfold in_square.
      repeat case_decide; try done; exfalso;
        rewrite ?elem_of_seqZ in *; naive_solver lia.
    + intros HN. apply He. apply elem_of_seqZ. change (size w0) with N. lia.
Qed.

Lemma built_push (w : World) (pc : list (Z * Z)) (p : Z * Z) :
  set_blocks (blocks (built w pc) ++ [length (heap (built w pc))])
    (set_heap (heap (built w pc) ++ [solved_block (size w) p]) (built w pc))
  = built w (pc ++ [p]).
Proof.
  unfold built. simpl.
  rewrite (length_app pc [p]), !length_app, !length_fmap. simpl.
  rewrite Nat.add_1_r, seq_S, fmap_app, app_assoc. done.
Qed.

Lemma createBlocks_built (w : World) :
  solved_cells (size w) (grid w) →
  _createBlocks w = Ok (built w (cells_list (size w))).
Proof.
  intros Hg. set (N := size w). unfold _createBlocks.
  set (I := λ (seen : list Z) (s : World),
    s = built w (seen ≫= λ r, (λ c, (r, c)) <$> seqZ 0 N)).
  destruct (for_each_inv I (seqZ 0 (size w)) (λ r w,
    for_each (seqZ 0 (size w)) (λ c w,
      v ← grid_read (grid w) r c;
      let b := new_Block (default 0 v) r c in
      Ok (set_blocks (blocks w ++ [length (heap w)])
            (set_heap (heap w ++ [b]) w))) w)
    (set_blocks [] w)) as (s&Hs&Hi).
  - unfold I, built. simpl. rewrite app_nil_r. by destruct w.
  - intros seen r s -> Hr. apply elem_of_seqZ in Hr. fold N in Hr.
    set (J := λ (seenc : list Z) (s : World),
      s = built w ((seen ≫= λ r, (λ c, (r, c)) <$> seqZ 0 N) ++
                 ((λ c, (r, c)) <$> seenc))).
    destruct (for_each_inv J (seqZ 0 N) (λ c w,
      v ← grid_read (grid w) r c;
      let b := new_Block (default 0 v) r c in
      Ok (set_blocks (blocks w ++ [length (heap w)])
            (set_heap (heap w ++ [b]) w)))
      (built w (seen ≫= λ r, (λ c, (r, c)) <$> seqZ 0 N))) as (s&Hs&Hj).
    + unfold J. simpl. by rewrite app_nil_r.
    + intros seenc c s -> Hc. apply elem_of_seqZ in Hc.
      simpl. rewrite grid_read_cell; rewrite (Hg r c);
        rewrite decide_True by (unfold in_square; lia); [|eauto].
      simpl. eexists. split; [done|]. unfold J.
      etrans;
        [apply (built_push w ((seen ≫= λ r, (λ c, (r, c)) <$> seqZ 0 N) ++
                            ((λ c, (r, c)) <$> seenc)) (r, c))|].
      f_equal. by rewrite fmap_app, <- app_assoc.
    + exists s. split; [exact Hs|]. unfold I. rewrite Hj.
      rewrite bind_app. simpl. by rewrite app_nil_r.
  - unfold I in Hi. rewrite Hi in Hs. exact Hs.
Qed.

(** [_initGrid] never raises; this is the world it returns. *)
Lemma initGrid_built (w : World) :
  ∃ g er ec,
    _initGrid w =
      Ok (set_blocks (seq (length (heap w)) (length (cells_list (size w))))
            (set_heap (heap w ++ (solved_block (size w) <$> cells_list (size w)))
               (set_empty er ec
                  (set_grid g
                     (set_moveCount 0
                        (set_moveHistory [] (set_blocks [] (set_grid ∅ w)))))))) ∧
    solved_cells (size w) g ∧
    (0 < size w → er = size w - 1 ∧ ec = size w - 1) ∧
    (size w ≤ 0 → g = ∅ ∧ er = emptyRow w ∧ ec = emptyCol w).
Proof.
  destruct (initGrid_cells w) as (g&er&ec&Hloop&Hc&He). unfold cleared in Hloop.
  exists g, er, ec. split; [|split; [done|split; [done|]]].
  - unfold _initGrid. simpl in *. rewrite Hloop. simpl.
    by rewrite (createBlocks_built
                  (set_empty er ec
                     (set_grid g
                        (set_moveCount 0
                           (set_moveHistory [] (set_blocks [] (set_grid ∅ w))))))
                  Hc).
  - intros Hn. simpl in Hloop. rewrite seqZ_nil in Hloop by done.
    simpl in Hloop. by injection Hloop as <- <- <-.
Qed.

(** ** Heap updates that keep the values *)

Lemma lookup_alter_block (h : list Block) (f : Block → Block) (a a' : addr)
    (b' : Block) :
  alter f a h !! a' = Some b' →
  ∃ b, h !! a' = Some b ∧ b' = if decide (a' = a) then f b else b.
Proof.
  destruct (decide (a' = a)) as [->|Hne].
  - rewrite list_lookup_alter_eq. destruct (h !! a) as [b|]; simpl; [|done].
    intros [= <-]. by exists b.
  - rewrite list_lookup_alter_ne by done. intros H. by exists b'.
Qed.

Lemma lookup_alter_block_value (h : list Block) (f : Block → Block)
    (a a' : addr) (b' : Block) :
  (∀ b, value (f b) = value b) →
  alter f a h !! a' = Some b' →
  ∃ b, h !! a' = Some b ∧ value b' = value b.
Proof.
  intros Hf H. destruct (lookup_alter_block _ _ _ _ _ H) as (b&Hb&->).
  exists b. split; [done|]. by case_decide.
Qed.

Lemma tiles_alter (N : Z) (bs : list addr) (h : list Block)
    (f : Block → Block) (a : addr) :
  (∀ b, value (f b) = value b) → tiles N bs h → tiles N bs (alter f a h).
Proof.
  intros Hf [Hnd Hh Hi Hs Hl]. split.
  - done.
  - intros a' Ha'. destruct (Hh a' Ha') as [b Hb].
    destruct (decide (a' = a)) as [->|Hne].
    + rewrite list_lookup_alter_eq, Hb. eauto.
    + rewrite list_lookup_alter_ne by done. eauto.
  - intros a1 a2 b1 b2 H1 H2 Hb1 Hb2 Hv.
    destruct (lookup_alter_block_value _ _ _ _ _ Hf Hb1) as (b1'&?&E1).
    destruct (lookup_alter_block_value _ _ _ _ _ Hf Hb2) as (b2'&?&E2).
    eapply Hi; eauto. congruence.
  - intros v Hv. destruct (Hs v Hv) as (a'&b&Ha'&Hb&<-).
    destruct (decide (a' = a)) as [->|Hne].
    + exists a, (f b). rewrite list_lookup_alter_eq, Hb. simpl. eauto.
    + exists a', b. rewrite list_lookup_alter_ne by done. eauto.
  - destruct Hl as (bs'&a0&b0&->&Hb0&Hv0).
    destruct (decide (a0 = a)) as [->|Hne].
    + exists bs', a, (f b0). rewrite list_lookup_alter_eq, Hb0, Hf. simpl. eauto.
    + exists bs', a0, b0. rewrite list_lookup_alter_ne by done. eauto.
Qed.

(** ** An accepted move *)

Lemma stop_tween_nil (a : addr) (animate : bool) : stop_tween a animate [] = [].
Proof. by destruct animate. Qed.

Lemma moveBlock_from_accept (w : World) (chained : bool) (a : addr)
    (animate : bool) (b : Block) (g1 g2 : Grid) :
  heap w !! a = Some b → value b ≠ 0 → canMove w (row b) (col b) = true →
  isAnimating w = false →
  grid_write (grid w) (emptyRow w) (emptyCol w) (value b) = Ok g1 →
  grid_write g1 (row b) (col b) 0 = Ok g2 →
  moveBlock_from chained (Some a) animate w
  = Ok (Pending, accepted w chained a animate b g2).
Proof.
  intros Hb Hv Hc Ha H1 H2. unfold moveBlock_from. rewrite Hb.
  apply Z.eqb_neq in Hv. rewrite Hv, Hc, Ha. simpl. rewrite H1. simpl.
  rewrite H2. reflexivity.
Qed.

Section Preservation.
Variable N : Z.

(** In a world without flights every numbered block sits on its value. *)
Lemma Inv_in_sync (w : World) (a : addr) (b : Block) :
  Inv N w → flights w = [] → block_of w a b → value b ≠ 0 →
  cell (grid w) (row b) (col b) = Some (value b).
Proof.
  intros HI Hf Hb Hv.
  destruct (inv_block_pos _ _ HI a b Hb Hv) as [H|(f&Hin&_)]; [done|].
  rewrite Hf in Hin. inversion Hin.
Qed.

Lemma accepted_Inv (w : World) (chained : bool) (a : addr) (animate : bool)
    (b : Block) (g : Grid) :
  Inv N w → block_of w a b → value b ≠ 0 →
  canMove w (row b) (col b) = true → isAnimating w = false →
  slid (grid w) (emptyRow w) (emptyCol w) (row b) (col b) (value b) g →
  Inv N (accepted w chained a animate b g).
Proof.
  intros HI Hb Hv Hc Ha Hs.
  pose proof (inv_anim _ _ HI Ha) as Hfl.
  pose proof (Inv_in_sync _ _ _ HI Hfl Hb Hv) as Hp.
  apply canMove_manhattan in Hc.
  assert (¬ (row b = emptyRow w ∧ col b = emptyCol w)) as Hne
    by (unfold manhattan in Hc; lia).
  pose proof (inv_puzzle _ _ HI) as Hpz.
  assert (∀ x, value (set_block_target (emptyRow w) (emptyCol w) x) = value x)
    as Hval by done.
  split; simpl.
  - apply HI.
  - eapply puzzle_slid; eauto.
  - apply tiles_alter; [done|apply HI].
  - intros a' b' [Ha' Hb'] Hv'.
    destruct (lookup_alter_block _ _ _ _ _ Hb') as (b0&Hb0&->).
    assert (row (if decide (a' = a)
                 then set_block_target (emptyRow w) (emptyCol w) b0 else b0)
            = row b0 ∧
            col (if decide (a' = a)
                 then set_block_target (emptyRow w) (emptyCol w) b0 else b0)
            = col b0) as [-> ->] by (by case_decide).
    apply (inv_blank_block _ _ HI a' b0); [done|]. by case_decide.
  - intros a' b' [Ha' Hb'] Hv'.
    destruct (lookup_alter_block _ _ _ _ _ Hb') as (b0&Hb0&->).
    destruct (decide (a' = a)) as [->|Hna].
    + right. eexists. split; [apply elem_of_app; right; by left|done].
    + left. pose proof (Inv_in_sync _ _ _ HI Hfl (conj Ha' Hb0) Hv') as Hq.
      rewrite Hs.
      rewrite decide_False.
      2:{ intros [E1 E2]. rewrite E1, E2 in Hq. apply Hna.
          destruct Hb as [Hab Hbb].
          eapply (t_inj _ _ _ (inv_tiles _ _ HI)); eauto. congruence. }
      rewrite decide_False; [done|].
      intros [E1 E2]. rewrite E1, E2 in Hq.
      rewrite (pz_blank _ _ _ _ Hpz) in Hq. congruence.
  - intros f Hf. rewrite Hfl, stop_tween_nil in Hf. simpl in Hf.
    apply list_elem_of_singleton in Hf. subst f. simpl.
    destruct Hb as [Hab Hbb].
    exists (set_block_target (emptyRow w) (emptyCol w) b). split; [|split].
    + split; [done|]. simpl. by rewrite list_lookup_alter_eq, Hbb.
    + done.
    + rewrite Hs. rewrite decide_False by naive_solver.
      by rewrite decide_True.
  - by rewrite Hfl, stop_tween_nil.
  - done.
  - apply HI.
  - eapply slides_to_win_slid; eauto. apply HI.
Qed.

Lemma Inv_set_callbacks (w : World) (n : nat) :
  Inv N w → Inv N (set_callbacks n w).
Proof. intros []; by split. Qed.

Lemma Inv_set_shuffles (w : World) (ss : list Scramble) :
  Inv N w → Inv N (set_shuffles ss w).
Proof. intros []; by split. Qed.

Lemma Inv_set_isProcessingQueue (w : World) (b : bool) :
  Inv N w → Inv N (set_isProcessingQueue b w).
Proof. intros []; by split. Qed.

Lemma Inv_set_moveCount (w : World) (n : Z) :
  Inv N w → Inv N (set_moveCount n w).
Proof. intros []; by split. Qed.

Lemma Inv_set_moveHistory (w : World) (h : list MoveRecord) :
  Inv N w → Inv N (set_moveHistory h w).
Proof. intros []; by split. Qed.

Lemma Inv_set_moveQueue (w : World) (q : list (addr * bool)) :
  (∀ a animate, (a, animate) ∈ q → a ∈ blocks w) →
  Inv N w → Inv N (set_moveQueue q w).
Proof. intros Hq []; by split. Qed.

Lemma Inv_set_isAnimating (w : World) (b : bool) :
  flights w = [] → Inv N w → Inv N (set_isAnimating b w).
Proof. intros Hf []; by split. Qed.

(** [moveBlock] on a tile of the board never raises and keeps the
    invariant, whichever of its three exits it takes. *)
Lemma moveBlock_from_Inv (w : World) (chained : bool) (o : option addr)
    (animate : bool) :
  Inv N w → own_tile w o →
  ∃ p w', moveBlock_from chained o animate w = Ok (p, w') ∧ Inv N w' ∧
    callbacks w' = callbacks w ∧
    isProcessingQueue w' = isProcessingQueue w ∧
    match p with
    | Resolved r => r = false ∧ flights w' = flights w
    | Pending =>
      flights w = [] ∧ moveQueue w' = moveQueue w ∧
      ∃ f, flights w' = [f] ∧ f_chained f = chained
    end.
Proof.
  intros HI Ho. unfold moveBlock_from.
  destruct o as [a|]; [|by exists (Resolved false), w].
  destruct (heap w !! a) as [b|] eqn:Hb; [|by exists (Resolved false), w].
  destruct (value b =? 0) eqn:Hv; [by exists (Resolved false), w|].
  apply Z.eqb_neq in Hv.
  destruct (canMove w (row b) (col b)) eqn:Hc; simpl;
    [|by exists (Resolved false), w].
  destruct (isAnimating w) eqn:Ha.
  { eexists _, _. split; [done|]. split; [|done].
    apply Inv_set_moveQueue; [|done]. intros a' an' Hin.
    apply elem_of_app in Hin as [Hin|Hin]; [by eapply inv_queue|].
    apply list_elem_of_singleton in Hin. by injection Hin as -> _. }
  pose proof (inv_anim _ _ HI Ha) as Hfl.
  pose proof (Inv_in_sync _ _ _ HI Hfl (conj Ho Hb) Hv) as Hp.
  destruct (grid_write_slid (grid w) (emptyRow w) (emptyCol w) (row b) (col b)
              (value b)) as (g1&g2&H1&H2&Hs).
  { rewrite (pz_blank _ _ _ _ (inv_puzzle _ _ HI)). eauto. }
  { rewrite Hp. eauto. }
  pose proof (moveBlock_from_accept w chained a animate b g1 g2
                Hb Hv Hc Ha H1 H2) as Heq.
  unfold moveBlock_from in Heq. rewrite Hb in Heq.
  apply Z.eqb_neq in Hv. rewrite Hv, Hc, Ha in Heq. simpl in Heq.
  rewrite Heq. apply Z.eqb_neq in Hv.
  eexists _, _. split; [done|]. split.
  { by apply accepted_Inv. }
  simpl. rewrite Hfl, stop_tween_nil. split; [done|]. split; [done|]. split; [done|].
  split; [done|]. by eexists.
Qed.

Lemma processQueue_Inv (w : World) :
  Inv N w → processing_ok w →
  ∃ w', _processQueue w = Ok w' ∧ Inv N w' ∧ processing_ok w'.
Proof.
  intros HI Hp. unfold _processQueue.
  destruct (isProcessingQueue w) eqn:Hq; [by exists w|].
  destruct (moveQueue w) as [|[a animate] q] eqn:Hmq; [by exists w|].
  destruct (moveBlock_from_Inv
              (set_moveQueue q (set_isProcessingQueue true w))
              true (Some a) animate) as (p&w'&Hm&HI'&Hcb&Hpq&Hfl).
  { apply Inv_set_moveQueue; [|by apply Inv_set_isProcessingQueue].
    simpl. intros a' an' Hin. eapply (inv_queue _ _ HI a' an').
    rewrite Hmq. by right. }
  { simpl. eapply (inv_queue _ _ HI a animate). rewrite Hmq. by left. }
  rewrite Hm. simpl. destruct p as [r|].
  - eexists. split; [done|]. split; [by apply Inv_set_callbacks|].
    intros _. left. simpl. lia.
  - exists w'. split; [done|]. split; [done|].
    destruct Hfl as (_&_&f&Hf&Hch). intros _. right. exists f.
    rewrite Hf. split; [by left|done].
Qed.

Lemma settle_finished (i : nat) (f : Flight) (w : World) :
  flights w !! i = Some f →
  settle i w =
    w' ← _processQueue (finished i f w);
    Ok (if f_chained f then set_callbacks (S (callbacks w')) w' else w').
Proof. intros Hf. unfold settle. rewrite Hf. reflexivity. Qed.

Lemma finished_heap (i : nat) (f : Flight) (w : World) (a : addr) (b' : Block) :
  heap (finished i f w) !! a = Some b' →
  ∃ b, heap w !! a = Some b ∧ value b' = value b ∧
       (a ≠ f_block f → b' = b) ∧
       (a = f_block f → row b' = f_oldEmptyRow f ∧ col b' = f_oldEmptyCol f).
Proof.
  unfold finished. simpl. intros H.
  destruct (lookup_alter_block _ _ _ _ _ H) as (b1&H1&->). clear H.
  assert (∃ b, heap w !! a = Some b ∧ value b1 = value b ∧
               (a ≠ f_block f → b1 = b)) as (b&Hb&Hv&Hne).
  { destruct (f_animate f); simpl in H1; [|by exists b1].
    destruct (lookup_alter_block _ _ _ _ _ H1) as (b&Hb&->).
    exists b. split; [done|]. by case_decide. }
  exists b. split; [done|]. case_decide; [|by auto].
  split; [done|]. split; [done|]. done.
Qed.

Lemma finished_tiles (i : nat) (f : Flight) (w : World) :
  tiles N (blocks w) (heap w) →
  tiles N (blocks (finished i f w)) (heap (finished i f w)).
Proof.
  intros Ht. unfold finished. simpl. apply tiles_alter; [done|].
  destruct (f_animate f); simpl; [|done]. by apply tiles_alter.
Qed.

Lemma finished_Inv (f : Flight) (w : World) :
  Inv N w → flights w = [f] → Inv N (finished 0 f w).
Proof.
  intros HI Hfl.
  destruct (inv_flight _ _ HI f) as (bf&[Haf Hbf]&Hvf&Hcf);
    [rewrite Hfl; by left|].
  assert (flights (finished 0 f w) = []) as Hfl'.
  { unfold finished. simpl. destruct (f_animate f); simpl; by rewrite Hfl. }
  assert (grid (finished 0 f w) = grid w ∧ blocks (finished 0 f w) = blocks w
          ∧ emptyRow (finished 0 f w) = emptyRow w
          ∧ emptyCol (finished 0 f w) = emptyCol w
          ∧ size (finished 0 f w) = size w
          ∧ moveQueue (finished 0 f w) = moveQueue w) as (Eg&Eb&Er&Ec&Es&Eq).
  { unfold finished. simpl. by destruct (f_animate f). }
  split.
  - rewrite Es. apply HI.
  - rewrite Eg, Er, Ec. apply HI.
  - apply finished_tiles, HI.
  - intros a b' [Ha Hb'] Hv. rewrite Eb in Ha.
    destruct (finished_heap _ _ _ _ _ Hb') as (b&Hb&Ev&Hne&_).
    destruct (decide (a = f_block f)) as [->|Hn].
    + exfalso. rewrite Hbf in Hb. injection Hb as <-. congruence.
    + rewrite (Hne Hn). apply (inv_blank_block _ _ HI a b); [done|].
      by rewrite <- (Hne Hn).
  - intros a b' [Ha Hb'] Hv. rewrite Eb in Ha. left. rewrite Eg.
    destruct (finished_heap _ _ _ _ _ Hb') as (b&Hb&Ev&Hne&Heq).
    destruct (decide (a = f_block f)) as [->|Hn].
    + destruct (Heq eq_refl) as [-> ->]. rewrite Ev.
      rewrite Hbf in Hb. by injection Hb as <-.
    + rewrite (Hne Hn) in *.
      destruct (inv_block_pos _ _ HI a b (conj Ha Hb) Hv) as [H|(f'&Hin&E)];
        [done|].
      rewrite Hfl in Hin. apply list_elem_of_singleton in Hin. by subst.
  - intros f' Hin. rewrite Hfl' in Hin. inversion Hin.
  - rewrite Hfl'. simpl. lia.
  - done.
  - rewrite Eq, Eb. apply HI.
  - rewrite Eg, Er, Ec. apply HI.
Qed.

Lemma finished_processing_ok (f : Flight) (w : World) :
  processing_ok w → flights w = [f] → f_chained f = false →
  processing_ok (finished 0 f w).
Proof.
  intros Hp Hfl Hch. unfold processing_ok, finished. simpl.
  assert (∀ w1 w2 : World, callbacks w1 = callbacks w2 →
            callbacks (if f_animate f then w1 else w2) = callbacks w2) as E
    by (intros; by destruct (f_animate f)).
  assert (∀ w1 w2 : World, isProcessingQueue w1 = isProcessingQueue w2 →
            isProcessingQueue (if f_animate f then w1 else w2)
            = isProcessingQueue w2) as E'
    by (intros; by destruct (f_animate f)).
  rewrite E, E' by done. simpl. intros Hq.
  destruct (Hp Hq) as [H|(f'&Hin&Hc')]; [by left|].
  rewrite Hfl in Hin. apply list_elem_of_singleton in Hin. subst. congruence.
Qed.

Lemma settle_Inv (w : World) (i : nat) :
  Inv N w → processing_ok w →
  ∃ w', settle i w = Ok w' ∧ Inv N w' ∧ processing_ok w'.
Proof.
  intros HI Hp.
  destruct (flights w !! i) as [f|] eqn:Hf.
  2:{ exists w. unfold settle. by rewrite Hf. }
  assert (flights w = [f] ∧ i = O) as [Hfl ->].
  { pose proof (inv_single _ _ HI) as Hlen.
    destruct (flights w) as [|f0 [|??]]; simpl in *; [done| |lia].
    destruct i; simpl in Hf; [|done]. by injection Hf as ->. }
  rewrite (settle_finished _ _ _ Hf).
  pose proof (finished_Inv f w HI Hfl) as HI1.
  destruct (f_chained f) eqn:Hch.
  - (* a dequeued move: its callback becomes due *)
    unfold _processQueue.
    destruct (isProcessingQueue (finished 0 f w)) eqn:Hq.
    + simpl. eexists. split; [done|].
      split; [by apply Inv_set_callbacks|]. intros _. left. simpl. lia.
    + destruct (processQueue_Inv (finished 0 f w) HI1) as (w'&Hw'&HI'&Hp').
      { intros ?. congruence. }
      unfold _processQueue in Hw'. rewrite Hq in Hw'. rewrite Hw'. simpl.
      eexists. split; [done|].
      split; [by apply Inv_set_callbacks|]. intros _. left. simpl. lia.
  - destruct (processQueue_Inv (finished 0 f w) HI1) as (w'&Hw'&HI'&Hp').
    { by apply finished_processing_ok. }
    rewrite Hw'. simpl. by exists w'.
Qed.

Lemma then_callback_Inv (w : World) :
  Inv N w → processing_ok w →
  ∃ w', then_callback w = Ok w' ∧ Inv N w' ∧ processing_ok w'.
Proof.
  intros HI Hp. unfold then_callback.
  destruct (callbacks w) as [|n]; [by exists w|].
  apply processQueue_Inv.
  - by apply Inv_set_isProcessingQueue, Inv_set_callbacks.
  - intros H. simpl in H. done.
Qed.
End Preservation.

(** ** The solved board satisfies the invariant *)

Lemma cell_index_bound (N r c : Z) :
  in_square N r c → 0 ≤ r * N + c ≤ N * N - 1.
Proof. unfold in_square. intros [? ?]. nia. Qed.

Lemma expectedValue_range (N r c : Z) :
  in_square N r c → 0 ≤ expectedValue N r c < N * N.
Proof.
  intros Hin. pose proof (cell_index_bound _ _ _ Hin) as Hb.
  destruct (decide (r * N + c + 1 < N * N)) as [Hlt|Hge].
  - rewrite expectedValue_inner by done. lia.
  - destruct (expectedValue_last _ _ _ Hin Hge) as [-> ->].
    rewrite expectedValue_corner. lia.
Qed.

Lemma expectedValue_zero (N r c : Z) :
  in_square N r c → expectedValue N r c = 0 → r = N - 1 ∧ c = N - 1.
Proof.
  unfold in_square, expectedValue. intros [? ?].
  destruct (r =? N - 1) eqn:Hr; destruct (c =? N - 1) eqn:Hc; simpl;
    try apply Z.eqb_eq in Hr; try apply Z.eqb_eq in Hc; try nia; done.
Qed.

Lemma expectedValue_inj (N r c r' c' : Z) :
  in_square N r c → in_square N r' c' →
  expectedValue N r c = expectedValue N r' c' → r = r' ∧ c = c'.
Proof.
  intros H H' E.
  destruct (decide (expectedValue N r c = 0)) as [E0|E0].
  { destruct (expectedValue_zero _ _ _ H E0).
    rewrite E0 in E. symmetry in E.
    destruct (expectedValue_zero _ _ _ H' E). lia. }
  assert (expectedValue N r' c' ≠ 0) as E0' by congruence.
  unfold in_square, expectedValue in *.
  destruct ((r =? N - 1) && (c =? N - 1)); [done|].
  destruct ((r' =? N - 1) && (c' =? N - 1)); [done|].
  destruct H, H'.
  assert (r = r') as ->.
  { destruct (Z.lt_trichotomy r r') as [Hlt|[Heq|Hgt]]; [|done|].
    - assert ((r + 1) * N ≤ r' * N) by nia. lia.
    - assert ((r' + 1) * N ≤ r * N) by nia. lia. }
  lia.
Qed.

Lemma expectedValue_surj (N v : Z) :
  1 ≤ N → 0 ≤ v < N * N → ∃ r c, in_square N r c ∧ expectedValue N r c = v.
Proof.
  intros HN Hv. destruct (decide (v = 0)) as [->|Hv0].
  { exists (N - 1), (N - 1). split; [unfold in_square; lia|].
    apply expectedValue_corner. }
  exists ((v - 1) `div` N), ((v - 1) `mod` N).
  pose proof (Z.div_mod (v - 1) N ltac:(lia)) as Hdm.
  pose proof (Z.mod_pos_bound (v - 1) N ltac:(lia)) as Hm.
  assert (0 ≤ (v - 1) `div` N < N) as Hd.
  { split; [apply Z.div_pos; lia|]. apply Z.div_lt_upper_bound; lia. }
  revert Hdm Hm Hd.
  generalize ((v - 1) `div` N) ((v - 1) `mod` N). intros q m Hdm Hm Hd.
  split; [done|]. rewrite expectedValue_inner; [lia|done|lia].
Qed.

Lemma solved_puzzle (N : Z) (g : Grid) :
  1 ≤ N → solved_cells N g → puzzle N g (N - 1) (N - 1).
Proof.
  intros HN Hg. split.
  - intros r c. rewrite Hg. case_decide; [done|]. by intros [? ?].
  - intros r c Hin. rewrite Hg, decide_True by done.
    eexists. split; [done|]. by apply expectedValue_range.
  - intros r c r' c' v. rewrite !Hg. repeat case_decide; try done.
    intros [= <-] [= E]. by apply (expectedValue_inj N).
  - intros v Hv. destruct (expectedValue_surj N v HN Hv) as (r&c&Hin&<-).
    exists r, c. by rewrite Hg, decide_True.
  - rewrite Hg, decide_True by (unfold in_square; lia).
    by rewrite expectedValue_corner.
Qed.

Lemma solved_wins (N : Z) (g : Grid) : solved_cells N g → wins N g.
Proof. intros Hg r c Hin. by rewrite Hg, decide_True. Qed.

Lemma elem_of_cells_list (N r c : Z) : (r, c) ∈ cells_list N ↔ in_square N r c.
Proof.
  unfold cells_list, in_square. rewrite list_elem_of_bind. split.
  - intros (r'&Hc&Hr). apply list_elem_of_fmap in Hc as (c'&[= -> ->]&Hc).
    apply elem_of_seqZ in Hc, Hr. lia.
  - intros [Hr Hc]. exists r. split; [|apply elem_of_seqZ; lia].
    apply list_elem_of_fmap. exists c. split; [done|apply elem_of_seqZ; lia].
Qed.

Lemma NoDup_cells_list (N : Z) : NoDup (cells_list N).
Proof.
  unfold cells_list. apply NoDup_bind; [| |apply NoDup_seqZ].
  - intros r1 r2 [r c] _ _ H1 H2.
    apply list_elem_of_fmap in H1 as (?&[= -> ->]&_).
    by apply list_elem_of_fmap in H2 as (?&[= -> ->]&_).
  - intros r _. apply NoDup_fmap_2; [|apply NoDup_seqZ]. by intros ?? [= ->].
Qed.

Lemma cells_list_last (N : Z) :
  1 ≤ N → ∃ front, cells_list N = front ++ [(N - 1, N - 1)].
Proof.
  intros HN. unfold cells_list.
  assert (seqZ 0 N = seqZ 0 (N - 1) ++ [N - 1]) as E.
  { replace N with ((N - 1) + 1) at 1 by lia.
    rewrite seqZ_app by lia. by rewrite Z.add_0_l. }
  set (f := λ r : Z, (λ c, (r, c)) <$> seqZ 0 N).
  rewrite E, bind_app. simpl. rewrite app_nil_r.
  unfold f at 2. rewrite E, fmap_app. simpl. rewrite app_assoc. eauto.
Qed.

Section Built.
Variables (N : Z) (h0 : list Block).

Lemma built_lookup (i : nat) (p : Z * Z) :
  cells_list N !! i = Some p →
  (length h0 + i)%nat ∈ built_blocks N h0 ∧ built_heap N h0 !! (length h0 + i)%nat = Some (solved_block N p).
Proof.
  intros Hp. split.
  - apply elem_of_seq. apply lookup_lt_Some in Hp. lia.
  - unfold built_heap. rewrite lookup_app_r by lia.
    replace (length h0 + i - length h0)%nat with i by lia.
    by rewrite list_lookup_fmap, Hp.
Qed.

Lemma built_block (a : addr) (b : Block) :
  a ∈ built_blocks N h0 → built_heap N h0 !! a = Some b →
  ∃ i r c, a = (length h0 + i)%nat ∧ cells_list N !! i = Some (r, c) ∧
           in_square N r c ∧ b = solved_block N (r, c).
Proof.
  intros Ha Hb. unfold built_blocks in Ha. apply elem_of_seq in Ha.
  unfold built_heap in Hb. rewrite lookup_app_r in Hb by lia.
  rewrite list_lookup_fmap in Hb.
  destruct (cells_list N !! (a - length h0)%nat) as [[r c]|] eqn:Hp; [|done].
  injection Hb as <-. exists (a - length h0)%nat, r, c.
  split; [lia|]. split; [done|]. split; [|done].
  apply elem_of_cells_list. apply list_elem_of_lookup. eauto.
Qed.

Lemma built_tiles : 1 ≤ N → tiles N (built_blocks N h0) (built_heap N h0).
Proof.
  intros HN. split.
  - apply NoDup_seq.
  - intros a Ha. unfold built_blocks in Ha. apply elem_of_seq in Ha.
    apply lookup_lt_is_Some. unfold built_heap.
    rewrite length_app, length_fmap. lia.
  - intros a a' b b' Ha Ha' Hb Hb' Hv.
    destruct (built_block _ _ Ha Hb) as (i&r&c&->&Hi&Hin&->).
    destruct (built_block _ _ Ha' Hb') as (i'&r'&c'&->&Hi'&Hin'&->).
    simpl in Hv. destruct (expectedValue_inj _ _ _ _ _ Hin Hin' Hv) as [-> ->].
    f_equal. eapply NoDup_lookup; eauto using NoDup_cells_list.
  - intros v Hv. destruct (expectedValue_surj N v HN Hv) as (r&c&Hin&<-).
    apply elem_of_cells_list, list_elem_of_lookup in Hin as [i Hi].
    destruct (built_lookup _ _ Hi) as [Ha Hb]. eauto.
  - destruct (cells_list_last N HN) as [front E].
    assert (cells_list N !! length front = Some (N - 1, N - 1)) as Hi.
    { rewrite E. by rewrite list_lookup_middle. }
    destruct (built_lookup _ _ Hi) as [_ Hb].
    exists (seq (length h0) (length front)), (length h0 + length front)%nat.
    eexists. split; [|split; [exact Hb|apply expectedValue_corner]].
    unfold built_blocks. rewrite E, length_app. simpl. by rewrite Nat.add_1_r, seq_S.
Qed.
End Built.

Lemma initGrid_Inv (w : World) :
  1 ≤ size w → flights w = [] → moveQueue w = [] →
  ∃ w', _initGrid w = Ok w' ∧ Inv (size w) w' ∧
        wins (size w) (grid w') ∧
        callbacks w' = callbacks w ∧
        isProcessingQueue w' = isProcessingQueue w ∧
        isAnimating w' = isAnimating w ∧
        flights w' = [] ∧ moveQueue w' = [] ∧ moveCount w' = 0 ∧
        moveHistory w' = [].
Proof.
  intros HN Hfl Hq.
  destruct (initGrid_built w) as (g&er&ec&Heq&Hc&He&_).
  destruct He as [-> ->]; [lia|].
  eexists. split; [exact Heq|].
  split; [|simpl; eauto 10 using solved_wins].
  split; simpl.
  - done.
  - by apply solved_puzzle.
  - by apply built_tiles.
  - intros a b [Ha Hb] Hv. simpl in *.
    destruct (built_block _ _ _ _ Ha Hb) as (i&r&c&->&Hi&Hin&->).
    simpl in *. by apply expectedValue_zero.
  - intros a b [Ha Hb] Hv. simpl in *. left.
    destruct (built_block _ _ _ _ Ha Hb) as (i&r&c&->&Hi&Hin&->).
    simpl. by rewrite Hc, decide_True.
  - intros f Hf. rewrite Hfl in Hf. inversion Hf.
  - rewrite Hfl. simpl. lia.
  - done.
  - intros a an Hin. rewrite Hq in Hin. inversion Hin.
  - apply stw_win. by apply solved_wins.
Qed.

(** ** shuffle keeps the invariant *)

Lemma find_app_l {A : Type} (f : A → bool) (l l' : list A) (x : A) :
  x ∈ l → f x = true →
  ∃ y, find f (l ++ l') = Some y ∧ y ∈ l ∧ f y = true.
Proof.
  induction l as [|z l IH]; intros Hin Hx; [inversion Hin|].
  simpl. destruct (f z) eqn:Hz.
  - exists z. split; [done|]. split; [by left|done].
  - apply elem_of_cons in Hin as [->|Hin]; [congruence|].
    destruct (IH Hin Hx) as (y&Hy&Hyl&Hfy). exists y.
    split; [done|]. split; [by right|done].
Qed.

Section Shuffle.
Variable N : Z.

Lemma possibleMoves_spec (w : World) (last : option Direction)
    (mv : Candidate) :
  size w = N → in_square N (emptyRow w) (emptyCol w) →
  mv ∈ possibleMoves w last →
  in_square N (c_row mv) (c_col mv) ∧
  manhattan (c_row mv) (c_col mv) (emptyRow w) (emptyCol w) = 1.
Proof.
  intros Hs [Hr Hc]. unfold possibleMoves, in_square, manhattan.
  rewrite Hs, !elem_of_app.
  intros [H|[H|[H|H]]];
    match type of H with
    | _ ∈ (if ?b then _ else _) => destruct b eqn:Hb
    end;
    try (by inversion H);
    apply list_elem_of_singleton in H; subst mv; simpl;
    apply andb_true_iff in Hb as [Hb%Z.ltb_lt _]; lia.
Qed.

(** On a board with no move in flight, [getBlock] at a cell other than the
    blank finds the numbered block that sits there. *)
Lemma getBlock_Inv (w : World) (r c : Z) :
  Inv N w → flights w = [] → in_square N r c →
  ¬ (r = emptyRow w ∧ c = emptyCol w) →
  ∃ a b, getBlock w r c = Some a ∧ block_of w a b ∧
         row b = r ∧ col b = c ∧ value b ≠ 0.
Proof.
  intros HI Hfl Hin Hne.
  pose proof (inv_puzzle _ _ HI) as Hpz. pose proof (inv_tiles _ _ HI) as Ht.
  destruct (pz_def _ _ _ _ Hpz r c Hin) as (v&Hv&Hrange).
  assert (v ≠ 0) as Hv0.
  { intros ->. destruct (pz_inj _ _ _ _ Hpz _ _ _ _ _ Hv (pz_blank _ _ _ _ Hpz)).
    naive_solver. }
  destruct (t_surj _ _ _ Ht v Hrange) as (a1&b1&Ha1&Hb1&Hv1).
  pose proof (Inv_in_sync _ _ _ _ HI Hfl (conj Ha1 Hb1) ltac:(congruence)) as Hs1.
  rewrite Hv1 in Hs1.
  destruct (pz_inj _ _ _ _ Hpz _ _ _ _ _ Hs1 Hv) as [Hr1 Hc1].
  destruct (t_last _ _ _ Ht) as (bs'&a0&b0&Hbs&Hb0&Hv00).
  pose proof (t_nodup _ _ _ Ht) as Hnd. rewrite Hbs in Hnd.
  apply NoDup_app in Hnd as (_&Hdisj&_).
  assert (a1 ∈ bs') as Ha1'.
  { rewrite Hbs in Ha1. apply elem_of_app in Ha1 as [?|Ha1]; [done|].
    apply list_elem_of_singleton in Ha1. subst a1. congruence. }
  destruct (find_app_l (block_at w r c) bs' [a0] a1 Ha1') as (a&Hf&Ha&Hat).
  { unfold block_at. rewrite Hb1, Hr1, Hc1, !Z.eqb_refl. done. }
  unfold block_at in Hat. destruct (heap w !! a) as [b|] eqn:Hb; [|done].
  apply andb_true_iff in Hat as [Hrb%Z.eqb_eq Hcb%Z.eqb_eq].
  exists a, b. unfold getBlock. rewrite Hbs. split; [done|].
  assert (a ∈ blocks w) as Hab by (rewrite Hbs; apply elem_of_app; by left).
  split; [done|]. split; [done|]. split; [done|].
  intros Hvb. apply (Hdisj a Ha).
  assert (a = a0) as ->; [|by left].
  eapply (t_inj _ _ _ Ht); eauto; [|congruence].
  rewrite Hbs. apply elem_of_app. right. by left.
Qed.

(** A scramble turn on a board with no move in flight. *)
Lemma shuffle_step_Inv (w : World) (last : option Direction) (draw : nat) :
  Inv N w → flights w = [] →
  ∃ w' last', shuffle_step draw (w, last) = Ok (w', last') ∧ Inv N w' ∧
    flights w' = [] ∧ callbacks w' = callbacks w ∧
    isProcessingQueue w' = isProcessingQueue w ∧
    moveQueue w' = moveQueue w ∧ isAnimating w' = isAnimating w.
Proof.
  intros HI Hfl. unfold shuffle_step.
  destruct (possibleMoves w last !! _) as [mv|] eqn:Hmv; [|by exists w, last].
  pose proof (inv_puzzle _ _ HI) as Hpz.
  destruct (possibleMoves_spec w last mv (inv_size _ _ HI)) as [Hin Hm].
  { apply (pz_dom _ _ _ _ Hpz). rewrite (pz_blank _ _ _ _ Hpz). eauto. }
  { apply list_elem_of_lookup. eauto. }
  assert (¬ (c_row mv = emptyRow w ∧ c_col mv = emptyCol w)) as Hne
    by (unfold manhattan in Hm; lia).
  destruct (getBlock_Inv w _ _ HI Hfl Hin Hne)
    as (a&b&Hg&[Hab Hb]&Hr&Hc&Hv).
  rewrite Hg. simpl. rewrite Hb. simpl.
  pose proof (Inv_in_sync _ _ _ _ HI Hfl (conj Hab Hb) Hv) as Hp.
  destruct (grid_write_slid (grid w) (emptyRow w) (emptyCol w) (row b) (col b)
              (value b)) as (g1&g2&H1&H2&Hs).
  { rewrite (pz_blank _ _ _ _ Hpz). eauto. }
  { rewrite Hp. eauto. }
  rewrite H1. simpl. rewrite H2. simpl.
  eexists _, _. split; [done|]. split; [|done].
  rewrite <- Hr, <- Hc in Hm, Hne.
  split; simpl.
  - apply HI.
  - eapply puzzle_slid; eauto.
  - apply tiles_alter; [done|apply HI].
  - intros a' b' [Ha' Hb'] Hv'.
    destruct (lookup_alter_block _ _ _ _ _ Hb') as (b0&Hb0&->).
    destruct (decide (a' = a)) as [->|Hna].
    + simpl in *. congruence.
    + by apply (inv_blank_block _ _ HI a' b0).
  - intros a' b' [Ha' Hb'] Hv'. left.
    destruct (lookup_alter_block _ _ _ _ _ Hb') as (b0&Hb0&->).
    destruct (decide (a' = a)) as [->|Hna].
    + simpl in *. rewrite Hs. rewrite decide_False by naive_solver.
      rewrite decide_True by done. congruence.
    + pose proof (Inv_in_sync _ _ _ _ HI Hfl (conj Ha' Hb0) Hv') as Hq.
      rewrite Hs. rewrite decide_False.
      2:{ intros [E1 E2]. rewrite E1, E2 in Hq. apply Hna.
          eapply (t_inj _ _ _ (inv_tiles _ _ HI)); eauto. congruence. }
      rewrite decide_False; [done|].
      intros [E1 E2]. rewrite E1, E2 in Hq.
      rewrite (pz_blank _ _ _ _ Hpz) in Hq. congruence.
  - intros f Hf. rewrite Hfl in Hf. inversion Hf.
  - rewrite Hfl. simpl. lia.
  - done.
  - apply HI.
  - eapply slides_to_win_slid; eauto. apply HI.
Qed.

Lemma shuffle_loop_Inv (n i : nat) (rand : nat → nat) (w : World)
    (last : option Direction) :
  Inv N w → flights w = [] →
  ∃ w' last', shuffle_loop n i rand (w, last) = Ok (w', last') ∧ Inv N w' ∧
    flights w' = [] ∧ callbacks w' = callbacks w ∧
    isProcessingQueue w' = isProcessingQueue w ∧
    moveQueue w' = moveQueue w ∧ isAnimating w' = isAnimating w.
Proof.
  revert i w last. induction n as [|n IH]; intros i w last HI Hfl.
  - by exists w, last.
  - destruct (shuffle_step_Inv w last (rand i) HI Hfl)
      as (w1&l1&Hs&HI1&Hf1&E1&E2&E3&E4).
    cbn [shuffle_loop]. rewrite Hs. simpl.
    destruct (IH (S i) w1 l1 HI1 Hf1) as (w2&l2&Hl&HI2&Hf2&F1&F2&F3&F4).
    exists w2, l2. rewrite Hl. split; [done|]. split; [done|].
    split; [done|]. repeat split; congruence.
Qed.

Lemma shuffle_Inv (moveCount : option Z) (rand : nat → nat) (w : World) :
  Inv N w → flights w = [] →
  ∃ w', shuffle moveCount rand w = Ok w' ∧ Inv N w' ∧
    flights w' = [] ∧ callbacks w' = callbacks w ∧
    isProcessingQueue w' = isProcessingQueue w ∧
    moveQueue w' = moveQueue w ∧ isAnimating w' = false.
Proof.
  intros HI Hfl. unfold shuffle.
  destruct (shuffle_loop_Inv
              (Z.to_nat (shuffle_moves (size (set_isAnimating true w)) moveCount))
              0 rand (set_isAnimating true w) None)
    as (w1&l1&Hl&HI1&Hf1&E1&E2&E3&E4);
    [by apply Inv_set_isAnimating|done|].
  rewrite Hl. simpl. eexists. split; [done|]. split; [|done].
  apply Inv_set_isAnimating; [done|].
  by apply Inv_set_moveHistory, Inv_set_moveCount.
Qed.
End Shuffle.

(** ** Suspended shuffles *)

Lemma shuffling_ok_nil (w : World) : shuffles w = [] → shuffling_ok w.
Proof. intros E. unfold shuffling_ok. rewrite E. split; [simpl; lia|done]. Qed.

Lemma shuffling_ok_unlocked (w : World) :
  shuffling_ok w → isAnimating w = false → shuffles w = [].
Proof.
  intros [_ H] Ha. destruct (shuffles w) as [|s ss] eqn:E; [done|].
  destruct H as [_ H]; [done|congruence].
Qed.

Lemma shuffling_ok_in_flight (w : World) :
  shuffling_ok w → flights w ≠ [] → shuffles w = [].
Proof.
  intros [_ H] Hf. destruct (shuffles w) as [|s ss] eqn:E; [done|].
  destruct H as [H _]; [done|congruence].
Qed.

Lemma moveBlock_from_shuffles (chained : bool) (o : option addr)
    (animate : bool) (w w' : World) (p : Promise) :
  moveBlock_from chained o animate w = Ok (p, w') →
  shuffles w' = shuffles w ∧
  match p with
  | Resolved _ => flights w' = flights w ∧ isAnimating w' = isAnimating w
  | Pending => isAnimating w = false
  end.
Proof.
  unfold moveBlock_from. destruct o as [a|]; [|by intros [= <- <-]].
  destruct (heap w !! a) as [b|]; [|by intros [= <- <-]].
  destruct (value b =? 0); [by intros [= <- <-]|].
  destruct (negb _); [by intros [= <- <-]|].
  destruct (isAnimating w) eqn:Ha; [by intros [= <- <-]|]. simpl.
  destruct (grid_write _ _ _ _) as [g1|]; [|done]. simpl.
  destruct (grid_write g1 _ _ _) as [g2|]; [|done]. simpl.
  by intros [= <- <-].
Qed.

Lemma moveBlock_from_shuffling (chained : bool) (o : option addr)
    (animate : bool) (w w' : World) (p : Promise) :
  shuffling_ok w → moveBlock_from chained o animate w = Ok (p, w') →
  shuffling_ok w'.
Proof.
  intros Hs Hm. apply moveBlock_from_shuffles in Hm as [E Hp].
  destruct p as [r|].
  - destruct Hp as [E1 E2]. unfold shuffling_ok. by rewrite E, E1, E2.
  - apply shuffling_ok_nil. rewrite E. by apply shuffling_ok_unlocked.
Qed.

Lemma processQueue_shuffling (w w' : World) :
  shuffling_ok w → _processQueue w = Ok w' → shuffling_ok w'.
Proof.
  intros Hs. unfold _processQueue.
  destruct (isProcessingQueue w); [by intros [= <-]|].
  destruct (moveQueue w) as [|[a animate] q]; [by intros [= <-]|].
  destruct (moveBlock_from true (Some a) animate _) as [[p w1]|] eqn:Hm;
    [|done].
  apply moveBlock_from_shuffling in Hm; [|done]. simpl.
  by destruct p; intros [= <-].
Qed.

Lemma settle_shuffling (i : nat) (w w' : World) :
  shuffling_ok w → settle i w = Ok w' → shuffling_ok w'.
Proof.
  intros Hs. destruct (flights w !! i) as [f|] eqn:Hf.
  2:{ unfold settle. rewrite Hf. by intros [= <-]. }
  assert (shuffles w = []) as E.
  { apply shuffling_ok_in_flight; [done|]. intros Hn. by rewrite Hn in Hf. }
  rewrite (settle_finished _ _ _ Hf).
  destruct (_processQueue (finished i f w)) as [w1|] eqn:Hp; [|done].
  apply processQueue_shuffling in Hp.
  - simpl. by destruct (f_chained f); intros [= <-].
  - apply shuffling_ok_nil. unfold finished. simpl.
    by destruct (f_animate f).
Qed.

Lemma then_callback_shuffling (w w' : World) :
  shuffling_ok w → then_callback w = Ok w' → shuffling_ok w'.
Proof.
  intros Hs. unfold then_callback.
  destruct (callbacks w) as [|n]; [by intros [= <-]|].
  by apply processQueue_shuffling.
Qed.

Lemma shuffle_step_shuffles (draw : nat) (w w' : World)
    (last last' : option Direction) :
  shuffle_step draw (w, last) = Ok (w', last') → shuffles w' = shuffles w.
Proof.
  unfold shuffle_step.
  destruct (possibleMoves w last !! _) as [mv|]; [|by intros [= <- _]].
  destruct (getBlock w (c_row mv) (c_col mv) ≫= _) as [[a b]|]; [|done].
  destruct (grid_write _ _ _ _) as [g1|]; [|done]. simpl.
  destruct (grid_write g1 _ _ _) as [g2|]; [|done]. simpl.
  by intros [= <- _].
Qed.

Lemma shuffle_loop_shuffles (n : nat) :
  ∀ (i : nat) (rand : nat → nat) (w w' : World)
    (last last' : option Direction),
    shuffle_loop n i rand (w, last) = Ok (w', last') →
    shuffles w' = shuffles w.
Proof.
  induction n as [|n IH]; intros i rand w w' last last'.
  - by intros [= <- _].
  - cbn [shuffle_loop].
    destruct (shuffle_step (rand i) (w, last)) as [[w1 l1]|] eqn:Hs; [|done].
    simpl. intros Hl. rewrite (IH _ _ _ _ _ _ Hl).
    by eapply shuffle_step_shuffles.
Qed.

(** The loop of a shuffle that holds the lock on a board without flight,
    up to its next await or to its end. *)
Lemma shuffle_from_Inv (N : Z) (moves : Z) (i : nat)
    (last : option Direction) (rand : nat → nat) (w : World) :
  Inv N w → flights w = [] → shuffles w = [] → isAnimating w = true →
  ∃ w', shuffle_from moves i last rand w = Ok w' ∧ Inv N w' ∧
        shuffling_ok w' ∧ flights w' = [] ∧ callbacks w' = callbacks w ∧
        isProcessingQueue w' = isProcessingQueue w ∧
        moveQueue w' = moveQueue w ∧
        (shuffles w' = [] → isAnimating w' = false).
Proof.
  intros HI Hfl Hsh Ha. unfold shuffle_from.
  set (stop := Nat.min (Z.to_nat moves) (10 * (Nat.div i 10 + 1))%nat).
  destruct (shuffle_loop_Inv N (stop - i)%nat i rand w last HI Hfl)
    as (w1&l1&Hl&HI1&Hf1&E1&E2&E3&E4).
  pose proof (shuffle_loop_shuffles _ _ _ _ _ _ _ Hl) as E5.
  rewrite Hl. simpl. destruct (stop <? Z.to_nat moves)%nat.
  - eexists. split; [done|]. split; [by apply Inv_set_shuffles|].
    split.
    { split; simpl; rewrite E5, Hsh; simpl; [lia|].
      intros _. split; [done|congruence]. }
    simpl. rewrite E5, Hsh. by repeat split.
  - eexists. split; [done|].
    split.
    { apply Inv_set_isAnimating; [done|].
      by apply Inv_set_moveHistory, Inv_set_moveCount. }
    split; [apply shuffling_ok_nil; simpl; congruence|].
    simpl. by repeat split.
Qed.

(** *** An undisturbed shuffle *)

Lemma shuffle_loop_app (a b i : nat) (rand : nat → nat)
    (st : World * option Direction) :
  shuffle_loop (a + b) i rand st
  = st' ← shuffle_loop a i rand st; shuffle_loop b (i + a) rand st'.
Proof.
  revert i st. induction a as [|a IH]; intros i st.
  - simpl. by rewrite Nat.add_0_r.
  - cbn [Nat.add shuffle_loop].
    destruct (shuffle_step (rand i) st) as [st1|]; [|done]. simpl.
    rewrite IH. by replace (S i + a)%nat with (i + S a)%nat by lia.
Qed.

Lemma set_shuffles_none (ss : list Scramble) (w : World) :
  shuffles w = [] → set_shuffles [] (set_shuffles ss w) = w.
Proof. destruct w. simpl. by intros ->. Qed.

Lemma resume_all_none (n : nat) (w : World) :
  shuffles w = [] → resume_all n w = Ok w.
Proof.
  intros E. induction n as [|n IH]; [done|].
  cbn [resume_all]. unfold shuffle_resume. by rewrite E.
Qed.

Lemma shuffle_from_resumed (moves : Z) (rand : nat → nat) (n : nat) :
  ∀ (i : nat) (last : option Direction) (w : World),
    shuffles w = [] →
    (i ≤ Z.to_nat moves)%nat →
    (Z.to_nat moves ≤ 10 * (Nat.div i 10 + 1 + n))%nat →
    (w' ← shuffle_from moves i last rand w; resume_all n w')
    = '(w', _) ← shuffle_loop (Z.to_nat moves - i) i rand (w, last);
      Ok (set_isAnimating false (set_moveHistory [] (set_moveCount 0 w'))).
Proof.
  induction n as [|n IH]; intros i last w Hsh Hi Hn; unfold shuffle_from;
    set (m := Z.to_nat moves) in *;
    set (stop := Nat.min m (10 * (Nat.div i 10 + 1))%nat);
    pose proof (Nat.div_mod_eq i 10) as Hdiv;
    pose proof (Nat.mod_upper_bound i 10 ltac:(lia)) as Hmod;
    destruct (Nat.ltb_spec stop m) as [Hlt|Hge].
  - lia.
  - replace (stop - i)%nat with (m - i)%nat by lia.
    destruct (shuffle_loop (m - i) i rand (w, last)) as [[w1 l1]|] eqn:Hl;
      [|done].
    simpl. done.
  - assert (stop = (10 * (Nat.div i 10 + 1))%nat) as Hstop by lia.
    replace (m - i)%nat with ((stop - i) + (m - stop))%nat by lia.
    rewrite shuffle_loop_app.
    destruct (shuffle_loop (stop - i) i rand (w, last)) as [[w1 l1]|] eqn:Hl;
      [|done].
    pose proof (shuffle_loop_shuffles _ _ _ _ _ _ _ Hl) as E.
    rewrite Hsh in E.
    cbn [mbind result_bind resume_all]. unfold shuffle_resume. simpl.
    rewrite E. simpl. rewrite (set_shuffles_none _ w1 E).
    replace (i + (stop - i))%nat with stop by lia.
    apply IH; [done|lia|].
    replace (Nat.div stop 10) with (Nat.div i 10 + 1)%nat; [lia|].
    rewrite Hstop, Nat.mul_comm. by rewrite Nat.div_mul.
  - replace (stop - i)%nat with (m - i)%nat by lia.
    destruct (shuffle_loop (m - i) i rand (w, last)) as [[w1 l1]|] eqn:Hl;
      [|done].
    pose proof (shuffle_loop_shuffles _ _ _ _ _ _ _ Hl) as E.
    cbn [mbind result_bind].
    apply (resume_all_none (S n)). simpl. congruence.
Qed.

(** X23: started and resumed with nothing arriving in between, often enough
    for its count, the [shuffle] cut at its yields does what [shuffle] run
    in one go does, on any board and for any draws. *)
Lemma shuffle_undisturbed (moveCount : option Z) (rand : nat → nat)
    (n : nat) (w : World) :
  shuffles w = [] →
  (Z.to_nat (shuffle_moves (size w) moveCount) ≤ 10 * (n + 1))%nat →
  (w' ← shuffle_start moveCount rand w; resume_all n w')
  = shuffle moveCount rand w.
Proof.
  intros Hsh Hn. unfold shuffle_start, shuffle.
  rewrite shuffle_from_resumed; [|done|lia|simpl; lia].
  by rewrite Nat.sub_0_r.
Qed.

Lemma shuffle_undisturbed_witness :
  ∃ w, new_Board 4 = Ok w ∧
       (w' ← shuffle_start (Some 25) (λ i, i) w; resume_all 2 w')
       = shuffle (Some 25) (λ i, i) w.
Proof.
  assert (∃ w, new_Board 4 = Ok w ∧ shuffles w = [] ∧ size w = 4)
    as (w&Hw&Hsh&Hsz).
  { eexists. split; [vm_compute; reflexivity|]. split; reflexivity. }
  exists w. split; [exact Hw|].
  apply shuffle_undisturbed; [exact Hsh|]. rewrite Hsz. simpl. lia.
Defined.

Lemma initGrid_shuffles (w w' : World) :
  _initGrid w = Ok w' → shuffles w' = shuffles w.
Proof.
  destruct (initGrid_built w) as (g&er&ec&Hi&_). rewrite Hi.
  by intros [= <-].
Qed.

(** ** Every permitted step keeps the invariant *)

Lemma processing_ok_frame (w w' : World) :
  processing_ok w →
  isProcessingQueue w' = isProcessingQueue w →
  callbacks w' = callbacks w →
  (∀ f, f ∈ flights w → f ∈ flights w') →
  processing_ok w'.
Proof.
  intros Hp E1 E2 Hf Hq. rewrite E1 in Hq. rewrite E2.
  destruct (Hp Hq) as [?|(f&?&?)]; [by left|right; eauto].
Qed.

Lemma step_Inv (N : Z) (e : Event) (w : World) :
  1 ≤ N → Inv N w → processing_ok w → shuffling_ok w → permitted e w →
  ∃ w', step e w = Ok w' ∧ Inv N w' ∧ processing_ok w' ∧ shuffling_ok w'.
Proof.
  intros HN HI Hp Hs Hperm.
  destruct e as [o animate|i| |moveCount rand|k|]; simpl.
  - destruct (moveBlock_from_Inv N w false o animate HI Hperm)
      as (p&w'&Hm&HI'&E1&E2&Hfl).
    unfold moveBlock. rewrite Hm. simpl. exists w'. split; [done|].
    split; [done|]. split; [|by eapply moveBlock_from_shuffling].
    apply (processing_ok_frame w); try done.
    destruct p as [r|].
    + destruct Hfl as [_ ->]. done.
    + destruct Hfl as (->&_). intros f Hf. inversion Hf.
  - destruct (settle_Inv N w i HI Hp) as (w'&Hw'&HI'&Hp').
    exists w'. split; [done|]. split; [done|]. split; [done|].
    by eapply settle_shuffling.
  - destruct (then_callback_Inv N w HI Hp) as (w'&Hw'&HI'&Hp').
    exists w'. split; [done|]. split; [done|]. split; [done|].
    by eapply then_callback_shuffling.
  - destruct Hperm as ((Hfl&Hcb&Hq)&Hsh). unfold shuffle_start.
    destruct (shuffle_from_Inv N
                (shuffle_moves (size (set_isAnimating true w)) moveCount)
                0 None rand (set_isAnimating true w))
      as (w'&Hw'&HI'&Hs'&Hf'&E1&E2&E3&_); try done.
    { by apply Inv_set_isAnimating. }
    exists w'. split; [done|]. split; [done|]. split; [|done].
    apply (processing_ok_frame w); try done. rewrite Hfl.
    intros f Hf. inversion Hf.
  - unfold shuffle_resume. destruct (shuffles w !! k) as [s|] eqn:Hk.
    2:{ by exists w. }
    destruct Hs as [Hlen Hlock].
    destruct Hlock as [Hfl Ha]; [intros E; by rewrite E in Hk|].
    destruct (shuffle_from_Inv N (sc_moves s) (sc_i s) (sc_lastDirection s)
                (sc_rand s) (set_shuffles (delete k (shuffles w)) w))
      as (w'&Hw'&HI'&Hs'&Hf'&E1&E2&E3&_); try done.
    { by apply Inv_set_shuffles. }
    { simpl. destruct (shuffles w) as [|s0 [|s1 ss]]; simpl in *;
        [done| |lia]. by destruct k. }
    exists w'. split; [done|]. split; [done|]. split; [|done].
    apply (processing_ok_frame w); try done. rewrite Hfl.
    intros f Hf. inversion Hf.
  - destruct Hperm as ((Hfl&Hcb&Hq)&Hsh).
    destruct (initGrid_Inv w) as (w'&Hi&HI'&_&E1&E2&E3&Hf'&_);
      [rewrite (inv_size _ _ HI); lia|done|done|].
    rewrite (inv_size _ _ HI) in HI'.
    exists w'. split; [done|]. split; [done|]. split.
    + apply (processing_ok_frame w); try done. rewrite Hfl.
      intros f Hf. inversion Hf.
    + apply shuffling_ok_nil. by rewrite (initGrid_shuffles w w' Hi).
Qed.

Lemma new_Board_Inv (N : Z) :
  1 ≤ N →
  ∃ w, new_Board N = Ok w ∧ Inv N w ∧ processing_ok w ∧ idle w ∧
       wins N (grid w) ∧ isAnimating w = false ∧ isProcessingQueue w = false.
Proof.
  intros HN. unfold new_Board.
  destruct (initGrid_Inv (mkWorld N ∅ [] (N - 1) (N - 1) [] 0 false [] false [] [] 0 []))
    as (w&Hw&HI&Hwin&E1&E2&E3&E4&E5&_); [done..|].
  simpl in *. exists w. split; [done|]. split; [done|].
  split; [intros ?; congruence|]. by repeat split.
Qed.

Lemma reachable_invariants (N : Z) (w : World) :
  1 ≤ N → reachable N w → Inv N w ∧ processing_ok w ∧ shuffling_ok w.
Proof.
  intros HN Hr. induction Hr as [w Hw|w e w' _ (HI&Hp&Hs) Hperm Hst].
  - destruct (new_Board_Inv N HN) as (w1&Hw1&HI&Hp&_).
    rewrite Hw in Hw1. injection Hw1 as ->. split; [done|]. split; [done|].
    apply shuffling_ok_nil. unfold new_Board in Hw.
    by rewrite (initGrid_shuffles _ _ Hw).
  - destruct (step_Inv N e w HN HI Hp Hs Hperm) as (w1&Hs1&HI1&Hp1&Hsh1).
    rewrite Hst in Hs1. injection Hs1 as ->. done.
Qed.

Lemma reachable_Inv (N : Z) (w : World) :
  1 ≤ N → reachable N w → Inv N w ∧ processing_ok w.
Proof.
  intros HN Hr. destruct (reachable_invariants N w HN Hr) as (?&?&?). done.
Qed.

(** ** The grid invariant *)

Lemma puzzle_permutation (N : Z) (g : Grid) (er ec : Z) :
  puzzle N g er ec →
  (λ p, cell g p.1 p.2) <$> cells_list N ≡ₚ Some <$> seqZ 0 (N * N).
Proof.
  intros [Hdom Hdef Hinj Hsurj _]. apply NoDup_Permutation.
  - apply NoDup_fmap_2_strong; [|apply NoDup_cells_list].
    intros [r c] [r' c'] Hp Hp' E. simpl in E.
    apply elem_of_cells_list in Hp.
    destruct (Hdef _ _ Hp) as (v&Hv&_). rewrite Hv in E. symmetry in E.
    destruct (Hinj _ _ _ _ _ Hv E) as [-> ->]. done.
  - apply NoDup_fmap_2; [by intros ?? [= ->]|apply NoDup_seqZ].
  - intros x. rewrite !list_elem_of_fmap. split.
    + intros ([r c]&->&Hp). apply elem_of_cells_list in Hp.
      destruct (Hdef _ _ Hp) as (v&Hv&Hr). exists v. split; [done|].
      apply elem_of_seqZ. lia.
    + intros (v&->&Hv). apply elem_of_seqZ in Hv.
      destruct (Hsurj v) as (r&c&Hc); [lia|]. exists (r, c). split; [done|].
      apply elem_of_cells_list. apply Hdom. rewrite Hc. eauto.
Qed.

(** A concrete world is reachable: by the event [ev] from a world that
    [before] shows reachable. *)
Ltac fresh_board := apply reach_new; vm_compute; reflexivity.
Ltac by_event ev before :=
  eapply reach_step with (e := ev);
    [before
    |first [done|by repeat split|simpl; set_solver]
    |vm_compute; reflexivity].

(** C1 (amended): on a board of size N ≥ 1, in every world reached by
    [moveBlock] calls on the board's tiles arriving at any time (also while
    a move animates and at the yields of a running [shuffle]) and by
    [shuffle] and [reset] called while the board is idle and no [shuffle] is
    running, the grid read row by row is a permutation of 0..N²-1, each
    value sits in exactly one cell, no cell lies outside the square, and
    [grid[emptyRow][emptyCol]] is 0. *)
Theorem grid_is_permutation_with_blank (N : Z) (w : World) :
  1 ≤ N → reachable N w →
  grid_values w ≡ₚ Some <$> seqZ 0 (N * N) ∧
  (∀ v, 0 ≤ v < N * N → exists! p : Z * Z, cell (grid w) p.1 p.2 = Some v) ∧
  (∀ r c, is_Some (cell (grid w) r c) ↔ in_square N r c) ∧
  grid_read (grid w) (emptyRow w) (emptyCol w) = Ok (Some 0).
Proof.
  intros HN Hr. destruct (reachable_Inv N w HN Hr) as [HI _].
  pose proof (inv_puzzle _ _ HI) as Hpz.
  split; [|split; [|split]].
  - unfold grid_values. rewrite (inv_size _ _ HI).
    by eapply puzzle_permutation.
  - intros v Hv. destruct (pz_surj _ _ _ _ Hpz v Hv) as (r&c&Hc).
    exists (r, c). split; [done|]. intros [r' c'] Hc'. simpl in Hc'.
    destruct (pz_inj _ _ _ _ Hpz _ _ _ _ _ Hc Hc') as [-> ->]. done.
  - intros r c. split; [apply (pz_dom _ _ _ _ Hpz)|].
    intros Hin. destruct (pz_def _ _ _ _ Hpz r c Hin) as (v&->&_). eauto.
  - rewrite grid_read_cell; rewrite (pz_blank _ _ _ _ Hpz); eauto.
Qed.

Lemma grid_is_permutation_with_blank_witness :
  ∃ w, (w ← new_Board 4;
        w ← shuffle_start (Some 12) (λ _, O) w;
        '(_, w) ← moveAt 0 1 true w;
        shuffle_resume 0 w) = Ok w ∧
       isAnimating w = false ∧ moveQueue w = [(1%nat, true)] ∧
       grid_values w ≡ₚ Some <$> seqZ 0 (4 * 4) ∧
       grid_read (grid w) (emptyRow w) (emptyCol w) = Ok (Some 0).
Proof.
  eexists. split; [vm_compute; reflexivity|].
  split; [reflexivity|]. split; [reflexivity|].
  refine ((λ H, conj (proj1 H) (proj2 (proj2 (proj2 H))))
            (grid_is_permutation_with_blank 4 _ _ _)); [lia|].
  by_event (EResume 0) ltac:(
    by_event (EMove (Some 1%nat) true) ltac:(
      by_event (EShuffle (Some 12) (λ _, O)) fresh_board)).
Defined.

(** The claim as stated fails when [reset] arrives while a move is in
    flight and another is queued.  After three awaited moves the blank is at
    (2,1), tile 10 at (2,2) and tile 11 at (3,2).  Tile 10 is moved back and,
    while it animates, tile 11 is requested and queued; then [reset] rebuilds
    grid and blocks.  The queued block is now a stale object of the old tile
    set: once dequeued it passes [canMove] against the new blank (3,3) and
    writes its value 11 over the 15 of the fresh solved grid. *)
Lemma grid_not_permutation_after_reset_in_flight :
  ∃ w,
    (w ← new_Board 4;
     '(_, w) ← moveAt 3 2 true w; w ← settle 0 w;
     '(_, w) ← moveAt 2 2 true w; w ← settle 0 w;
     '(_, w) ← moveAt 2 1 true w; w ← settle 0 w;
     '(_, w) ← moveAt 2 2 true w;
     '(_, w) ← moveAt 3 2 true w;
     w ← reset w;
     drain 10 w) = Ok w ∧
    idle w ∧ isAnimating w = false ∧
    grid_values w
    = Some <$> [1; 2; 3; 4; 5; 6; 7; 8; 9; 10; 11; 12; 13; 14; 0; 11] ∧
    (Some 15 ∉ grid_values w) ∧
    ¬ (grid_values w ≡ₚ Some <$> seqZ 0 (4 * 4)).
Proof.
  eexists. split; [vm_compute; reflexivity|].
  split; [by repeat split|]. split; [reflexivity|].
  match goal with
  | |- ?gv = ?l ∧ _ =>
    assert (gv = l) as Hgv by (vm_compute; reflexivity); rewrite Hgv
  end.
  split; [done|].
  assert (Some 15 ∉ Some <$> [1; 2; 3; 4; 5; 6; 7; 8; 9; 10; 11; 12; 13; 14; 0; 11])
    as Hnot by (apply (bool_decide_unpack _); vm_compute; exact I).
  split; [exact Hnot|].
  intros Hp. apply Hnot. rewrite Hp.
  apply (bool_decide_unpack _). vm_compute. exact I.
Qed.

(** ** Rejected moves, at a concrete board *)

Lemma moveBlock_rejects_witness :
  ∃ w, new_Board 4 = Ok w ∧
       moveBlock (Some 15%nat) true w = Ok (Resolved false, w) ∧
       moveBlock (Some 0%nat) true w = Ok (Resolved false, w).
Proof.
  eexists. split; [vm_compute; reflexivity|]. split.
  - eapply moveBlock_rejects; [vm_compute; reflexivity|left; reflexivity].
  - eapply moveBlock_rejects; [vm_compute; reflexivity|right; reflexivity].
Defined.

(** ** shuffle with a count of 0 *)

(** C4 (amended): a [moveCount] of 0 is falsy, so [shuffle] runs exactly as
    without a count, whether followed to its end or only to its first
    yield: 80 scramble turns on a board of size 4, 150 otherwise.  What is
    left of a fresh 4x4 board depends on the draws: there are draws after
    which it is not solved, and draws after which it is solved again. *)
Theorem shuffle_zero_is_default (rand : nat → nat) (w : World) :
  shuffle (Some 0) rand w = shuffle None rand w ∧
  shuffle_start (Some 0) rand w = shuffle_start None rand w ∧
  shuffle_moves (size w) (Some 0) = (if size w =? 4 then 80 else 150) ∧
  (∃ w0 w', new_Board 4 = Ok w0 ∧
            shuffle (Some 0) (λ _, O) w0 = Ok w' ∧ checkWin w' = Ok false) ∧
  (∃ w0 w', new_Board 4 = Ok w0 ∧
            shuffle (Some 0) (λ i, nth i round_trip_draws O) w0 = Ok w' ∧
            checkWin w' = Ok true).
Proof.
  split; [reflexivity|]. split; [reflexivity|]. split; [reflexivity|].
  split; eexists; eexists; (split; [vm_compute; reflexivity|]);
    (split; [vm_compute; reflexivity|]); vm_compute; reflexivity.
Qed.

(** The claim as stated fails: with every draw picking the first listed
    direction, [shuffle(0)] on a fresh 4x4 board leaves it unsolved. *)
Lemma shuffle_zero_not_noop :
  (w ← new_Board 4; w ← shuffle (Some 0) (λ _, O) w; checkWin w) = Ok false.
Proof. vm_compute. reflexivity. Qed.

(** ** Misuse: sizes below 1 and destroyed boards *)

Lemma moveBlock_from_set_blocks (chained : bool) (o : option addr)
    (animate : bool) (bs : list addr) (w : World) :
  moveBlock_from chained o animate (set_blocks bs w)
  = (λ pw, (pw.1, set_blocks bs pw.2)) <$> moveBlock_from chained o animate w.
Proof.
  unfold moveBlock_from. destruct o as [a|]; [|done]. simpl.
  destruct (heap w !! a) as [b|]; [|done].
  destruct (value b =? 0); [done|].
  change (canMove (set_blocks bs w) (row b) (col b))
    with (canMove w (row b) (col b)).
  destruct (canMove w (row b) (col b)); [|done]. simpl.
  destruct (isAnimating w); [done|].
  destruct (grid_write (grid w) (emptyRow w) (emptyCol w) (value b)) as [g1|];
    [|done]. simpl.
  destruct (grid_write g1 (row b) (col b) 0) as [g2|]; done.
Qed.

Lemma stop_tweens_no_flight (w : World) : flights w = [] → stop_tweens w = w.
Proof. destruct w. simpl. by intros ->. Qed.

Lemma moveBlock_from_locked (chained : bool) (o : option addr) (animate : bool)
    (w : World) :
  isAnimating w = true →
  moveBlock_from chained o animate w = Ok (Resolved false, w) ∨
  ∃ a, o = Some a ∧
       moveBlock_from chained o animate w
       = Ok (Resolved false, set_moveQueue (moveQueue w ++ [(a, animate)]) w).
Proof.
  intros Ha. unfold moveBlock_from. destruct o as [a|]; [|by left].
  destruct (heap w !! a) as [b|]; [|by left].
  destruct (value b =? 0); [by left|].
  destruct (negb _); [by left|]. rewrite Ha. right. by exists a.
Qed.

(** C9 (amended): nothing fails fast.  A safe integer size of zero or below
    constructs, without raising, a board with an empty grid and no blocks
    whose blank position is (size-1, size-1) and which counts as won; on a
    destroyed board [moveAt] resolves to false.  [moveBlock] with a tile
    kept from a board in use never raises after the destruction: when no
    animation was running it is carried out as on the live board, and when
    one was running (a move or a [shuffle]) it resolves to false, the tile
    being refused or put on the queue. *)
Theorem misuse_does_not_raise (N : Z) (w : World) (r c : Z)
    (o : option addr) (animate : bool) :
  MIN_SAFE_INTEGER ≤ N ≤ 0 →
  new_Board N = Ok (mkWorld N ∅ [] (N - 1) (N - 1) [] 0 false [] false [] [] 0 []) ∧
  (w' ← new_Board N; checkWin w') = Ok true ∧
  moveAt r c animate (destroy w) = Ok (Resolved false, destroy w) ∧
  ∀ M, 1 ≤ M → reachable M w → own_tile w o →
    (∃ p w', moveBlock o animate (destroy w) = Ok (p, w')) ∧
    (isAnimating w = false →
     (∃ p w', moveBlock o animate w = Ok (p, w')) ∧
     moveBlock o animate (destroy w)
     = (λ pw, (pw.1, set_blocks [] pw.2)) <$> moveBlock o animate w) ∧
    (isAnimating w = true →
     moveBlock o animate (destroy w) = Ok (Resolved false, destroy w) ∨
     ∃ a, o = Some a ∧
          moveBlock o animate (destroy w)
          = Ok (Resolved false,
                set_moveQueue (moveQueue w ++ [(a, animate)]) (destroy w))).
Proof.
  intros [_ HN].
  assert (new_Board N
          = Ok (mkWorld N ∅ [] (N - 1) (N - 1) [] 0 false [] false [] [] 0 [])) as E.
  { unfold new_Board.
    destruct (initGrid_built
                (mkWorld N ∅ [] (N - 1) (N - 1) [] 0 false [] false [] [] 0 []))
      as (g&er&ec&->&_&_&Hneg).
    destruct (Hneg HN) as (->&->&->). simpl.
    unfold cells_list. by rewrite seqZ_nil. }
  split; [done|]. split; [|split].
  - rewrite E. simpl. unfold checkWin. simpl. by rewrite seqZ_nil.
  - reflexivity.
  - intros M HM Hr Ho. destruct (reachable_Inv M w HM Hr) as [HI _].
    assert (isAnimating w = false →
            (∃ p w', moveBlock o animate w = Ok (p, w')) ∧
            moveBlock o animate (destroy w)
            = (λ pw, (pw.1, set_blocks [] pw.2)) <$> moveBlock o animate w)
      as Hlive.
    { intros Ha. split.
      - destruct (moveBlock_from_Inv M w false o animate HI Ho)
          as (p&w'&Hm&_). by exists p, w'.
      - unfold destroy.
        rewrite (stop_tweens_no_flight w (inv_anim _ _ HI Ha)).
        apply moveBlock_from_set_blocks. }
    assert (isAnimating w = true →
            moveBlock o animate (destroy w) = Ok (Resolved false, destroy w) ∨
            ∃ a, o = Some a ∧
                 moveBlock o animate (destroy w)
                 = Ok (Resolved false,
                       set_moveQueue (moveQueue w ++ [(a, animate)]) (destroy w)))
      as Hlocked.
    { intros Ha. by apply (moveBlock_from_locked false o animate (destroy w)). }
    split; [|done].
    destruct (isAnimating w) eqn:Ha.
    + destruct (Hlocked eq_refl) as [Hm|(a&_&Hm)]; rewrite Hm; eauto.
    + destruct (Hlive eq_refl) as [(p&w'&Hm) Heq]. rewrite Heq, Hm. simpl. eauto.
Qed.

Lemma misuse_does_not_raise_witness :
  (w ← new_Board 0; checkWin w) = Ok true ∧
  ∃ w, new_Board 4 = Ok w ∧
       moveAt 3 2 true (destroy w) = Ok (Resolved false, destroy w) ∧
       ∃ p w', moveBlock (Some 14%nat) true (destroy w) = Ok (p, w').
Proof.
  split.
  - apply (misuse_does_not_raise 0 (mkWorld 0 ∅ [] 0 0 [] 0 false [] false [] [] 0 [])
             0 0 None false). unfold MIN_SAFE_INTEGER. lia.
  - assert (∃ w, new_Board 4 = Ok w ∧ own_tile w (Some 14%nat)) as (w&Hw&Ho)
      by (eexists; split; [vm_compute; reflexivity|simpl; set_solver]).
    exists w. split; [done|].
    destruct (misuse_does_not_raise 0 w 3 2 (Some 14%nat) true)
      as (_&_&Hat&Hkept); [unfold MIN_SAFE_INTEGER; lia|].
    split; [done|]. apply (Hkept 4); [lia|by apply reach_new|done].
Defined.

(** The claim as stated fails: sizes 0 and -3 construct a board, and on a
    destroyed 4x4 board [moveAt] resolves to false while [moveBlock] on the
    tile 15 kept from before is accepted; none of them raises. *)
Lemma misuse_is_silent :
  new_Board 0 = Ok (mkWorld 0 ∅ [] (-1) (-1) [] 0 false [] false [] [] 0 []) ∧
  new_Board (-3) = Ok (mkWorld (-3) ∅ [] (-4) (-4) [] 0 false [] false [] [] 0 []) ∧
  (w ← new_Board 4; fst <$> moveAt 3 2 true (destroy w)) = Ok (Resolved false) ∧
  (w ← new_Board 4; fst <$> moveBlock (Some 14%nat) true (destroy w)) = Ok Pending.
Proof. repeat split; vm_compute; reflexivity. Qed.

(** ** An awaited move on an idle board *)

Lemma awaited_moveBlock_Inv (N : Z) (w : World) (a : addr) (b : Block)
    (animate : bool) :
  Inv N w → idle w → isAnimating w = false →
  block_of w a b → value b ≠ 0 → canMove w (row b) (col b) = true →
  ∃ w1, awaited_moveBlock (Some a) animate w = Ok (true, w1) ∧
        Inv N w1 ∧ idle w1 ∧ isAnimating w1 = false ∧
        isProcessingQueue w1 = isProcessingQueue w ∧
        blocks w1 = blocks w ∧
        slid (grid w) (emptyRow w) (emptyCol w) (row b) (col b) (value b)
          (grid w1) ∧
        emptyRow w1 = row b ∧ emptyCol w1 = col b.
Proof.
  intros HI (Hfl&Hcb&Hq) Ha [Hab Hb] Hv Hc.
  pose proof (Inv_in_sync _ _ _ _ HI Hfl (conj Hab Hb) Hv) as Hp.
  pose proof (inv_puzzle _ _ HI) as Hpz.
  destruct (grid_write_slid (grid w) (emptyRow w) (emptyCol w) (row b) (col b)
              (value b)) as (g1&g2&H1&H2&Hs).
  { rewrite (pz_blank _ _ _ _ Hpz). eauto. }
  { rewrite Hp. eauto. }
  pose proof (accepted_Inv N w false a animate b g2 HI (conj Hab Hb) Hv Hc Ha Hs)
    as HI1.
  set (f := mkFlight a (emptyRow w) (emptyCol w) animate false).
  assert (flights (accepted w false a animate b g2) = [f]) as Hfl1
    by (simpl; by rewrite Hfl, stop_tween_nil).
  pose proof (finished_Inv N f _ HI1 Hfl1) as HI2.
  exists (finished 0 f (accepted w false a animate b g2)).
  split.
  { unfold awaited_moveBlock, moveBlock.
    rewrite (moveBlock_from_accept w false a animate b g1 g2 Hb Hv Hc Ha H1 H2).
    simpl. rewrite Hfl, stop_tween_nil. simpl.
    rewrite (settle_finished 0 f) by (by rewrite Hfl1).
    unfold _processQueue.
    assert (moveQueue (finished 0 f (accepted w false a animate b g2)) = [])
      as -> by (simpl; by destruct animate).
    by destruct (isProcessingQueue _). }
  split; [done|].
  unfold idle. simpl. rewrite Hfl, stop_tween_nil.
  destruct animate; simpl; by repeat split.
Qed.

(** ** Blocks and grid in quiescent worlds *)

(** C10 (amended): on a board of size N ≥ 1 used as above (moves at any
    time, also at the yields of a running [shuffle]; [shuffle] and [reset]
    on an idle board with no [shuffle] running), whenever no animation is
    running every numbered block of [blocks] sits on its value in the grid;
    the blank's block always keeps the row and column N-1 of its
    construction; so as soon as the blank has left that corner, which the
    first accepted move achieves, a numbered block shares the blank block's
    row and column. *)
Theorem blocks_follow_grid_but_blank_block_is_stale (N : Z) (w : World) :
  1 ≤ N → reachable N w →
  (isAnimating w = false →
   ∀ a b, block_of w a b → value b ≠ 0 →
          grid_read (grid w) (row b) (col b) = Ok (Some (value b))) ∧
  (∃ a0 b0, block_of w a0 b0 ∧ value b0 = 0) ∧
  (∀ a0 b0, block_of w a0 b0 → value b0 = 0 → row b0 = N - 1 ∧ col b0 = N - 1) ∧
  (isAnimating w = false → ¬ (emptyRow w = N - 1 ∧ emptyCol w = N - 1) →
   ∃ a b, block_of w a b ∧ value b ≠ 0 ∧ row b = N - 1 ∧ col b = N - 1) ∧
  (∀ w0 a animate w1,
     new_Board N = Ok w0 → a ∈ blocks w0 →
     awaited_moveBlock (Some a) animate w0 = Ok (true, w1) →
     reachable N w1 ∧ isAnimating w1 = false ∧
     ¬ (emptyRow w1 = N - 1 ∧ emptyCol w1 = N - 1)).
Proof.
  intros HN Hr. destruct (reachable_Inv N w HN Hr) as [HI _].
  pose proof (inv_puzzle _ _ HI) as Hpz. pose proof (inv_tiles _ _ HI) as Ht.
  split; [|split; [|split; [|split]]].
  - intros Ha a b Hb Hv.
    pose proof (Inv_in_sync _ _ _ _ HI (inv_anim _ _ HI Ha) Hb Hv) as Hs.
    rewrite grid_read_cell; rewrite Hs; eauto.
  - destruct (t_last _ _ _ Ht) as (bs'&a0&b0&Hbs&Hb0&Hv0).
    exists a0, b0. split; [|done]. split; [|done].
    rewrite Hbs. apply elem_of_app. right. by left.
  - apply HI.
  - intros Ha Hne.
    destruct (getBlock_Inv N w (N - 1) (N - 1) HI (inv_anim _ _ HI Ha))
      as (a&b&_&Hb&Hrb&Hcb&Hv); [unfold in_square; lia|naive_solver|].
    exists a, b. done.
  - intros w0 a animate w1 Hw0 Ha Hm.
    destruct (new_Board_Inv N HN) as (w0'&Hw0'&HI0&Hp0&Hidle&_&Han&_).
    rewrite Hw0 in Hw0'. injection Hw0' as <-.
    assert (emptyRow w0 = N - 1 ∧ emptyCol w0 = N - 1) as [Her Hec].
    { destruct (initGrid_built
                  (mkWorld N ∅ [] (N - 1) (N - 1) [] 0 false [] false [] [] 0 []))
        as (g&er&ec&Heq&_&He&_).
      unfold new_Board in Hw0. rewrite Heq in Hw0. injection Hw0 as <-.
      simpl in *. apply He. lia. }
    destruct (t_heap _ _ _ (inv_tiles _ _ HI0) a Ha) as [b Hb].
    assert (value b ≠ 0 ∧ canMove w0 (row b) (col b) = true) as [Hv Hc].
    { unfold awaited_moveBlock, moveBlock, moveBlock_from in Hm.
      rewrite Hb in Hm. destruct (value b =? 0) eqn:Hvb; [done|].
      destruct (canMove w0 (row b) (col b)); [|done].
      by apply Z.eqb_neq in Hvb. }
    destruct (awaited_moveBlock_Inv N w0 a b animate HI0 Hidle Han (conj Ha Hb) Hv Hc)
      as (w1'&Hm'&HI1&Hidle1&Han1&_&_&_&Her1&Hec1).
    rewrite Hm in Hm'. injection Hm' as <-.
    split; [|split; [done|]].
    + unfold awaited_moveBlock in Hm.
      destruct (moveBlock (Some a) animate w0) as [[p w']|] eqn:Hmb; [|done].
      simpl in Hm. destruct p as [r|]; [injection Hm as -> ->|].
      * apply (reach_step N w0 (EMove (Some a) animate)); [by apply reach_new|done|].
        cbn [step]. by rewrite Hmb.
      * destruct (settle _ w') as [w''|] eqn:Hst; [|done].
        injection Hm as ->.
        apply (reach_step N w' (ESettle (length (flights w') - 1))); [|done|done].
        apply (reach_step N w0 (EMove (Some a) animate)); [by apply reach_new|done|].
        cbn [step]. by rewrite Hmb.
    + apply canMove_manhattan in Hc. unfold manhattan in Hc. lia.
Qed.

Lemma blocks_follow_grid_but_blank_block_is_stale_witness :
  ∃ w, (w ← new_Board 4;
        w ← shuffle_start (Some 12) (λ _, O) w;
        '(_, w) ← moveAt 0 1 true w;
        w ← shuffle_resume 0 w;
        '(_, w) ← moveAt 0 1 false w;
        w ← settle 0 w;
        w ← settle 0 w;
        then_callback w) = Ok w ∧
       idle w ∧ moveCount w = 2 ∧ emptyRow w = 1 ∧ emptyCol w = 1 ∧
       ∃ a b, block_of w a b ∧ value b ≠ 0 ∧ row b = 4 - 1 ∧ col b = 4 - 1.
Proof.
  eexists. split; [vm_compute; reflexivity|].
  split; [by repeat split|]. do 3 (split; [reflexivity|]).
  refine (proj1 (proj2 (proj2 (proj2
            (blocks_follow_grid_but_blank_block_is_stale 4 _ _ _)))) _ _);
    [lia| |reflexivity|vm_compute; naive_solver].
  by_event ECallback ltac:(
    by_event (ESettle 0) ltac:(
      by_event (ESettle 0) ltac:(
        by_event (EMove (Some 0%nat) false) ltac:(
          by_event (EResume 0) ltac:(
            by_event (EMove (Some 1%nat) true) ltac:(
              by_event (EShuffle (Some 12) (λ _, O)) fresh_board)))))).
Defined.

(** The claim as stated fails when [shuffle] is called while a move is in
    flight: the moved block still carries its old cell, [getBlock] finds the
    blank's block instead, and the scramble turn moves that one.  Once the
    animation has settled the grid holds 0 under block 15, and the blank's
    block has left its corner. *)
Lemma blocks_out_of_sync_after_shuffle_in_flight :
  ∃ w,
    (w ← new_Board 4;
     '(_, w) ← moveAt 3 2 true w;
     w ← shuffle (Some 1) (λ _, 2%nat) w;
     settle 0 w) = Ok w ∧
    isAnimating w = false ∧ flights w = [] ∧
    block_of w 14%nat (mkBlock 15 3 3 3 3) ∧
    grid_read (grid w) 3 3 = Ok (Some 0) ∧
    block_of w 15%nat (mkBlock 0 3 2 3 2).
Proof.
  eexists. split; [vm_compute; reflexivity|].
  repeat split; try reflexivity; simpl; set_solver.
Qed.

(** ** Solvability after shuffle *)

Lemma slid_cells (g1 g2 g1' g2' : Grid) (er ec r c v : Z) :
  (∀ r c, cell g1 r c = cell g2 r c) →
  slid g1 er ec r c v g1' → slid g2 er ec r c v g2' →
  ∀ r c, cell g1' r c = cell g2' r c.
Proof. intros Heq H1 H2 r' c'. by rewrite H1, H2, Heq. Qed.

Lemma slides_to_win_solvable (N : Z) (g : Grid) (er ec : Z) :
  slides_to_win N g er ec →
  ∀ w, Inv N w → idle w → isAnimating w = false →
       (∀ r c, cell (grid w) r c = cell g r c) →
       emptyRow w = er → emptyCol w = ec →
       solvable w.
Proof.
  induction 1 as [g er ec Hw|g er ec r c v g' Hp Hm Hs _ IH];
    intros w HI Hidle Han Heq Her Hec.
  - exists [], w. split; [intros m Hin; inversion Hin|]. split; [done|].
    apply checkWin_true_iff. rewrite (inv_size _ _ HI).
    intros r c Hr Hc. rewrite Heq. by apply Hw.
  - pose proof (inv_puzzle _ _ HI) as Hpz. subst er ec.
    assert (¬ (r = emptyRow w ∧ c = emptyCol w)) as Hne
      by (unfold manhattan in Hm; lia).
    destruct (getBlock_Inv N w r c HI (proj1 Hidle)) as (a&b&_&Hb&<-&<-&Hv);
      [apply (pz_dom _ _ _ _ Hpz); rewrite Heq, Hp; eauto|done|].
    pose proof (Inv_in_sync _ _ _ _ HI (proj1 Hidle) Hb Hv) as Hsync.
    rewrite Heq, Hp in Hsync. injection Hsync as ->.
    apply canMove_manhattan in Hm.
    destruct (awaited_moveBlock_Inv N w a b true HI Hidle Han Hb Hv Hm)
      as (w1&Hmv&HI1&Hidle1&Han1&_&Hbs&Hs1&Her1&Hec1).
    destruct (IH w1 HI1 Hidle1 Han1) as (ms&w2&Hown&Hplay&Hwin); [|done|done|].
    { intros r' c'. symmetry. eapply slid_cells; [|exact Hs|exact Hs1].
      intros r0 c0. by rewrite Heq. }
    exists ((a, true) :: ms), w2. split; [|split; [|done]].
    + intros m Hin. apply elem_of_cons in Hin as [->|Hin]; [apply Hb|].
      rewrite <- Hbs. by apply Hown.
    + cbn [play]. simpl fst. simpl snd. rewrite Hmv. simpl. exact Hplay.
Qed.

Lemma shuffle_loop_nowhere (n i : nat) (rand : nat → nat) (w : World)
    (last : option Direction) :
  size w ≤ 0 → emptyRow w = size w - 1 → emptyCol w = size w - 1 →
  shuffle_loop n i rand (w, last) = Ok (w, last).
Proof.
  intros Hs Hr Hc. revert i. induction n as [|n IH]; intros i; [done|].
  cbn [shuffle_loop].
  assert (shuffle_step (rand i) (w, last) = Ok (w, last)) as ->.
  { unfold shuffle_step, possibleMoves. rewrite Hr, Hc.
    replace (0 <? size w - 1) with false by (symmetry; apply Z.ltb_ge; lia).
    rewrite Z.ltb_irrefl. simpl. done. }
  simpl. apply IH.
Qed.

(** C3: for every size N, every count argument and every sequence of random
    draws, [shuffle] on the freshly constructed board ends in a world from
    which a finite sequence of accepted [moveBlock] calls reaches
    [checkWin() = true]. *)
Theorem shuffle_is_solvable (N : Z) (moveCount : option Z) (rand : nat → nat) :
  ∃ w0 w1, new_Board N = Ok w0 ∧ shuffle moveCount rand w0 = Ok w1 ∧
           solvable w1.
Proof.
  destruct (decide (1 ≤ N)) as [HN|HN].
  - destruct (new_Board_Inv N HN) as (w0&Hw0&HI0&_&(Hfl&Hcb&Hq)&_&_&_).
    destruct (shuffle_Inv N moveCount rand w0 HI0 Hfl)
      as (w1&Hs&HI1&Hfl1&Hcb1&_&Hq1&Han1).
    exists w0, w1. split; [done|]. split; [done|].
    apply (slides_to_win_solvable N (grid w1) (emptyRow w1) (emptyCol w1));
      try done; [apply HI1|].
    unfold idle. by rewrite Hfl1, Hcb1, Hq1.
  - set (w0 := mkWorld N ∅ [] (N - 1) (N - 1) [] 0 false [] false [] [] 0 []).
    exists w0, w0. split; [|split].
    + unfold new_Board.
      destruct (initGrid_built
                  (mkWorld N ∅ [] (N - 1) (N - 1) [] 0 false [] false [] [] 0 []))
        as (g&er&ec&->&_&_&Hneg).
      destruct Hneg as (->&->&->); [simpl; lia|]. simpl.
      unfold cells_list. rewrite seqZ_nil by lia. reflexivity.
    + unfold shuffle. rewrite shuffle_loop_nowhere; simpl; [done|lia|done|done].
    + exists [], w0. split; [intros m Hin; inversion Hin|]. split; [done|].
      unfold checkWin. simpl. by rewrite seqZ_nil by lia.
Qed.

(** ** Requests issued while a move is in flight *)

Lemma moveBlock_from_attempt (chained : bool) (o : option addr)
    (animate : bool) (w : World) :
  moveBlock_from chained o animate w =
  match attempt w o with
  | ARejected => Ok (Resolved false, w)
  | AQueued a =>
    Ok (Resolved false, set_moveQueue (moveQueue w ++ [(a, animate)]) w)
  | AThrows => TypeError
  | AAccepted a b g => Ok (Pending, accepted w chained a animate b g)
  end.
Proof.
  unfold moveBlock_from, attempt. destruct o as [a|]; [|done].
  destruct (heap w !! a) as [b|]; [|done].
  destruct (value b =? 0); [done|].
  destruct (canMove w (row b) (col b)); [|done]. simpl.
  destruct (isAnimating w); [done|]. simpl.
  destruct (grid_write (grid w) (emptyRow w) (emptyCol w) (value b)) as [g1|];
    [|done]. simpl.
  destruct (grid_write g1 (row b) (col b) 0) as [g2|]; done.
Qed.

Lemma attempt_frame (w w' : World) (o : option addr) :
  heap w' = heap w → grid w' = grid w → emptyRow w' = emptyRow w →
  emptyCol w' = emptyCol w → isAnimating w' = isAnimating w →
  attempt w' o = attempt w o.
Proof.
  intros E1 E2 E3 E4 E5. unfold attempt, canMove.
  by rewrite E1, E2, E3, E4, E5.
Qed.

Lemma attempt_animating (w : World) (o : option addr) :
  isAnimating w = true →
  attempt w o = match o with
                | Some a => if legal_at w (o, false) then AQueued a else ARejected
                | None => ARejected
                end.
Proof.
  intros Ha. unfold attempt, legal_at, deref. destruct o as [a|]; [|done].
  simpl. destruct (heap w !! a) as [b|]; [|done].
  destruct (value b =? 0); [done|]. simpl.
  destruct (canMove w (row b) (col b)); [|done]. simpl. by rewrite Ha.
Qed.

Lemma attempt_not_animating (w : World) (o : option addr) (a : addr) :
  isAnimating w = false → attempt w o ≠ AQueued a.
Proof.
  intros Ha. unfold attempt. destruct o as [a'|]; [|done].
  destruct (heap w !! a') as [b|]; [|done].
  destruct (value b =? 0); [done|].
  destruct (negb _); [done|]. rewrite Ha.
  destruct (grid_write _ _ _ _) as [g1|]; [|done].
  destruct (grid_write g1 _ _ _); done.
Qed.

Lemma attempt_accepted (w : World) (o : option addr) (a : addr) (b : Block)
    (g : Grid) :
  attempt w o = AAccepted a b g →
  o = Some a ∧ heap w !! a = Some b ∧ isAnimating w = false.
Proof.
  unfold attempt. destruct o as [a'|]; [|done].
  destruct (heap w !! a') as [b'|] eqn:Hb; [|done].
  destruct (value b' =? 0); [done|].
  destruct (negb _); [done|]. destruct (isAnimating w); [done|].
  destruct (grid_write _ _ _ _) as [g1|]; [|done].
  destruct (grid_write g1 _ _ _); [|done]. by intros [= -> -> ->].
Qed.

(** Requests made while a move animates: the legal ones join the queue in
    the order of arrival, the others are dropped. *)
Lemma request_all_animating (ms : list (option addr * bool)) (w : World) :
  isAnimating w = true →
  request_all ms w
  = Ok (set_moveQueue (moveQueue w ++ to_queue (filter (legal_at w) ms)) w).
Proof.
  intros Ha.
  cut (∀ q, request_all ms (set_moveQueue q w)
            = Ok (set_moveQueue (q ++ to_queue (filter (legal_at w) ms)) w)).
  { intros H. specialize (H (moveQueue w)).
    replace (set_moveQueue (moveQueue w) w) with w in H by (by destruct w).
    done. }
  induction ms as [|[o animate] ms IH]; intros q.
  - simpl. by rewrite app_nil_r.
  - cbn [request_all]. unfold moveBlock. rewrite moveBlock_from_attempt.
    rewrite (attempt_frame w) by done. rewrite (attempt_animating w) by done.
    simpl fst. simpl snd. rewrite filter_cons.
    assert (legal_at w (o, animate) = legal_at w (o, false)) as E by done.
    destruct o as [a|].
    + destruct (legal_at w (Some a, false)) eqn:Hl; rewrite E; simpl.
      * etrans; [apply (IH (q ++ [(a, animate)]))|].
        by rewrite <- app_assoc.
      * apply IH.
    + simpl. apply IH.
Qed.

Lemma bind_Ok {A B : Type} (a : A) (f : A → result B) : (Ok a ≫= f) = f a.
Proof. reflexivity. Qed.

Lemma drain_callback (k n : nat) (w : World) :
  callbacks w = S n →
  drain (S k) w =
    (w' ← _processQueue (set_isProcessingQueue false (set_callbacks n w));
     drain k w').
Proof.
  intros H. cbn [drain]. rewrite H. unfold then_callback. by rewrite H.
Qed.

Lemma drain_settle (k : nat) (f : Flight) (w : World) :
  callbacks w = O → flights w = [f] →
  drain (S k) w =
    (w' ← _processQueue (finished 0 f w);
     drain k (if f_chained f then set_callbacks (S (callbacks w')) w' else w')).
Proof.
  intros H1 H2. cbn [drain]. rewrite H1, H2.
  rewrite (settle_finished 0 f) by (by rewrite H2).
  by destruct (_processQueue (finished 0 f w)).
Qed.

Lemma drain_quiet (k : nat) (w : World) :
  callbacks w = O → flights w = [] → drain k w = Ok w.
Proof. intros H1 H2. destruct k; [done|]. cbn [drain]. by rewrite H1, H2. Qed.

Lemma processQueue_busy (w : World) :
  isProcessingQueue w = true → _processQueue w = Ok w.
Proof. intros H. unfold _processQueue. by rewrite H. Qed.

Lemma processQueue_empty (w : World) :
  moveQueue w = [] → _processQueue w = Ok w.
Proof.
  intros H. unfold _processQueue. rewrite H. by destruct (isProcessingQueue w).
Qed.

Lemma set_moveQueue_same (w : World) : set_moveQueue (moveQueue w) w = w.
Proof. by destruct w. Qed.

(** Draining the queue after a move has settled does what awaiting the
    queued requests one by one would have done. *)
Lemma drain_queue (q : list (addr * bool)) :
  ∀ (w : World) (fuel : nat),
    flights w = [] → callbacks w = O → isAnimating w = false →
    isProcessingQueue w = false → moveQueue w = q →
    (2 * length q ≤ fuel)%nat →
    (w' ← _processQueue w; drain fuel w')
    = in_sequence (to_requests q) (set_moveQueue [] w).
Proof.
  induction q as [|[a animate] q IH]; intros w fuel Hfl Hcb Han Hpq Hq Hfuel.
  - rewrite processQueue_empty by done. simpl. rewrite drain_quiet by done.
    rewrite <- Hq. by rewrite set_moveQueue_same.
  - cbn [length] in Hfuel. destruct fuel as [|[|fuel]]; [lia..|].
    unfold _processQueue. rewrite Hpq, Hq.
    cbn [to_requests fmap list_fmap in_sequence]. simpl fst. simpl snd.
    unfold awaited_moveBlock, moveBlock. rewrite !moveBlock_from_attempt.
    rewrite (attempt_frame w (set_moveQueue q (set_isProcessingQueue true w)))
      by done.
    rewrite (attempt_frame w (set_moveQueue [] w)) by done.
    destruct (attempt w (Some a)) as [|a'| |a' b g] eqn:Hat.
    + (* refused when dequeued: the callback is due at once *)
      simpl mbind at 2. cbn beta iota.
      etrans; [apply (drain_callback (S fuel) O); simpl; by rewrite Hcb|].
      etrans; [|apply (IH (set_moveQueue q w) (S fuel)); simpl; try done; lia].
      by destruct w; simpl in *; subst.
    + by apply attempt_not_animating in Hat.
    + done.
    + apply attempt_accepted in Hat as ([= <-]&Hb&_).
      set (f := mkFlight a (emptyRow w) (emptyCol w) animate true).
      set (f' := mkFlight a (emptyRow w) (emptyCol w) animate false).
      set (wa := accepted (set_moveQueue q (set_isProcessingQueue true w))
                   true a animate b g).
      set (ua := accepted (set_moveQueue [] w) false a animate b g).
      assert (flights wa = [f] ∧ callbacks wa = O) as [Hfa Hca]
        by (simpl; by rewrite Hfl, stop_tween_nil, Hcb).
      assert (flights ua = [f']) as Hfu
        by (simpl; by rewrite Hfl, stop_tween_nil).
      simpl mbind at 2. cbn beta iota.
      etrans; [apply (drain_settle (S fuel) f); done|].
      rewrite processQueue_busy by (simpl; by destruct animate).
      etrans;
        [apply (drain_callback fuel O); simpl; destruct animate; simpl;
           by rewrite Hcb|].
      etrans;
        [apply (IH _ fuel); simpl; rewrite ?Hfl, ?stop_tween_nil;
           destruct animate; simpl; try done; lia|].
      rewrite bind_Ok. cbn beta iota. rewrite Hfu. cbn [length Nat.sub].
      rewrite (settle_finished 0 f') by (by rewrite Hfu).
      rewrite processQueue_empty by (simpl; by destruct animate).
      rewrite !bind_Ok. cbn beta iota. f_equal.
      destruct w; simpl in *; subst; by destruct animate.
Qed.

Lemma attempt_accepted_legal (w : World) (o : option addr) (a : addr)
    (b : Block) (g : Grid) :
  attempt w o = AAccepted a b g →
  value b ≠ 0 ∧ canMove w (row b) (col b) = true.
Proof.
  unfold attempt. destruct o as [a'|]; [|done].
  destruct (heap w !! a') as [b'|] eqn:Hb; [|done].
  destruct (value b' =? 0) eqn:Hv; [done|].
  destruct (canMove w (row b') (col b')) eqn:Hc; [|done]. simpl.
  destruct (isAnimating w); [done|].
  destruct (grid_write _ _ _ _) as [g1|]; [|done].
  destruct (grid_write g1 _ _ _); [|done]. intros [= -> -> ->].
  by apply Z.eqb_neq in Hv.
Qed.

Lemma moveBlock_blocks (o : option addr) (animate : bool) (w w' : World)
    (p : Promise) :
  moveBlock o animate w = Ok (p, w') → blocks w' = blocks w.
Proof.
  unfold moveBlock. rewrite moveBlock_from_attempt.
  destruct (attempt w o); intros [= <- <-]; done.
Qed.

Lemma awaited_moveBlock_total (N : Z) (w : World) (o : option addr)
    (animate : bool) :
  Inv N w → idle w → isAnimating w = false → own_tile w o →
  ∃ r w', awaited_moveBlock o animate w = Ok (r, w') ∧ Inv N w' ∧ idle w' ∧
          isAnimating w' = false ∧ blocks w' = blocks w.
Proof.
  intros HI Hidle Han Ho.
  destruct (attempt w o) as [|a| |a b g] eqn:Hat.
  - exists false, w. unfold awaited_moveBlock, moveBlock.
    by rewrite moveBlock_from_attempt, Hat.
  - by apply attempt_not_animating in Hat.
  - destruct (moveBlock_from_Inv N w false o animate HI Ho) as (p&w'&Hm&_).
    by rewrite moveBlock_from_attempt, Hat in Hm.
  - destruct (attempt_accepted_legal _ _ _ _ _ Hat) as [Hv Hc].
    apply attempt_accepted in Hat as (->&Hb&_).
    destruct (awaited_moveBlock_Inv N w a b animate HI Hidle Han (conj Ho Hb) Hv Hc)
      as (w1&Hm&HI1&Hidle1&Han1&_&Hbs&_).
    by exists true, w1.
Qed.

Lemma in_sequence_total (N : Z) (ms : list (option addr * bool)) :
  ∀ w, Inv N w → idle w → isAnimating w = false →
       (∀ m, m ∈ ms → own_tile w m.1) →
       ∃ w', in_sequence ms w = Ok w' ∧ Inv N w' ∧ idle w' ∧
             isAnimating w' = false.
Proof.
  induction ms as [|m ms IH]; intros w HI Hidle Han Hown; [by exists w|].
  destruct (awaited_moveBlock_total N w m.1 m.2 HI Hidle Han)
    as (r&w1&Hm&HI1&Hidle1&Han1&Hbs); [apply Hown; by left|].
  destruct (IH w1 HI1 Hidle1 Han1) as (w2&Hs&H2).
  { intros m' Hin. specialize (Hown m' (list_elem_of_further _ _ _ Hin)).
    unfold own_tile in *. destruct m'.1; [|done]. by rewrite Hbs. }
  exists w2. cbn [in_sequence]. rewrite Hm. by rewrite bind_Ok.
Qed.

Lemma drain_reachable (N : Z) (k : nat) :
  ∀ w w', reachable N w → drain k w = Ok w' → reachable N w'.
Proof.
  induction k as [|k IH]; intros w w' Hr Hd; [by injection Hd as <-|].
  cbn [drain] in Hd. destruct (callbacks w) as [|n] eqn:Hcb.
  - destruct (flights w) as [|f fs]; [by injection Hd as <-|].
    destruct (settle 0 w) as [w1|] eqn:Hs; [|done]. rewrite bind_Ok in Hd.
    apply (IH w1); [|done]. by apply (reach_step N w (ESettle 0)).
  - destruct (then_callback w) as [w1|] eqn:Hs; [|done]. rewrite bind_Ok in Hd.
    apply (IH w1); [|done]. by apply (reach_step N w ECallback).
Qed.

Lemma request_all_reachable (N : Z) (ms : list (option addr * bool)) :
  ∀ w w', reachable N w → (∀ m, m ∈ ms → own_tile w m.1) →
          request_all ms w = Ok w' → reachable N w'.
Proof.
  induction ms as [|m ms IH]; intros w w' Hr Hown Hq; [by injection Hq as <-|].
  cbn [request_all] in Hq.
  destruct (moveBlock m.1 m.2 w) as [[p w1]|] eqn:Hm; [|done].
  rewrite bind_Ok in Hq. apply (IH w1); [| |done].
  - apply (reach_step N w (EMove m.1 m.2)); [done|apply Hown; by left|].
    cbn [step]. by rewrite Hm.
  - intros m' Hin. specialize (Hown m' (list_elem_of_further _ _ _ Hin)).
    unfold own_tile in *. destruct m'.1; [|done].
    by rewrite (moveBlock_blocks _ _ _ _ _ Hm).
Qed.

Lemma to_requests_to_queue (w : World) (ms : list (option addr * bool)) :
  to_requests (to_queue (filter (legal_at w) ms)) = filter (legal_at w) ms.
Proof.
  induction ms as [|[o animate] ms IH]; [done|].
  rewrite filter_cons. case_decide as Hl; [|done].
  unfold legal_at, deref in Hl. destruct o as [a|]; [|done].
  change (to_queue ((Some a, animate) :: filter (legal_at w) ms))
    with ((a, animate) :: to_queue (filter (legal_at w) ms)).
  change (to_requests ((a, animate) :: to_queue (filter (legal_at w) ms)))
    with ((Some a, animate) :: to_requests (to_queue (filter (legal_at w) ms))).
  by rewrite IH.
Qed.

Lemma length_to_queue_filter (w : World) (ms : list (option addr * bool)) :
  (length (to_queue (filter (legal_at w) ms)) ≤ length ms)%nat.
Proof.
  induction ms as [|[o animate] ms IH]; [done|].
  rewrite filter_cons. case_decide as Hl; cbn [length]; [|lia].
  destruct o as [a|].
  - change (to_queue ((Some a, animate) :: filter (legal_at w) ms))
      with ((a, animate) :: to_queue (filter (legal_at w) ms)).
    cbn [length]. lia.
  - change (to_queue ((None, animate) :: filter (legal_at w) ms))
      with (to_queue (filter (legal_at w) ms)). lia.
Qed.

(** C2 (amended): let M1 be accepted on an idle board and further requests
    arrive while it animates.  Those that are legal against the board as M1
    left it join the queue in order of arrival; the others (a tile that M1 or
    a queued move would first have to make room for, the tile of M1 itself)
    are refused at once and never queued.  Once the animations have settled,
    the whole board is what awaiting M1 and then the queued requests one by
    one, in that order, gives; the board is idle again, and at no point were
    two moves in flight. *)
Theorem queued_moves_drain_in_order (N : Z) (w0 w1 : World)
    (m1 : option addr * bool) (ms : list (option addr * bool)) :
  1 ≤ N → reachable N w0 → idle w0 →
  own_tile w0 m1.1 → (∀ m, m ∈ ms → own_tile w0 m.1) →
  moveBlock m1.1 m1.2 w0 = Ok (Pending, w1) →
  ∃ w2 wf,
    request_all ms w1 = Ok w2 ∧
    to_requests (moveQueue w2) = filter (legal_at w1) ms ∧
    (∀ fuel, (2 * length ms + 1 ≤ fuel)%nat → drain fuel w2 = Ok wf) ∧
    in_sequence (m1 :: filter (legal_at w1) ms) w0 = Ok wf ∧
    idle wf ∧ isAnimating wf = false ∧
    (∀ k w, drain k w2 = Ok w → (length (flights w) ≤ 1)%nat).
Proof.
  intros HN Hr (Hfl&Hcb&Hq) Ho1 Hown Hm1.
  destruct (reachable_Inv N w0 HN Hr) as [HI Hp].
  assert (isProcessingQueue w0 = false) as Hpq.
  { destruct (isProcessingQueue w0) eqn:E; [|done].
    destruct (Hp E) as [?|(f&Hf&_)]; [lia|]. rewrite Hfl in Hf. inversion Hf. }
  pose proof Hm1 as Hm1'. unfold moveBlock in Hm1'.
  rewrite moveBlock_from_attempt in Hm1'.
  destruct (attempt w0 m1.1) as [|a'| |a b g] eqn:Hat; try done.
  injection Hm1' as <-.
  destruct (attempt_accepted_legal _ _ _ _ _ Hat) as [Hv Hc].
  apply attempt_accepted in Hat as (Ho&Hb&Han).
  rewrite Ho in Ho1. simpl in Ho1.
  set (w1 := accepted w0 false a m1.2 b g) in *.
  set (f := mkFlight a (emptyRow w0) (emptyCol w0) m1.2 false).
  set (q := to_queue (filter (legal_at w1) ms)).
  assert (flights w1 = [f]) as Hfl1 by (simpl; by rewrite Hfl, stop_tween_nil).
  assert (blocks w1 = blocks w0) as Hbs1 by done.
  assert (request_all ms w1 = Ok (set_moveQueue q w1)) as Hreq.
  { rewrite request_all_animating by done. simpl. by rewrite Hq. }
  assert (reachable N w1) as Hr1.
  { apply (reach_step N w0 (EMove m1.1 m1.2)); [done|by rewrite Ho|].
    cbn [step]. by rewrite Hm1. }
  assert (reachable N (set_moveQueue q w1)) as Hr2.
  { apply (request_all_reachable N ms w1); [done| |done].
    intros m Hin. specialize (Hown m Hin). unfold own_tile in *.
    destruct m.1; [|done]. by rewrite Hbs1. }
  (* the sequential run *)
  assert (awaited_moveBlock m1.1 m1.2 w0 = Ok (true, finished 0 f w1)) as Haw.
  { unfold awaited_moveBlock. rewrite Hm1, bind_Ok. cbn beta iota.
    rewrite Hfl1. cbn [length Nat.sub].
    rewrite (settle_finished 0 f) by (by rewrite Hfl1).
    rewrite processQueue_empty; [done|]. simpl. destruct m1.2; simpl; done. }
  destruct (reachable_Inv N w1 HN Hr1) as [HI1 _].
  pose proof (finished_Inv N f w1 HI1 Hfl1) as HI2.
  destruct (in_sequence_total N (filter (legal_at w1) ms) (finished 0 f w1))
    as (wf&Hseq&HIf&Hidlef&Hanf); [done| | | |].
  { unfold idle. simpl. rewrite Hfl, stop_tween_nil.
    destruct m1.2; simpl; by repeat split. }
  { simpl. by destruct m1.2. }
  { intros m Hin. apply list_elem_of_filter in Hin as [_ Hin].
    specialize (Hown m Hin). unfold own_tile in *. destruct m.1; [|done].
    simpl. by destruct m1.2. }
  exists (set_moveQueue q w1), wf. split; [done|].
  split; [apply to_requests_to_queue|].
  split; [|split; [|split; [done|split; [done|]]]].
  - intros fuel Hfuel. destruct fuel as [|fuel]; [lia|].
    rewrite (drain_settle fuel f)
      by (simpl; by rewrite ?Hfl, ?stop_tween_nil, ?Hcb).
    change (f_chained f) with false. cbn iota.
    pose proof (length_to_queue_filter w1 ms) as Hlen. fold q in Hlen.
    etrans; [apply (drain_queue q); simpl; rewrite ?Hfl, ?stop_tween_nil;
             destruct m1.2; simpl; try done; lia|].
    unfold q at 1. rewrite to_requests_to_queue.
    replace (set_moveQueue [] (finished 0 f (set_moveQueue q w1)))
      with (finished 0 f w1); [done|].
    unfold w1, accepted. destruct w0; simpl in *; subst.
    by destruct m1.2.
  - cbn [in_sequence]. rewrite Haw, bind_Ok. done.
  - intros k w Hd.
    destruct (reachable_Inv N w HN (drain_reachable N k _ _ Hr2 Hd)) as [HIw _].
    apply HIw.
Qed.

Lemma queued_moves_drain_in_order_witness :
  ∃ w0 w1,
    new_Board 4 = Ok w0 ∧
    moveBlock (Some 14%nat) true w0 = Ok (Pending, w1) ∧
    ∃ w2 wf,
      request_all [(Some 13%nat, true); (Some 12%nat, true)] w1 = Ok w2 ∧
      drain 5 w2 = Ok wf ∧
      in_sequence [(Some 14%nat, true); (Some 13%nat, true)] w0 = Ok wf.
Proof.
  eexists _, _. split; [vm_compute; reflexivity|].
  split; [vm_compute; reflexivity|].
  match goal with
  | |- ∃ w2 wf, request_all _ ?W1 = _ ∧ _ ∧ in_sequence _ ?W0 = _ =>
    destruct (queued_moves_drain_in_order 4 W0 W1 (Some 14%nat, true)
                [(Some 13%nat, true); (Some 12%nat, true)])
      as (w2&wf&Hreq&_&Hdr&Hseq&_)
  end.
  - lia.
  - apply reach_new. reflexivity.
  - vm_compute. by repeat split.
  - simpl. set_solver.
  - intros m Hin. apply elem_of_cons in Hin as [->|Hin]; [simpl; set_solver|].
    apply list_elem_of_singleton in Hin as ->. simpl. set_solver.
  - reflexivity.
  - exists w2, wf. split; [exact Hreq|].
    split; [apply Hdr; simpl; lia|exact Hseq].
Defined.

(** The claim as stated fails: tiles 15, 14 and 13 of the fresh 4x4 board are
    requested in immediate succession.  Tile 13 is not next to the blank when
    it is requested (tile 14 has not moved yet), so it is refused and never
    queued: the board ends with the blank at (3,1), where awaiting the three
    moves in turn would bring it to (3,0). *)
Lemma queue_drops_what_sequence_accepts :
  ∃ wa ws,
    (w ← new_Board 4;
     w ← request_all
           [(Some 14%nat, true); (Some 13%nat, true); (Some 12%nat, true)] w;
     drain 10 w) = Ok wa ∧
    (w ← new_Board 4;
     in_sequence
       [(Some 14%nat, true); (Some 13%nat, true); (Some 12%nat, true)] w)
    = Ok ws ∧
    idle wa ∧ isAnimating wa = false ∧
    grid_values wa
    = Some <$> [1; 2; 3; 4; 5; 6; 7; 8; 9; 10; 11; 12; 13; 0; 14; 15] ∧
    grid_values ws
    = Some <$> [1; 2; 3; 4; 5; 6; 7; 8; 9; 10; 11; 12; 0; 13; 14; 15] ∧
    grid wa ≠ grid ws.
Proof.
  eexists _, _. split; [vm_compute; reflexivity|].
  split; [vm_compute; reflexivity|].
  split; [by repeat split|]. split; [reflexivity|].
  split; [vm_compute; reflexivity|]. split; [vm_compute; reflexivity|].
  intros E. apply (f_equal (λ g, cell g 3 0)) in E. vm_compute in E.
  discriminate.
Qed.

(** * Further properties of the board *)

(** ** Looking blocks up *)

Lemma find_elem_of {A : Type} (f : A → bool) (l : list A) (x : A) :
  find f l = Some x → x ∈ l ∧ f x = true.
Proof.
  intros H. apply find_some in H as [Hin Hf]. split; [|done].
  by apply list_elem_of_In.
Qed.

Lemma find_is_None {A : Type} (f : A → bool) (l : list A) :
  find f l = None ↔ ∀ x, x ∈ l → f x = false.
Proof.
  split.
  - intros H x Hin. apply (find_none f l H). by apply list_elem_of_In.
  - intros H. destruct (find f l) as [x|] eqn:E; [|done].
    apply find_elem_of in E as [Hin Hf]. rewrite (H x Hin) in Hf. done.
Qed.

Lemma getBlock_found (w : World) (r c : Z) (a : addr) :
  getBlock w r c = Some a → ∃ b, block_of w a b ∧ row b = r ∧ col b = c.
Proof.
  intros H. apply find_elem_of in H as [Hin Hat]. unfold block_at in Hat.
  destruct (heap w !! a) as [b|] eqn:Hb; [|done].
  apply andb_true_iff in Hat as [Hr%Z.eqb_eq Hc%Z.eqb_eq].
  by exists b.
Qed.

Lemma getBlockByValue_found (w : World) (v : Z) (a : addr) :
  getBlockByValue w v = Some a → ∃ b, block_of w a b ∧ value b = v.
Proof.
  intros H. apply find_elem_of in H as [Hin Hat]. unfold has_value in Hat.
  destruct (heap w !! a) as [b|] eqn:Hb; [|done].
  apply Z.eqb_eq in Hat. by exists b.
Qed.

Section Lookup.
Variable N : Z.

(** The values of the blocks of the board are those of the puzzle. *)
Lemma Inv_value_range (w : World) (a : addr) (b : Block) :
  Inv N w → block_of w a b → 0 ≤ value b < N * N.
Proof.
  intros HI Hab. pose proof (inv_puzzle _ _ HI) as Hpz.
  assert (∀ r c, cell (grid w) r c = Some (value b) → 0 ≤ value b < N * N)
    as Hcell.
  { intros r c Hc.
    destruct (pz_def _ _ _ _ Hpz r c) as (v&Hv&Hr).
    - apply (pz_dom _ _ _ _ Hpz). rewrite Hc. eauto.
    - congruence. }
  destruct (decide (value b = 0)) as [E|Hv].
  { rewrite E. destruct (pz_def _ _ _ _ Hpz (emptyRow w) (emptyCol w))
      as (v&Hv&Hr).
    - apply (pz_dom _ _ _ _ Hpz). rewrite (pz_blank _ _ _ _ Hpz). eauto.
    - rewrite (pz_blank _ _ _ _ Hpz) in Hv. injection Hv as <-. done. }
  destruct (inv_block_pos _ _ HI a b Hab Hv) as [Hc|(f&Hf&Hfa)]; [by eauto|].
  destruct (inv_flight _ _ HI f Hf) as (b'&[_ Hb']&_&Hc).
  rewrite Hfa in Hb'. destruct Hab as [_ Hb]. rewrite Hb in Hb'.
  injection Hb' as <-. eauto.
Qed.

(** On a board with no move in flight the block found at a cell carries
    the value of that cell. *)
Lemma getBlock_cell (w : World) (r c : Z) (a : addr) :
  Inv N w → flights w = [] → getBlock w r c = Some a →
  ∃ b, block_of w a b ∧ row b = r ∧ col b = c ∧
       cell (grid w) r c = Some (value b).
Proof.
  intros HI Hfl Hg. destruct (getBlock_found w r c a Hg) as (b&Hab&Hr&Hc).
  exists b. split; [done|]. split; [done|]. split; [done|].
  pose proof (inv_puzzle _ _ HI) as Hpz.
  destruct (decide (value b = 0)) as [E|Hv].
  - destruct (inv_blank_block _ _ HI a b Hab E) as [Hr0 Hc0].
    rewrite E.
    destruct (decide (r = emptyRow w ∧ c = emptyCol w)) as [[-> ->]|Hne].
    { apply Hpz. }
    exfalso.
    assert (in_square N r c) as Hin.
    { destruct (pz_dom _ _ _ _ Hpz (emptyRow w) (emptyCol w)) as [? ?].
      - rewrite (pz_blank _ _ _ _ Hpz). eauto.
      - unfold in_square. lia. }
    destruct (getBlock_Inv N w r c HI Hfl Hin Hne)
      as (a'&b'&Hg'&[_ Hb']&_&_&Hv').
    rewrite Hg in Hg'. injection Hg' as <-. destruct Hab as [_ Hb].
    congruence.
  - subst r c. by apply (Inv_in_sync N w a b).
Qed.

Lemma getBlock_None (w : World) (r c : Z) :
  1 ≤ N → Inv N w → flights w = [] →
  getBlock w r c = None ↔
  ¬ in_square N r c ∨
  ((r, c) = (emptyRow w, emptyCol w) ∧ (r, c) ≠ (N - 1, N - 1)).
Proof.
  intros HN HI Hfl. pose proof (inv_puzzle _ _ HI) as Hpz. split.
  - intros Hnone.
    destruct (decide (in_square N r c)) as [Hin|]; [|by left]. right.
    destruct (decide (r = emptyRow w ∧ c = emptyCol w)) as [[-> ->]|Hne].
    + split; [done|]. intros [= E1 E2].
      destruct (t_last _ _ _ (inv_tiles _ _ HI)) as (bs'&a0&b0&Hbs&Hb0&Hv0).
      assert (a0 ∈ blocks w) as Ha0
        by (rewrite Hbs; apply elem_of_app; right; by left).
      destruct (inv_blank_block _ _ HI a0 b0 (conj Ha0 Hb0) Hv0) as [Hr0 Hc0].
      pose proof (proj1 (find_is_None _ _) Hnone a0 Ha0) as Hat.
      unfold block_at in Hat. rewrite Hb0, Hr0, Hc0, E1, E2, !Z.eqb_refl in Hat.
      done.
    + destruct (getBlock_Inv N w r c HI Hfl Hin Hne) as (a&b&Hg&_).
      congruence.
  - intros Hcase. destruct (getBlock w r c) as [a|] eqn:Hg; [|done].
    exfalso. destruct (getBlock_cell w r c a HI Hfl Hg) as (b&Hab&Hr&Hc&Hcell).
    destruct Hcase as [Hout|[[= -> ->] Hnh]].
    + apply Hout. apply (pz_dom _ _ _ _ Hpz). rewrite Hcell. eauto.
    + rewrite (pz_blank _ _ _ _ Hpz) in Hcell. injection Hcell as Hv.
      destruct (inv_blank_block _ _ HI a b Hab (eq_sym Hv)) as [E1 E2].
      apply Hnh. congruence.
Qed.

Lemma getBlockByValue_Inv (w : World) (v : Z) :
  Inv N w → 0 ≤ v < N * N →
  ∃ a b, getBlockByValue w v = Some a ∧ block_of w a b ∧ value b = v ∧
         ∀ a' b', block_of w a' b' → value b' = v → a' = a.
Proof.
  intros HI Hv. pose proof (inv_tiles _ _ HI) as Ht.
  destruct (t_surj _ _ _ Ht v Hv) as (a1&b1&Ha1&Hb1&Hv1).
  destruct (getBlockByValue w v) as [a|] eqn:Hg.
  - destruct (getBlockByValue_found w v a Hg) as (b&Hab&Hvb).
    exists a, b. split; [done|]. split; [done|]. split; [done|].
    intros a' b' [Ha' Hb'] Hv'. destruct Hab as [Ha Hb].
    eapply (t_inj _ _ _ Ht); eauto. congruence.
  - pose proof (proj1 (find_is_None _ _) Hg a1 Ha1) as Hat.
    unfold has_value in Hat. rewrite Hb1 in Hat. apply Z.eqb_neq in Hat. done.
Qed.

End Lookup.

(** X1: on a board of size N ≥ 1 used as above, while no animation is
    running, [getBlock(r, c)] returns a block of the board whose row and
    column are r and c and whose value is [grid[r][c]]; it returns undefined
    exactly for the cells outside the board and for the blank's cell once the
    blank has left the corner (N-1, N-1). *)
Theorem getBlock_returns_the_tile_of_the_cell (N : Z) (w : World) (r c : Z) :
  1 ≤ N → reachable N w → isAnimating w = false →
  (∀ a, getBlock w r c = Some a →
        ∃ b, block_of w a b ∧ row b = r ∧ col b = c ∧
             grid_read (grid w) r c = Ok (Some (value b))) ∧
  (getBlock w r c = None ↔
   ¬ in_square N r c ∨
   ((r, c) = (emptyRow w, emptyCol w) ∧ (r, c) ≠ (N - 1, N - 1))).
Proof.
  intros HN Hr Ha. destruct (reachable_Inv N w HN Hr) as [HI _].
  pose proof (inv_anim _ _ HI Ha) as Hfl. split.
  - intros a Hg. destruct (getBlock_cell N w r c a HI Hfl Hg)
      as (b&Hab&Hrb&Hcb&Hcell).
    exists b. split; [done|]. split; [done|]. split; [done|].
    rewrite grid_read_cell by (rewrite Hcell; eauto). by rewrite Hcell.
  - by apply getBlock_None.
Qed.

Lemma getBlock_returns_the_tile_of_the_cell_witness :
  ∃ w, new_Board 3 = Ok w ∧ getBlock w 3 0 = None.
Proof.
  assert (∃ w, new_Board 3 = Ok w ∧ reachable 3 w ∧ isAnimating w = false)
    as (w&Hw&Hr&Ha).
  { eexists. split; [vm_compute; reflexivity|].
    split; [apply reach_new; vm_compute; reflexivity|reflexivity]. }
  exists w. split; [done|].
  apply (getBlock_returns_the_tile_of_the_cell 3 w 3 0 ltac:(lia) Hr Ha).
  left. unfold in_square. lia.
Defined.

(** X2: in every state such a board reaches, [getBlockByValue(v)] finds, for
    each v of 0..N²-1, the one block that carries it, and undefined for any
    other v; while no animation is running the block of a tile v sits on the
    cell that holds v, where [getBlock] finds that same block. *)
Theorem getBlockByValue_finds_each_value_once (N : Z) (w : World) (v : Z) :
  1 ≤ N → reachable N w →
  (0 ≤ v < N * N →
   ∃ a b, getBlockByValue w v = Some a ∧ block_of w a b ∧ value b = v ∧
          (∀ a' b', block_of w a' b' → value b' = v → a' = a) ∧
          (isAnimating w = false → v ≠ 0 →
           grid_read (grid w) (row b) (col b) = Ok (Some v) ∧
           getBlock w (row b) (col b) = Some a)) ∧
  (¬ 0 ≤ v < N * N → getBlockByValue w v = None).
Proof.
  intros HN Hr. destruct (reachable_Inv N w HN Hr) as [HI _].
  pose proof (inv_puzzle _ _ HI) as Hpz. split.
  - intros Hv. destruct (getBlockByValue_Inv N w v HI Hv)
      as (a&b&Hg&Hab&Hvb&Huniq).
    exists a, b. split; [done|]. split; [done|]. split; [done|].
    split; [done|]. intros Ha Hv0.
    pose proof (inv_anim _ _ HI Ha) as Hfl.
    pose proof (Inv_in_sync N w a b HI Hfl Hab ltac:(congruence)) as Hcell.
    rewrite Hvb in Hcell. split.
    { rewrite grid_read_cell by (rewrite Hcell; eauto). by rewrite Hcell. }
    destruct (getBlock_Inv N w (row b) (col b) HI Hfl)
      as (a'&b'&Hg'&Hab'&Hr'&Hc'&Hv').
    { apply (pz_dom _ _ _ _ Hpz). rewrite Hcell. eauto. }
    { intros [E1 E2]. rewrite E1, E2, (pz_blank _ _ _ _ Hpz) in Hcell.
      congruence. }
    rewrite Hg'. f_equal. apply (Huniq a' b' Hab').
    pose proof (Inv_in_sync N w a' b' HI Hfl Hab' Hv') as Hcell'.
    rewrite Hr', Hc' in Hcell'. congruence.
  - intros Hout. destruct (getBlockByValue w v) as [a|] eqn:Hg; [|done].
    destruct (getBlockByValue_found w v a Hg) as (b&Hab&Hvb).
    pose proof (Inv_value_range N w a b HI Hab). lia.
Qed.

Lemma getBlockByValue_finds_each_value_once_witness :
  ∃ w, new_Board 3 = Ok w ∧ getBlockByValue w 9 = None.
Proof.
  assert (∃ w, new_Board 3 = Ok w ∧ reachable 3 w) as (w&Hw&Hr).
  { eexists. split; [vm_compute; reflexivity|].
    apply reach_new; vm_compute; reflexivity. }
  exists w. split; [done|].
  apply (getBlockByValue_finds_each_value_once 3 w 9 ltac:(lia) Hr). lia.
Defined.

(** ** [moveAt] on a board at rest *)

Lemma moveBlock_from_illegal (chained : bool) (a : addr) (b : Block)
    (animate : bool) (w : World) :
  heap w !! a = Some b → canMove w (row b) (col b) = false →
  moveBlock_from chained (Some a) animate w = Ok (Resolved false, w).
Proof.
  intros Hb Hc. unfold moveBlock_from. rewrite Hb, Hc. simpl.
  by destruct (value b =? 0).
Qed.

(** X3: while no animation is running, [moveAt(r, c)] starts a move exactly
    when (r, c) is a cell of the board next to the blank (above, below, left
    or right of it): the tile goes to the blank's cell and (r, c) becomes the
    blank; for any other (r, c) the promise resolves to false and the board
    is unchanged. *)
Theorem moveAt_slides_exactly_the_neighbours_of_the_blank (N : Z) (w : World)
    (r c : Z) (animate : bool) :
  1 ≤ N → reachable N w → isAnimating w = false →
  (in_square N r c ∧ manhattan r c (emptyRow w) (emptyCol w) = 1 →
   ∃ w' v, moveAt r c animate w = Ok (Pending, w') ∧
           cell (grid w) r c = Some v ∧ v ≠ 0 ∧
           slid (grid w) (emptyRow w) (emptyCol w) r c v (grid w') ∧
           emptyRow w' = r ∧ emptyCol w' = c ∧ isAnimating w' = true) ∧
  (¬ (in_square N r c ∧ manhattan r c (emptyRow w) (emptyCol w) = 1) →
   moveAt r c animate w = Ok (Resolved false, w)).
Proof.
  intros HN Hr Ha. destruct (reachable_Inv N w HN Hr) as [HI _].
  pose proof (inv_anim _ _ HI Ha) as Hfl.
  pose proof (inv_puzzle _ _ HI) as Hpz. split.
  - intros [Hin Hm].
    destruct (getBlock_Inv N w r c HI Hfl Hin) as (a&b&Hg&Hab&Hrb&Hcb&Hv).
    { unfold manhattan in Hm. lia. }
    pose proof (Inv_in_sync N w a b HI Hfl Hab Hv) as Hcell.
    destruct (grid_write_slid (grid w) (emptyRow w) (emptyCol w) (row b)
                (col b) (value b)) as (g1&g2&H1&H2&Hs).
    { rewrite (pz_blank _ _ _ _ Hpz). eauto. }
    { rewrite Hcell. eauto. }
    assert (canMove w (row b) (col b) = true) as Hc
      by (apply canMove_manhattan; congruence).
    exists (accepted w false a animate b g2), (value b).
    unfold moveAt, moveBlock. rewrite Hg.
    rewrite (moveBlock_from_accept w false a animate b g1 g2);
      [|apply Hab|done..].
    subst r c. by repeat split.
  - intros Hno. unfold moveAt, moveBlock.
    destruct (getBlock w r c) as [a|] eqn:Hg; [|done].
    destruct (getBlock_cell N w r c a HI Hfl Hg) as (b&[_ Hb]&Hrb&Hcb&Hcell).
    apply (moveBlock_from_illegal false a b); [done|].
    destruct (canMove w (row b) (col b)) eqn:Hc; [|done].
    exfalso. apply Hno. split.
    + apply (pz_dom _ _ _ _ Hpz). rewrite Hcell. eauto.
    + apply canMove_manhattan in Hc. congruence.
Qed.

Lemma moveAt_slides_exactly_the_neighbours_of_the_blank_witness :
  ∃ w, new_Board 4 = Ok w ∧
       moveAt 2 2 true w = Ok (Resolved false, w) ∧
       ∃ w', moveAt 2 3 true w = Ok (Pending, w') ∧ emptyRow w' = 2.
Proof.
  assert (∃ w, new_Board 4 = Ok w ∧ reachable 4 w ∧ isAnimating w = false ∧
               emptyRow w = 3 ∧ emptyCol w = 3) as (w&Hw&Hr&Ha&Her&Hec).
  { eexists. split; [vm_compute; reflexivity|].
    split; [apply reach_new; vm_compute; reflexivity|].
    repeat split; reflexivity. }
  exists w. split; [done|]. split.
  - apply (moveAt_slides_exactly_the_neighbours_of_the_blank 4 w 2 2 true
             ltac:(lia) Hr Ha).
    rewrite Her, Hec. unfold manhattan. lia.
  - destruct (moveAt_slides_exactly_the_neighbours_of_the_blank 4 w 2 3 true
                ltac:(lia) Hr Ha) as [Hyes _].
    destruct Hyes as (w'&v&Hm&_&_&_&Hr'&_).
    { rewrite Her, Hec. unfold in_square, manhattan. lia. }
    exists w'. by split.
Defined.

(** ** The move counter and the history *)

Lemma ledger_frame (w w' : World) :
  moveCount w' = moveCount w → flights w' = flights w →
  moveHistory w' = moveHistory w → emptyRow w' = emptyRow w →
  emptyCol w' = emptyCol w → grid w' = grid w → shuffles w' = shuffles w →
  ledger w → ledger w'.
Proof.
  intros E1 E2 E3 E4 E5 E6 E7 [H1 H2 H3 H4 H5].
  split; rewrite ?E1, ?E2, ?E3, ?E4, ?E5, ?E6, ?E7; done.
Qed.

Lemma ledger_empty (w : World) :
  moveCount w = 0 → flights w = [] → moveHistory w = [] → ledger w.
Proof.
  intros E1 E2 E3. split; rewrite ?E1, ?E2, ?E3; try done.
  intros m Hm. inversion Hm.
Qed.

(** While a [shuffle] is suspended the counter and the history stay as they
    were. *)
Lemma ledger_suspended (w w' : World) :
  moveCount w' = moveCount w → flights w' = flights w →
  moveHistory w' = moveHistory w → shuffles w' ≠ [] →
  ledger w → ledger w'.
Proof.
  intros E1 E2 E3 E4 [H1 H2 H3 H4 H5].
  split; rewrite ?E1, ?E2, ?E3; done.
Qed.

Lemma shuffle_loop_ledger (n : nat) :
  ∀ (i : nat) (rand : nat → nat) (w w' : World)
    (last last' : option Direction),
    shuffle_loop n i rand (w, last) = Ok (w', last') →
    moveCount w' = moveCount w ∧ moveHistory w' = moveHistory w ∧
    flights w' = flights w.
Proof.
  induction n as [|n IH]; intros i rand w w' last last'.
  - by intros [= <- _].
  - cbn [shuffle_loop].
    destruct (shuffle_step (rand i) (w, last)) as [[w1 l1]|] eqn:Hs; [|done].
    simpl. intros Hl. destruct (IH _ _ _ _ _ _ Hl) as (->&->&->).
    revert Hs. unfold shuffle_step.
    destruct (possibleMoves w last !! _) as [mv|]; [|by intros [= <- _]].
    destruct (getBlock w (c_row mv) (c_col mv) ≫= _) as [[a b]|]; [|done].
    destruct (grid_write _ _ _ _) as [g1|]; [|done]. simpl.
    destruct (grid_write g1 _ _ _) as [g2|]; [|done]. simpl.
    by intros [= <- _].
Qed.

Lemma attempt_accepted_slid (w : World) (o : option addr) (a : addr)
    (b : Block) (g : Grid) :
  attempt w o = AAccepted a b g →
  slid (grid w) (emptyRow w) (emptyCol w) (row b) (col b) (value b) g.
Proof.
  unfold attempt. destruct o as [a'|]; [|done].
  destruct (heap w !! a') as [b'|] eqn:Hb; [|done].
  destruct (value b' =? 0); [done|].
  destruct (negb _); [done|]. destruct (isAnimating w); [done|].
  destruct (grid_write _ _ _ _) as [g1|] eqn:H1; [|done].
  destruct (grid_write g1 _ _ _) as [g2|] eqn:H2; [|done].
  intros [= -> -> ->]. by eapply slid_from_writes.
Qed.

Section Ledger.
Variable N : Z.

Lemma accepted_ledger (w : World) (chained : bool) (a : addr) (animate : bool)
    (b : Block) (g : Grid) :
  flights w = [] → shuffles w = [] →
  value b ≠ 0 → canMove w (row b) (col b) = true →
  slid (grid w) (emptyRow w) (emptyCol w) (row b) (col b) (value b) g →
  ledger w → ledger (accepted w chained a animate b g).
Proof.
  intros Hfl Hsh Hv Hc Hs [H1 H2 H3 H4 H5]. specialize (H3 Hsh).
  apply canMove_manhattan in Hc. rewrite Hfl in H2.
  split; simpl.
  - done.
  - rewrite ?Hfl, ?stop_tween_nil, ?length_app. simpl in *. lia.
  - intros _ m. rewrite last_snoc. intros [= <-]. simpl. split; [done|].
    rewrite Hs. rewrite decide_False by (unfold manhattan in Hc; lia).
    by rewrite decide_True.
  - intros i m m' Hm Hm'.
    destruct (decide (S i < length (moveHistory w))%nat) as [Hlt|Hge].
    + rewrite lookup_app_l in Hm by lia. rewrite lookup_app_l in Hm' by lia.
      eauto.
    + apply lookup_lt_Some in Hm' as Hlen. rewrite length_app in Hlen.
      simpl in Hlen. assert (S i = length (moveHistory w)) as Hi by lia.
      rewrite lookup_app_l in Hm by lia.
      rewrite Hi, list_lookup_middle in Hm' by done. injection Hm' as <-.
      simpl. symmetry. apply H3. rewrite last_lookup.
      rewrite <- Hi. done.
  - intros m [Hm|Hm%list_elem_of_singleton]%elem_of_app; [eauto|].
    subst m. done.
Qed.

Lemma moveBlock_from_ledger (w w' : World) (chained : bool) (o : option addr)
    (animate : bool) (p : Promise) :
  Inv N w → shuffling_ok w → ledger w →
  moveBlock_from chained o animate w = Ok (p, w') → ledger w'.
Proof.
  intros HI Hsok HL. rewrite moveBlock_from_attempt.
  destruct (attempt w o) as [|a| |a b g] eqn:Hat; intros [= <- <-].
  - done.
  - by apply (ledger_frame w).
  - destruct (attempt_accepted _ _ _ _ _ Hat) as (_&_&Ha).
    destruct (attempt_accepted_legal _ _ _ _ _ Hat) as [Hv Hc].
    apply accepted_ledger; try done.
    + by apply (inv_anim _ _ HI).
    + by apply shuffling_ok_unlocked.
    + by eapply attempt_accepted_slid.
Qed.

Lemma processQueue_ledger (w w' : World) :
  Inv N w → shuffling_ok w → ledger w → _processQueue w = Ok w' → ledger w'.
Proof.
  intros HI Hsok HL. unfold _processQueue.
  destruct (isProcessingQueue w); [by intros [= <-]|].
  destruct (moveQueue w) as [|[a animate] q] eqn:Hq; [by intros [= <-]|].
  destruct (moveBlock_from true (Some a) animate _) as [[p w1]|] eqn:Hm;
    [|done].
  simpl. apply moveBlock_from_ledger in Hm.
  - destruct p; intros [= <-]; [|done]. by apply (ledger_frame w1).
  - apply Inv_set_moveQueue; [|by apply Inv_set_isProcessingQueue].
    intros a' an' Hin. apply (inv_queue _ _ HI a' an'). rewrite Hq. by right.
  - done.
  - by apply (ledger_frame w).
Qed.

Lemma finished_ledger (f : Flight) (w : World) :
  flights w = [f] → ledger w → ledger (finished 0 f w).
Proof.
  intros Hfl [H1 H2 H3 H4 H5]. rewrite Hfl in H2. simpl in H2.
  split; unfold finished; simpl; rewrite ?Hfl; simpl; try done;
    destruct (f_animate f); simpl; try done; lia.
Qed.

Lemma settle_ledger (i : nat) (w w' : World) :
  Inv N w → shuffling_ok w → ledger w → settle i w = Ok w' → ledger w'.
Proof.
  intros HI Hsok HL. destruct (flights w !! i) as [f|] eqn:Hf.
  2:{ unfold settle. rewrite Hf. by intros [= <-]. }
  assert (flights w = [f] ∧ i = O) as [Hfl ->].
  { pose proof (inv_single _ _ HI) as Hlen.
    destruct (flights w) as [|f0 [|f1 fs]]; simpl in Hlen; [done| |lia].
    destruct i; [|done]. by injection Hf as ->. }
  rewrite (settle_finished 0 f) by done.
  destruct (_processQueue (finished 0 f w)) as [w1|] eqn:Hp; [|done].
  simpl. apply processQueue_ledger in Hp.
  - intros [= <-]. destruct (f_chained f); [|done]. by apply (ledger_frame w1).
  - by apply finished_Inv.
  - apply shuffling_ok_nil. unfold finished. simpl.
    destruct (f_animate f); simpl; apply shuffling_ok_in_flight; try done;
      by rewrite Hfl.
  - by apply finished_ledger.
Qed.

Lemma then_callback_ledger (w w' : World) :
  Inv N w → shuffling_ok w → ledger w → then_callback w = Ok w' → ledger w'.
Proof.
  intros HI Hsok HL. unfold then_callback.
  destruct (callbacks w) as [|n]; [by intros [= <-]|].
  apply processQueue_ledger.
  - by apply Inv_set_isProcessingQueue, Inv_set_callbacks.
  - done.
  - by apply (ledger_frame w).
Qed.

Lemma shuffle_from_ledger (moves : Z) (i : nat) (last : option Direction)
    (rand : nat → nat) (w0 w w' : World) :
  ledger w0 → flights w0 = [] →
  moveCount w = moveCount w0 → moveHistory w = moveHistory w0 →
  flights w = [] →
  shuffle_from moves i last rand w = Ok w' → ledger w'.
Proof.
  intros HL Hfl0 Ec Eh Hfl. unfold shuffle_from.
  destruct (shuffle_loop _ _ _ _) as [[w1 l1]|] eqn:Hl; [|done].
  destruct (shuffle_loop_ledger _ _ _ _ _ _ _ Hl) as (E1&E2&E3).
  simpl. destruct (_ <? _)%nat; intros [= <-].
  - apply (ledger_suspended w0); simpl; try congruence.
    intros E. by destruct (shuffles w1).
  - apply ledger_empty; simpl; congruence.
Qed.

Lemma step_ledger (e : Event) (w w' : World) :
  1 ≤ N → Inv N w → shuffling_ok w → permitted e w → ledger w →
  step e w = Ok w' → ledger w'.
Proof.
  intros HN HI Hsok Hperm HL.
  destruct e as [o animate|i| |moveCount rand|k|]; simpl.
  - unfold moveBlock.
    destruct (moveBlock_from false o animate w) as [[p w1]|] eqn:Hm; [|done].
    intros [= <-]. by eapply moveBlock_from_ledger.
  - by apply settle_ledger.
  - by apply then_callback_ledger.
  - destruct Hperm as ((Hfl&_)&_). unfold shuffle_start.
    by apply (shuffle_from_ledger _ _ _ _ w).
  - unfold shuffle_resume. destruct (shuffles w !! k) as [s|] eqn:Hk.
    2:{ by intros [= <-]. }
    destruct Hsok as [_ Hlock].
    destruct Hlock as [Hfl _]; [intros E; by rewrite E in Hk|].
    by apply (shuffle_from_ledger _ _ _ _ w).
  - destruct Hperm as ((Hfl&_&Hq)&_). intros Hre.
    destruct (initGrid_Inv w) as (w1&Hi&_&_&_&_&_&Hf1&_&Hc1&Hh1);
      [rewrite (inv_size _ _ HI); lia|done|done|].
    unfold reset in Hre. rewrite Hre in Hi. injection Hi as <-.
    by apply ledger_empty.
Qed.

Lemma reachable_ledger (w : World) : 1 ≤ N → reachable N w → ledger w.
Proof.
  intros HN Hr. induction Hr as [w Hw|w e w' Hr IH Hperm Hs].
  - unfold new_Board in Hw.
    destruct (initGrid_Inv
                (mkWorld N ∅ [] (N - 1) (N - 1) [] 0 false [] false [] [] 0 []))
      as (w1&Hi&_&_&_&_&_&Hf1&_&Hc1&Hh1); [done..|].
    rewrite Hw in Hi. injection Hi as <-. by apply ledger_empty.
  - destruct (reachable_invariants N w HN Hr) as (HI&_&Hsok).
    by eapply step_ledger.
Qed.

End Ledger.

(** X4: [getMoveCount()] is never negative and is the number of history
    records minus the moves in flight, of which there is at most one: the
    history takes a move when it starts, the counter when its animation has
    settled. *)
Theorem getMoveCount_counts_the_settled_moves (N : Z) (w : World) :
  1 ≤ N → reachable N w →
  0 ≤ getMoveCount w ∧
  getMoveCount w + Z.of_nat (length (flights w))
  = Z.of_nat (length (moveHistory w)) ∧
  (length (flights w) ≤ 1)%nat ∧
  (isAnimating w = false →
   getMoveCount w = Z.of_nat (length (moveHistory w))).
Proof.
  intros HN Hr. destruct (reachable_Inv N w HN Hr) as [HI _].
  destruct (reachable_ledger N w HN Hr) as [H1 H2 _ _ _].
  unfold getMoveCount. split; [done|]. split; [done|].
  split; [apply HI|]. intros Ha.
  rewrite (inv_anim _ _ HI Ha) in H2. simpl in H2. lia.
Qed.

Lemma getMoveCount_counts_the_settled_moves_witness :
  ∃ w, (w ← new_Board 3; '(_, w) ← moveAt 2 1 true w; settle 0 w) = Ok w ∧
       getMoveCount w = Z.of_nat (length (moveHistory w)).
Proof.
  eexists. split; [vm_compute; reflexivity|].
  refine (proj2 (proj2 (proj2
            (getMoveCount_counts_the_settled_moves 3 _ _ _))) _);
    [lia| |reflexivity].
  eapply reach_step with (e := ESettle 0);
    [eapply reach_step with (e := EMove (Some 7%nat) true);
       [apply reach_new; vm_compute; reflexivity
       |simpl; set_solver
       |vm_compute; reflexivity]
    |done
    |vm_compute; reflexivity].
Defined.

(** X5: [moveHistory] is the path of the blank: while no [shuffle] is
    running the last record's [from] is the blank's cell and its [to] holds
    the moved tile; each record's [to] is the [from] of the record before
    it, and every record is the slide of a numbered tile between
    neighbouring cells. *)
Theorem moveHistory_is_the_path_of_the_blank (N : Z) (w : World) :
  1 ≤ N → reachable N w →
  (shuffles w = [] →
   ∀ m, last (moveHistory w) = Some m →
        mv_from m = (emptyRow w, emptyCol w) ∧
        grid_read (grid w) (mv_to m).1 (mv_to m).2 = Ok (Some (mv_value m))) ∧
  (∀ i m m',
     moveHistory w !! i = Some m → moveHistory w !! S i = Some m' →
     mv_to m' = mv_from m) ∧
  (∀ m, m ∈ moveHistory w →
        mv_value m ≠ 0 ∧
        manhattan (mv_from m).1 (mv_from m).2 (mv_to m).1 (mv_to m).2 = 1).
Proof.
  intros HN Hr. destruct (reachable_ledger N w HN Hr) as [_ _ H3 H4 H5].
  split; [|by split]. intros Hsh m Hm. destruct (H3 Hsh m Hm) as [Hf Hc].
  split; [done|]. rewrite grid_read_cell by (rewrite Hc; eauto).
  by rewrite Hc.
Qed.

Lemma moveHistory_is_the_path_of_the_blank_witness :
  ∃ w, (w ← new_Board 3; '(_, w) ← moveAt 2 1 true w; settle 0 w) = Ok w ∧
       ∀ m, last (moveHistory w) = Some m →
            mv_from m = (emptyRow w, emptyCol w) ∧
            grid_read (grid w) (mv_to m).1 (mv_to m).2 = Ok (Some (mv_value m)).
Proof.
  eexists. split; [vm_compute; reflexivity|].
  refine (proj1 (moveHistory_is_the_path_of_the_blank 3 _ _ _) _);
    [lia| |reflexivity].
  eapply reach_step with (e := ESettle 0);
    [eapply reach_step with (e := EMove (Some 7%nat) true);
       [apply reach_new; vm_compute; reflexivity
       |simpl; set_solver
       |vm_compute; reflexivity]
    |done
    |vm_compute; reflexivity].
Defined.

(** ** [checkWin] always answers on a board that keeps the invariant *)

Lemma all_cells_Ok (f : Z → result bool) (l : list Z) :
  (∀ x, x ∈ l → ∃ b, f x = Ok b) → ∃ b, all_cells f l = Ok b.
Proof.
  induction l as [|x l IH]; intros H; [by exists true|].
  destruct (H x) as [b Hb]; [by left|]. simpl. rewrite Hb. simpl.
  destruct b; [|by exists false].
  apply IH. intros y Hy. apply H. by right.
Qed.

Lemma checkWin_total (N : Z) (w : World) : Inv N w → ∃ b, checkWin w = Ok b.
Proof.
  intros HI. pose proof (inv_puzzle _ _ HI) as Hpz. unfold checkWin.
  rewrite (inv_size _ _ HI).
  apply all_cells_Ok. intros r Hr%elem_of_seqZ.
  apply all_cells_Ok. intros c Hc%elem_of_seqZ.
  destruct (pz_def _ _ _ _ Hpz r c) as (v&Hv&_); [unfold in_square; lia|].
  rewrite grid_read_cell by (rewrite Hv; eauto). simpl.
  destruct (_ && _); eauto.
Qed.

Lemma checkWin_cells (N : Z) (w w' : World) :
  Inv N w → Inv N w' →
  (∀ r c, cell (grid w') r c = cell (grid w) r c) →
  checkWin w' = checkWin w.
Proof.
  intros HI HI' Hcells.
  destruct (checkWin_total N w HI) as [b Hb].
  destruct (checkWin_total N w' HI') as [b' Hb'].
  rewrite Hb, Hb'. f_equal.
  pose proof (checkWin_true_iff w) as Hw.
  pose proof (checkWin_true_iff w') as Hw'.
  rewrite (inv_size _ _ HI) in Hw. rewrite (inv_size _ _ HI') in Hw'.
  destruct b, b'; try done.
  - assert (checkWin w' = Ok true) as E; [|congruence].
    apply Hw'. intros r c Hr Hc. rewrite Hcells. by apply Hw.
  - assert (checkWin w = Ok true) as E; [|congruence].
    apply Hw. intros r c Hr Hc. rewrite <- Hcells. by apply Hw'.
Qed.

(** ** Sliding a tile and sliding it back *)

Lemma awaited_moveBlock_counts (N : Z) (w w1 : World) (a : addr) (b : Block)
    (animate : bool) :
  Inv N w → idle w → isAnimating w = false →
  block_of w a b → value b ≠ 0 → canMove w (row b) (col b) = true →
  awaited_moveBlock (Some a) animate w = Ok (true, w1) →
  moveCount w1 = moveCount w + 1 ∧
  moveHistory w1
  = moveHistory w ++
      [mkMoveRecord (value b) (row b, col b) (emptyRow w, emptyCol w)].
Proof.
  intros HI (Hfl&Hcb&Hq) Ha [Hab Hb] Hv Hc.
  pose proof (Inv_in_sync _ _ _ _ HI Hfl (conj Hab Hb) Hv) as Hp.
  pose proof (inv_puzzle _ _ HI) as Hpz.
  destruct (grid_write_slid (grid w) (emptyRow w) (emptyCol w) (row b) (col b)
              (value b)) as (g1&g2&H1&H2&Hs).
  { rewrite (pz_blank _ _ _ _ Hpz). eauto. }
  { rewrite Hp. eauto. }
  set (f := mkFlight a (emptyRow w) (emptyCol w) animate false).
  assert (flights (accepted w false a animate b g2) = [f]) as Hfl1
    by (simpl; by rewrite Hfl, stop_tween_nil).
  unfold awaited_moveBlock, moveBlock.
  rewrite (moveBlock_from_accept w false a animate b g1 g2 Hb Hv Hc Ha H1 H2).
  simpl. rewrite Hfl, stop_tween_nil. simpl.
  rewrite (settle_finished 0 f) by (by rewrite Hfl1).
  unfold _processQueue.
  assert (moveQueue (finished 0 f (accepted w false a animate b g2)) = [])
    as -> by (simpl; by destruct animate).
  destruct (isProcessingQueue _); simpl; intros [= <-];
    by destruct animate.
Qed.

(** X6: on an idle board, sliding the tile of a cell next to the blank and
    then the tile that now sits in the old blank cell, each awaited, succeeds
    twice and restores every cell of the grid and the blank's position;
    [checkWin] answers as before and the counter has advanced by 2. *)
Theorem sliding_a_tile_back_restores_the_grid (N : Z) (w : World) (r c : Z)
    (animate animate' : bool) :
  1 ≤ N → reachable N w → idle w → isAnimating w = false →
  in_square N r c → manhattan r c (emptyRow w) (emptyCol w) = 1 →
  ∃ w1 w2,
    awaited_moveAt r c animate w = Ok (true, w1) ∧
    awaited_moveAt (emptyRow w) (emptyCol w) animate' w1 = Ok (true, w2) ∧
    (∀ r' c', cell (grid w2) r' c' = cell (grid w) r' c') ∧
    emptyRow w2 = emptyRow w ∧ emptyCol w2 = emptyCol w ∧
    checkWin w2 = checkWin w ∧
    getMoveCount w2 = getMoveCount w + 2.
Proof.
  intros HN Hr Hidle Ha Hin Hm. destruct (reachable_Inv N w HN Hr) as [HI _].
  pose proof (inv_puzzle _ _ HI) as Hpz.
  pose proof Hidle as (Hfl&_&_).
  destruct (getBlock_Inv N w r c HI Hfl Hin) as (a&b&Hg&Hab&Hrb&Hcb&Hv).
  { unfold manhattan in Hm. lia. }
  assert (canMove w (row b) (col b) = true) as Hc
    by (apply canMove_manhattan; congruence).
  destruct (awaited_moveBlock_Inv N w a b animate HI Hidle Ha Hab Hv Hc)
    as (w1&Hw1&HI1&Hidle1&Ha1&_&_&Hs1&Her1&Hec1).
  destruct (awaited_moveBlock_counts N w w1 a b animate HI Hidle Ha Hab Hv Hc Hw1)
    as [Hmc1 _].
  rewrite Hrb, Hcb in *.
  pose proof Hidle1 as (Hfl1&_&_).
  assert (in_square N (emptyRow w) (emptyCol w)) as Hine.
  { apply (pz_dom _ _ _ _ Hpz). rewrite (pz_blank _ _ _ _ Hpz). eauto. }
  destruct (getBlock_Inv N w1 (emptyRow w) (emptyCol w) HI1 Hfl1 Hine)
    as (a'&b'&Hg'&Hab'&Hrb'&Hcb'&Hv').
  { rewrite Her1, Hec1. unfold manhattan in Hm. lia. }
  assert (canMove w1 (row b') (col b') = true) as Hc'.
  { apply canMove_manhattan. rewrite Hrb', Hcb', Her1, Hec1.
    unfold manhattan in *. lia. }
  destruct (awaited_moveBlock_Inv N w1 a' b' animate' HI1 Hidle1 Ha1 Hab' Hv' Hc')
    as (w2&Hw2&HI2&Hidle2&Ha2&_&_&Hs2&Her2&Hec2).
  destruct (awaited_moveBlock_counts N w1 w2 a' b' animate' HI1 Hidle1 Ha1 Hab'
              Hv' Hc' Hw2) as [Hmc2 _].
  rewrite Hrb', Hcb', Her1, Hec1 in *.
  pose proof (Inv_in_sync N w a b HI Hfl Hab Hv) as Hcell.
  rewrite Hrb, Hcb in Hcell.
  pose proof (Inv_in_sync N w1 a' b' HI1 Hfl1 Hab' Hv') as Hcell'.
  rewrite Hrb', Hcb', Hs1 in Hcell'.
  rewrite decide_False in Hcell' by (unfold manhattan in Hm; lia).
  rewrite decide_True in Hcell' by done. injection Hcell' as Hvv.
  assert (∀ r' c', cell (grid w2) r' c' = cell (grid w) r' c') as Hcells.
  { intros r' c'. rewrite Hs2.
    destruct (decide (r' = emptyRow w ∧ c' = emptyCol w)) as [[-> ->]|Hn1].
    { by rewrite (pz_blank _ _ _ _ Hpz). }
    destruct (decide (r' = r ∧ c' = c)) as [[-> ->]|Hn2]; [congruence|].
    rewrite Hs1. rewrite decide_False by done. by rewrite decide_False. }
  exists w1, w2. unfold awaited_moveAt. rewrite Hg, Hg'.
  split; [done|]. split; [done|]. split; [done|]. split; [done|].
  split; [done|]. split; [|unfold getMoveCount; lia].
  by apply (checkWin_cells N).
Qed.

Lemma sliding_a_tile_back_restores_the_grid_witness :
  ∃ w w1 w2,
    new_Board 3 = Ok w ∧
    awaited_moveAt 1 2 true w = Ok (true, w1) ∧
    awaited_moveAt (emptyRow w) (emptyCol w) false w1 = Ok (true, w2) ∧
    checkWin w2 = checkWin w.
Proof.
  assert (∃ w, new_Board 3 = Ok w ∧ reachable 3 w ∧ idle w ∧
               isAnimating w = false ∧ emptyRow w = 2 ∧ emptyCol w = 2)
    as (w&Hw&Hr&Hi&Ha&Her&Hec).
  { eexists. split; [vm_compute; reflexivity|].
    split; [apply reach_new; vm_compute; reflexivity|].
    repeat split; reflexivity. }
  destruct (sliding_a_tile_back_restores_the_grid 3 w 1 2 true false)
    as (w1&w2&H1&H2&_&_&_&Hc&_);
    [lia|done|done|done|unfold in_square; lia
    |rewrite Her, Hec; unfold manhattan; lia|].
  exists w, w1, w2. by repeat split.
Defined.

(** ** [reset] *)

Lemma length_cells_list (N : Z) :
  length (cells_list N) = (Z.to_nat N * Z.to_nat N)%nat.
Proof.
  unfold cells_list.
  cut (∀ l : list Z,
         length (r ← l; (λ c, (r, c)) <$> seqZ 0 N)
         = (length l * Z.to_nat N)%nat).
  { intros H. by rewrite H, length_seqZ. }
  induction l as [|r l IH]; [done|].
  rewrite bind_cons, length_app, IH, length_fmap, length_seqZ. simpl. lia.
Qed.

(** X7: [reset()], in whatever state it is called, gives a solved board
    ([checkWin()] true, counter 0, empty history, N² newly created blocks,
    the blank in the last cell) but leaves [isAnimating], the move queue,
    [isProcessingQueue], the suspended moves and a suspended [shuffle] as
    they were. *)
Theorem reset_solves_the_grid_but_cancels_nothing (w : World) :
  ∃ w', reset w = Ok w' ∧
        checkWin w' = Ok true ∧
        getMoveCount w' = 0 ∧ moveHistory w' = [] ∧
        length (blocks w') = (Z.to_nat (size w) * Z.to_nat (size w))%nat ∧
        (∀ a, a ∈ blocks w' → (length (heap w) ≤ a)%nat) ∧
        (1 ≤ size w → emptyRow w' = size w - 1 ∧ emptyCol w' = size w - 1) ∧
        isAnimating w' = isAnimating w ∧ moveQueue w' = moveQueue w ∧
        isProcessingQueue w' = isProcessingQueue w ∧
        flights w' = flights w ∧ callbacks w' = callbacks w ∧
        shuffles w' = shuffles w.
Proof.
  destruct (initGrid_built w) as (g&er&ec&Hi&Hg&Hpos&_).
  eexists. split; [exact Hi|]. simpl.
  split.
  { apply checkWin_true_iff. simpl. intros r c Hr Hc. rewrite Hg.
    by rewrite decide_True by (by split). }
  split; [done|]. split; [done|].
  split; [by rewrite length_seq, length_cells_list|].
  split; [intros a Ha%elem_of_seq; lia|].
  split; [intros H; apply Hpos; lia|]. done.
Qed.

(** ** The walk of the blank during [shuffle] *)

Lemma possibleMoves_towards (w : World) (last : option Direction)
    (mv : Candidate) :
  mv ∈ possibleMoves w last →
  (c_row mv, c_col mv) = towards (c_direction mv) (emptyRow w) (emptyCol w) ∧
  last ≠ Some (opposite (c_direction mv)).
Proof.
  unfold possibleMoves. rewrite !elem_of_app.
  intros [H|[H|[H|H]]];
    match type of H with
    | _ ∈ (if ?b then _ else _) => destruct b eqn:Hb
    end;
    try (by inversion H);
    apply list_elem_of_singleton in H; subst mv; simpl;
    apply andb_true_iff in Hb as [_ Hb%bool_decide_eq_true]; done.
Qed.

Lemma possibleMoves_nonempty (w : World) (last : option Direction) :
  2 ≤ size w → in_square (size w) (emptyRow w) (emptyCol w) →
  possibleMoves w last ≠ [].
Proof.
  intros HN [Hr Hc]. unfold possibleMoves.
  destruct (Z.ltb_spec 0 (emptyRow w)),
           (Z.ltb_spec (emptyRow w) (size w - 1)),
           (Z.ltb_spec 0 (emptyCol w)),
           (Z.ltb_spec (emptyCol w) (size w - 1));
    try lia; destruct last as [[]|]; simpl; done.
Qed.

Section Walk.
Variable N : Z.

Lemma shuffle_step_slides (w w' : World) (last last' : option Direction)
    (draw : nat) :
  2 ≤ N → Inv N w → flights w = [] →
  shuffle_step draw (w, last) = Ok (w', last') →
  ∃ d, last' = Some d ∧ last ≠ Some (opposite d) ∧
       (emptyRow w', emptyCol w') = towards d (emptyRow w) (emptyCol w).
Proof.
  intros HN HI Hfl. unfold shuffle_step.
  pose proof (inv_puzzle _ _ HI) as Hpz.
  assert (in_square N (emptyRow w) (emptyCol w)) as Hine.
  { apply (pz_dom _ _ _ _ Hpz). rewrite (pz_blank _ _ _ _ Hpz). eauto. }
  destruct (possibleMoves w last !! _) as [mv|] eqn:Hmv.
  2:{ exfalso. apply lookup_ge_None in Hmv.
      pose proof (possibleMoves_nonempty w last) as Hne.
      rewrite (inv_size _ _ HI) in Hne. specialize (Hne ltac:(lia) Hine).
      unfold random_index in Hmv.
      destruct (possibleMoves w last) as [|m l]; [done|].
      pose proof (Nat.mod_upper_bound draw (length (m :: l))) as Hb.
      simpl in *. lia. }
  assert (mv ∈ possibleMoves w last) as Hin
    by (apply list_elem_of_lookup; eauto).
  destruct (possibleMoves_spec N w last mv (inv_size _ _ HI) Hine Hin)
    as [Hsq Hm].
  destruct (possibleMoves_towards w last mv Hin) as [Hto Hop].
  destruct (getBlock_Inv N w (c_row mv) (c_col mv) HI Hfl Hsq)
    as (a&b&Hg&[Hab Hb]&Hr&Hc&Hv).
  { unfold manhattan in Hm. lia. }
  rewrite Hg. simpl. rewrite Hb. simpl.
  destruct (grid_write _ _ _ _) as [g1|]; [|done]. simpl.
  destruct (grid_write g1 _ _ _) as [g2|]; [|done]. simpl.
  intros [= <- <-]. exists (c_direction mv). simpl.
  split; [done|]. split; [done|]. congruence.
Qed.

Lemma shuffle_loop_parity (n i : nat) (rand : nat → nat) (w w' : World)
    (last last' : option Direction) :
  2 ≤ N → Inv N w → flights w = [] →
  shuffle_loop n i rand (w, last) = Ok (w', last') →
  (emptyRow w' + emptyCol w' - (emptyRow w + emptyCol w) - Z.of_nat n) mod 2
  = 0.
Proof.
  intros HN. revert i w last.
  induction n as [|n IH]; intros i w last HI Hfl.
  - intros [= <- <-]. by replace (_ - _ - _) with 0 by (simpl; lia).
  - cbn [shuffle_loop].
    destruct (shuffle_step_Inv N w last (rand i) HI Hfl)
      as (w1&l1&Hs&HI1&Hf1&_).
    rewrite Hs. simpl. intros Hl.
    destruct (shuffle_step_slides w w1 last l1 (rand i) HN HI Hfl Hs)
      as (d&_&_&Hto).
    specialize (IH (S i) w1 l1 HI1 Hf1 Hl).
    rewrite Nat2Z.inj_succ.
    destruct d; simpl in Hto; injection Hto as E1 E2;
      Z.div_mod_to_equations; lia.
Qed.

End Walk.

(** X8: on a board of size N ≥ 2 every turn of [shuffle] slides one tile,
    so the blank ends on a cell whose parity (row + column) differs from the
    start by the parity of the number of turns; scrambling by an odd count
    from a board with the blank in the last cell never leaves a solved
    board. *)
Theorem shuffle_moves_the_blank_once_per_turn (N : Z) (moveCount : option Z)
    (rand : nat → nat) (w w' : World) :
  2 ≤ N → reachable N w → idle w → shuffle moveCount rand w = Ok w' →
  let turns := Z.max 0 (shuffle_moves N moveCount) in
  (emptyRow w' + emptyCol w' - (emptyRow w + emptyCol w) - turns) mod 2 = 0 ∧
  ((emptyRow w, emptyCol w) = (N - 1, N - 1) → Z.odd turns = true →
   checkWin w' = Ok false).
Proof.
  intros HN Hr (Hfl&_&_) Hs turns.
  destruct (reachable_Inv N w ltac:(lia) Hr) as [HI _].
  destruct (shuffle_Inv N moveCount rand w HI Hfl) as (w1&Hs1&HI'&_).
  rewrite Hs in Hs1. injection Hs1 as <-.
  assert ((emptyRow w' + emptyCol w' - (emptyRow w + emptyCol w) - turns)
            mod 2 = 0) as Hpar.
  { unfold shuffle in Hs.
    destruct (shuffle_loop _ _ _ _) as [[w1 l1]|] eqn:Hl; [|done].
    simpl in Hs. injection Hs as <-. simpl.
    apply (shuffle_loop_parity N) in Hl;
      [|done|by apply Inv_set_isAnimating|done].
    simpl in Hl. rewrite (inv_size _ _ HI) in Hl. subst turns.
    replace (Z.of_nat (Z.to_nat (shuffle_moves N moveCount)))
      with (Z.max 0 (shuffle_moves N moveCount)) in Hl by lia.
    done. }
  split; [done|]. intros [= Er Ec] Hodd.
  destruct (checkWin_total N w' HI') as [[|] Hb]; [|done]. exfalso.
  pose proof (proj1 (checkWin_true_iff w') Hb) as Hwin.
  rewrite (inv_size _ _ HI') in Hwin.
  specialize (Hwin (N - 1) (N - 1) ltac:(lia) ltac:(lia)).
  clear Hb. rename Hwin into Hb.
  rewrite expectedValue_corner in Hb.
  pose proof (inv_puzzle _ _ HI') as Hpz.
  destruct (pz_inj _ _ _ _ Hpz _ _ _ _ _ Hb (pz_blank _ _ _ _ Hpz)) as [E1 E2].
  rewrite Z.odd_spec in Hodd. destruct Hodd as [k Hk].
  rewrite Er, Ec in Hpar. Z.div_mod_to_equations. lia.
Qed.

Lemma shuffle_moves_the_blank_once_per_turn_witness :
  ∃ w w', new_Board 3 = Ok w ∧ shuffle (Some 5) (λ i, i) w = Ok w' ∧
          checkWin w' = Ok false.
Proof.
  assert (∃ w w', new_Board 3 = Ok w ∧ shuffle (Some 5) (λ i, i) w = Ok w' ∧
                  reachable 3 w ∧ idle w ∧
                  (emptyRow w, emptyCol w) = (3 - 1, 3 - 1))
    as (w&w'&Hw&Hs&Hr&Hi&Hhome).
  { eexists _, _. split; [vm_compute; reflexivity|].
    split; [vm_compute; reflexivity|].
    split; [apply reach_new; vm_compute; reflexivity|].
    repeat split; reflexivity. }
  exists w, w'. split; [done|]. split; [done|].
  by apply (shuffle_moves_the_blank_once_per_turn 3 (Some 5) (λ i, i) w w'
              ltac:(lia) Hr Hi Hs).
Defined.

(** X9: within [shuffle] on a board of size N ≥ 2, each turn moves the
    blank to a neighbouring cell and two consecutive turns never bring it
    back to the cell it came from. *)
Theorem shuffle_never_slides_straight_back (N : Z) (w w0 w1 w2 : World)
    (n i d1 d2 : nat) (rand : nat → nat) (l0 l1 l2 : option Direction) :
  2 ≤ N → reachable N w → idle w →
  shuffle_loop n i rand (set_isAnimating true w, None) = Ok (w0, l0) →
  shuffle_step d1 (w0, l0) = Ok (w1, l1) →
  shuffle_step d2 (w1, l1) = Ok (w2, l2) →
  manhattan (emptyRow w1) (emptyCol w1) (emptyRow w0) (emptyCol w0) = 1 ∧
  manhattan (emptyRow w2) (emptyCol w2) (emptyRow w1) (emptyCol w1) = 1 ∧
  (emptyRow w2, emptyCol w2) ≠ (emptyRow w0, emptyCol w0).
Proof.
  intros HN Hr (Hfl&_&_) Hl H1 H2.
  destruct (reachable_Inv N w ltac:(lia) Hr) as [HI _].
  destruct (shuffle_loop_Inv N n i rand (set_isAnimating true w) None)
    as (w0'&l0'&Hl'&HI0&Hf0&_); [by apply Inv_set_isAnimating|done|].
  rewrite Hl in Hl'. injection Hl' as <- <-.
  destruct (shuffle_step_Inv N w0 l0 d1 HI0 Hf0) as (w1'&l1'&H1'&HI1&Hf1&_).
  rewrite H1 in H1'. injection H1' as <- <-.
  destruct (shuffle_step_slides N w0 w1 l0 l1 d1 HN HI0 Hf0 H1)
    as (e1&->&_&Hto1).
  destruct (shuffle_step_slides N w1 w2 (Some e1) l2 d2 HN HI1 Hf1 H2)
    as (e2&_&Hop&Hto2).
  unfold manhattan.
  destruct e1, e2; simpl in *; try done;
    injection Hto1 as E1 E2; injection Hto2 as E3 E4;
    (split; [lia|]); (split; [lia|]); intros [= ? ?]; lia.
Qed.

Lemma shuffle_never_slides_straight_back_witness :
  ∃ w w1 w2 l1 l2,
    new_Board 2 = Ok w ∧
    shuffle_step 0 (set_isAnimating true w, None) = Ok (w1, l1) ∧
    shuffle_step 0 (w1, l1) = Ok (w2, l2) ∧
    (emptyRow w2, emptyCol w2) ≠ (emptyRow w, emptyCol w).
Proof.
  assert (∃ w w1 w2 l1 l2,
            new_Board 2 = Ok w ∧
            shuffle_step 0 (set_isAnimating true w, None) = Ok (w1, l1) ∧
            shuffle_step 0 (w1, l1) = Ok (w2, l2) ∧
            reachable 2 w ∧ idle w)
    as (w&w1&w2&l1&l2&Hw&H1&H2&Hr&Hi).
  { eexists _, _, _, _, _. split; [vm_compute; reflexivity|].
    split; [vm_compute; reflexivity|]. split; [vm_compute; reflexivity|].
    split; [apply reach_new; vm_compute; reflexivity|].
    repeat split; reflexivity. }
  exists w, w1, w2, l1, l2. split; [done|]. split; [done|]. split; [done|].
  apply (shuffle_never_slides_straight_back 2 w (set_isAnimating true w)
           w1 w2 0 0 0 0 (λ i, i) None l1 l2 ltac:(lia) Hr Hi eq_refl H1 H2).
Defined.

(** ** The animation flag *)

Lemma World_ext (w w' : World) :
  size w = size w' → grid w = grid w' → blocks w = blocks w' →
  emptyRow w = emptyRow w' → emptyCol w = emptyCol w' →
  moveHistory w = moveHistory w' → moveCount w = moveCount w' →
  isAnimating w = isAnimating w' → moveQueue w = moveQueue w' →
  isProcessingQueue w = isProcessingQueue w' → heap w = heap w' →
  flights w = flights w' → callbacks w = callbacks w' →
  shuffles w = shuffles w' → w = w'.
Proof. destruct w, w'. simpl. by intros -> -> -> -> -> -> -> -> -> -> -> -> -> ->. Qed.

Lemma finished_accepted_animate (w : World) (chained : bool) (a : addr)
    (b : Block) (g : Grid) :
  flights w = [] →
  finished 0 (mkFlight a (emptyRow w) (emptyCol w) true chained)
    (accepted w chained a true b g)
  = finished 0 (mkFlight a (emptyRow w) (emptyCol w) false chained)
      (accepted w chained a false b g).
Proof.
  intros Hfl. apply World_ext; try reflexivity.
  - unfold finished, accepted, update_block. cbn [f_animate f_block heap
      set_heap set_flights set_moveCount set_isAnimating].
    simpl. rewrite list_alter_alter_eq. apply list_alter_ext; [|done].
    by intros [].
  - unfold finished, accepted. simpl. by rewrite Hfl.
Qed.

(** X10: on a board with no move in flight, an awaited [moveBlock] leaves
    the same board and resolves to the same value whether it is animated or
    not. *)
Theorem animation_does_not_change_the_outcome (w : World) (o : option addr) :
  flights w = [] → isAnimating w = false →
  awaited_moveBlock o true w = awaited_moveBlock o false w.
Proof.
  intros Hfl Ha. unfold awaited_moveBlock, moveBlock.
  rewrite !moveBlock_from_attempt.
  destruct (attempt w o) as [|a| |a b g] eqn:Hat; try done.
  { by destruct (attempt_not_animating w o a Ha). }
  rewrite !bind_Ok. cbn beta iota.
  assert (∀ animate,
            flights (accepted w false a animate b g)
            = [mkFlight a (emptyRow w) (emptyCol w) animate false]) as Hfl1.
  { intros animate. simpl. by rewrite Hfl, stop_tween_nil. }
  rewrite !Hfl1. simpl length. simpl Nat.sub.
  rewrite !(settle_finished 0 (mkFlight a (emptyRow w) (emptyCol w) _ false))
    by (by rewrite Hfl1).
  by rewrite finished_accepted_animate.
Qed.

Lemma animation_does_not_change_the_outcome_witness :
  ∃ w, new_Board 3 = Ok w ∧
       awaited_moveBlock (Some 7%nat) true w
       = awaited_moveBlock (Some 7%nat) false w.
Proof.
  assert (∃ w, new_Board 3 = Ok w ∧ flights w = [] ∧ isAnimating w = false)
    as (w&Hw&Hfl&Ha).
  { eexists. split; [vm_compute; reflexivity|]. split; reflexivity. }
  exists w. split; [done|].
  by apply animation_does_not_change_the_outcome.
Defined.

(** ** The lock and the queue *)

Lemma reachable_in_turn_reachable (N : Z) (w : World) :
  reachable_in_turn N w → reachable N w.
Proof.
  induction 1 as [w Hw|w e w' _ IH [Hperm _] Hs].
  - by apply reach_new.
  - by apply (reach_step N w e w').
Qed.

Lemma moveBlock_from_shape (chained : bool) (o : option addr) (animate : bool)
    (w w' : World) (p : Promise) :
  moveBlock_from chained o animate w = Ok (p, w') →
  callbacks w' = callbacks w ∧ isProcessingQueue w' = isProcessingQueue w ∧
  match p with
  | Resolved _ =>
    flights w' = flights w ∧ isAnimating w' = isAnimating w ∧
    (moveQueue w' = moveQueue w ∨
     isAnimating w = true ∧ ∃ a, moveQueue w' = moveQueue w ++ [(a, animate)])
  | Pending =>
    isAnimating w = false ∧ isAnimating w' = true ∧
    moveQueue w' = moveQueue w ∧
    ∃ f, flights w' = stop_tween (f_block f) animate (flights w) ++ [f] ∧
         f_chained f = chained
  end.
Proof.
  rewrite moveBlock_from_attempt.
  destruct (attempt w o) as [|a| |a b g] eqn:Hat; intros [= <- <-]; simpl.
  - repeat split; by left.
  - repeat split. right. split; [|by eauto].
    destruct (isAnimating w) eqn:Ha; [done|].
    by destruct (attempt_not_animating w o a Ha).
  - destruct (attempt_accepted _ _ _ _ _ Hat) as (_&_&Ha).
    repeat split; try done. by eexists (mkFlight _ _ _ _ _).
Qed.

Lemma queue_ok_quiet (w : World) :
  flights w = [] → callbacks w = O → isAnimating w = false →
  moveQueue w = [] → queue_ok w.
Proof.
  intros E1 E2 E3 E4. split; rewrite ?E1, ?E2, ?E3, ?E4; try done; try lia.
  intros f Hf. inversion Hf.
Qed.

(** [_processQueue] called on a board without flight or due callback. *)
Lemma processQueue_queue_ok (w w' : World) :
  flights w = [] → callbacks w = O → isAnimating w = false →
  isProcessingQueue w = false → shuffles w = [] →
  _processQueue w = Ok w' → queue_ok w'.
Proof.
  intros Hfl Hcb Ha Hp Hsh. unfold _processQueue. rewrite Hp.
  destruct (moveQueue w) as [|[a animate] q] eqn:Hq.
  { intros [= <-]. by apply queue_ok_quiet. }
  destruct (moveBlock_from true (Some a) animate _) as [[p w1]|] eqn:Hm;
    [|done].
  pose proof (proj1 (moveBlock_from_shuffles _ _ _ _ _ _ Hm)) as E3.
  apply moveBlock_from_shape in Hm as (E1&E2&Hshape). simpl in *.
  destruct p as [r|]; intros [= <-].
  - destruct Hshape as (F1&F2&_).
    split; simpl; rewrite ?F1, ?F2, ?E1, ?E2, ?E3, ?Hfl, ?Hcb, ?Ha, ?Hsh;
      try done; try lia; try (by left); try (by right; lia).
  - destruct Hshape as (_&F2&F3&f&F4&F5).
    rewrite Hfl, stop_tween_nil in F4. simpl in F4.
    split; rewrite ?F2, ?F3, ?F4, ?E1, ?E2, ?E3, ?Hcb, ?Hsh; simpl;
      try done; try lia; try (by left).
Qed.

Section Queue.
Variable N : Z.

Lemma Inv_one_flight (w : World) (i : nat) (f : Flight) :
  Inv N w → flights w !! i = Some f → flights w = [f] ∧ i = O.
Proof.
  intros HI Hf. pose proof (inv_single _ _ HI) as Hlen.
  destruct (flights w) as [|f0 [|f1 fs]]; simpl in Hlen; [done| |lia].
  destruct i; [|done]. by injection Hf as ->.
Qed.

Lemma settled_not_processing (w : World) (f : Flight) :
  processing_ok w → queue_ok w → flights w = [f] → f_chained f = false →
  isProcessingQueue w = false.
Proof.
  intros Hp Hq Hfl Hc. destruct (isProcessingQueue w) eqn:E; [|done].
  destruct (Hp E) as [Hcb|(f'&Hf'&Hc')].
  - pose proof (q_micro _ Hq Hcb). congruence.
  - rewrite Hfl in Hf'. apply list_elem_of_singleton in Hf'. congruence.
Qed.

Lemma finished_fields (f : Flight) (w : World) :
  flights w = [f] →
  flights (finished 0 f w) = [] ∧ isAnimating (finished 0 f w) = false ∧
  callbacks (finished 0 f w) = callbacks w ∧
  isProcessingQueue (finished 0 f w) = isProcessingQueue w ∧
  moveQueue (finished 0 f w) = moveQueue w ∧
  shuffles (finished 0 f w) = shuffles w.
Proof.
  intros Hfl. unfold finished. simpl. rewrite Hfl.
  by destruct (f_animate f).
Qed.

Lemma settle_queue_ok (i : nat) (w w' : World) :
  Inv N w → processing_ok w → shuffling_ok w → queue_ok w →
  settle i w = Ok w' → queue_ok w'.
Proof.
  intros HI Hp Hsok Hq. destruct (flights w !! i) as [f|] eqn:Hf.
  2:{ unfold settle. rewrite Hf. by intros [= <-]. }
  destruct (Inv_one_flight w i f HI Hf) as [Hfl ->].
  assert (shuffles w = []) as Hsh
    by (apply shuffling_ok_in_flight; [done|by rewrite Hfl]).
  assert (callbacks w = O) as Hcb.
  { destruct (callbacks w) eqn:E; [done|].
    pose proof (q_micro _ Hq ltac:(lia)). congruence. }
  destruct (finished_fields f w Hfl) as (F1&F2&F3&F4&F5&F6).
  rewrite (settle_finished 0 f) by done.
  assert (f_chained f = false → isProcessingQueue w = false) as Hnp
    by (by apply settled_not_processing).
  assert (f_chained f = true → isProcessingQueue w = true) as Hb.
  { intros Hc. apply (q_chained _ Hq f); [rewrite Hfl; by left|done]. }
  set (w1 := finished 0 f w) in *. clearbody w1.
  destruct (f_chained f) eqn:Hc.
  - rewrite processQueue_busy by (rewrite F4; by apply Hb).
    simpl. intros [= <-].
    split; simpl; rewrite ?F1, ?F2, ?F3, ?F4, ?F5, ?F6, ?Hcb, ?Hsh;
      try done; try lia; intros; by apply Hb.
  - destruct (_processQueue w1) as [w2|] eqn:Hpq; [|done].
    simpl. intros [= <-].
    apply (processQueue_queue_ok w1); try congruence.
    rewrite F4. by apply Hnp.
Qed.


Lemma then_callback_queue_ok (w w' : World) :
  queue_ok w → then_callback w = Ok w' → queue_ok w'.
Proof.
  intros Hq. unfold then_callback.
  destruct (callbacks w) as [|n] eqn:Hcb; [by intros [= <-]|].
  pose proof (q_micro _ Hq ltac:(lia)) as Hfl.
  pose proof (q_one _ Hq) as Hone.
  assert (shuffles w = []) as Hsh.
  { destruct (shuffles w) eqn:E; [done|].
    destruct (q_shuffle _ Hq) as [? _]; [by rewrite E|lia]. }
  apply processQueue_queue_ok; simpl; try done; [lia|].
  destruct (isAnimating w) eqn:Ha; [|done].
  by destruct (q_lock _ Hq Ha Hsh).
Qed.

Lemma moveBlock_queue_ok (o : option addr) (animate : bool) (w w' : World)
    (p : Promise) :
  Inv N w → queue_ok w → callbacks w = O → shuffles w = [] →
  moveBlock o animate w = Ok (p, w') → queue_ok w'.
Proof.
  intros HI [H1 H0 H2 H3 H4 H5 H6] Hcb Hsh Hm.
  pose proof (proj1 (moveBlock_from_shuffles _ _ _ _ _ _ Hm)) as E3.
  apply moveBlock_from_shape in Hm as (E1&E2&Hshape).
  destruct p as [r|].
  - destruct Hshape as (F1&F2&Hqueue).
    split; rewrite ?E1, ?E2, ?E3, ?F1, ?F2, ?Hsh; try done.
    + intros Ha _. by apply H1.
    + destruct Hqueue as [->|(Ha&_)]; [done|]. intros _. left. by apply H1.
  - destruct Hshape as (Ha&F2&F3&f&F4&F5).
    rewrite (inv_anim _ _ HI Ha), stop_tween_nil in F4. simpl in F4.
    split; rewrite ?E1, ?E2, ?E3, ?F2, ?F3, ?F4, ?Hcb, ?Hsh;
      try done; try lia.
    + intros _. by left.
    + intros f' Hf'%list_elem_of_singleton. congruence.
Qed.

(** A [shuffle] that runs on a board at rest, up to its next yield. *)
Lemma shuffle_from_queue_ok (moves : Z) (i : nat) (last : option Direction)
    (rand : nat → nat) (w w' : World) :
  Inv N w → flights w = [] → shuffles w = [] → isAnimating w = true →
  callbacks w = O → moveQueue w = [] →
  shuffle_from moves i last rand w = Ok w' → queue_ok w'.
Proof.
  intros HI Hfl Hsh Ha Hcb Hqu Hs.
  destruct (shuffle_from_Inv N moves i last rand w HI Hfl Hsh Ha)
    as (w1&Hs1&_&_&F1&F2&F3&F4&F5).
  rewrite Hs in Hs1. injection Hs1 as <-.
  split; rewrite ?F1, ?F2, ?F3, ?F4, ?Hcb, ?Hqu; try done; try lia.
  - intros Ha' Hsh'. rewrite (F5 Hsh') in Ha'. done.
  - intros f Hf. inversion Hf.
Qed.

Lemma step_queue_ok (e : Event) (w w' : World) :
  1 ≤ N → Inv N w → processing_ok w → shuffling_ok w → queue_ok w →
  permitted_in_turn e w → step e w = Ok w' → queue_ok w'.
Proof.
  intros HN HI Hp Hsok Hq [Hperm Hturn].
  destruct e as [o animate|i| |moveCount rand|k|]; simpl.
  - destruct (moveBlock o animate w) as [[p w1]|] eqn:Hm; [|done].
    intros [= <-]. destruct Hturn. by eapply moveBlock_queue_ok.
  - by apply settle_queue_ok.
  - by apply then_callback_queue_ok.
  - destruct Hperm as ((Hfl&Hcb&Hqu)&Hsh). unfold shuffle_start.
    apply shuffle_from_queue_ok; try done. by apply Inv_set_isAnimating.
  - unfold shuffle_resume. destruct (shuffles w !! k) as [s|] eqn:Hk.
    2:{ by intros [= <-]. }
    assert (shuffles w ≠ []) as Hne by (intros E; by rewrite E in Hk).
    destruct Hsok as [Hlen Hlock]. destruct (Hlock Hne) as [Hfl Ha].
    destruct (q_shuffle _ Hq Hne) as [Hcb Hqu].
    apply shuffle_from_queue_ok; try done.
    + by apply Inv_set_shuffles.
    + simpl. destruct (shuffles w) as [|s0 [|s1 ss]]; simpl in *;
        [done| |lia]. by destruct k.
  - destruct Hperm as ((Hfl&Hcb&Hqu)&Hsh). intros Hs.
    destruct (initGrid_Inv w) as (w1&Hi&_&_&F1&F2&F3&F4&F5&_);
      [rewrite (inv_size _ _ HI); lia|done|done|].
    unfold reset in Hs. rewrite Hs in Hi. injection Hi as <-.
    apply queue_ok_quiet; try congruence.
    rewrite F3. destruct (isAnimating w) eqn:Ha; [|done].
    by destruct (q_lock _ Hq Ha Hsh).
Qed.

Lemma reachable_in_turn_queue_ok (w : World) :
  1 ≤ N → reachable_in_turn N w → queue_ok w.
Proof.
  intros HN Hr. induction Hr as [w Hw|w e w' Hr IH Hperm Hs].
  - destruct (new_Board_Inv N HN) as (w1&Hw1&_&_&(F1&F2&F3)&_&F4&_).
    rewrite Hw in Hw1. injection Hw1 as <-. by apply queue_ok_quiet.
  - destruct (reachable_invariants N w HN
                (reachable_in_turn_reachable N w Hr)) as (HI&Hp&Hsok).
    by eapply step_queue_ok.
Qed.

(** The queue of a board without flight or due callback drains. *)
Lemma drain_from_quiet (w : World) :
  Inv N w → flights w = [] → callbacks w = O → isAnimating w = false →
  isProcessingQueue w = false →
  ∃ wf, (∀ fuel, (2 * length (moveQueue w) ≤ fuel)%nat →
                 (w' ← _processQueue w; drain fuel w') = Ok wf) ∧
        idle wf ∧ isAnimating wf = false.
Proof.
  intros HI Hfl Hcb Ha Hp.
  destruct (in_sequence_total N (to_requests (moveQueue w))
              (set_moveQueue [] w)) as (wf&Hs&_&Hi&Haf).
  - apply Inv_set_moveQueue; [|done]. intros a an Hin. inversion Hin.
  - done.
  - done.
  - intros m Hm. unfold to_requests in Hm.
    apply list_elem_of_fmap in Hm as ([a an]&->&Hin). simpl.
    by apply (inv_queue _ _ HI a an).
  - exists wf. split; [|done]. intros fuel Hfuel.
    by rewrite (drain_queue (moveQueue w) w fuel).
Qed.

(** A due callback on a board without flight. *)
Lemma drain_from_callback (w : World) :
  Inv N w → callbacks w = 1%nat → flights w = [] → isAnimating w = false →
  ∃ wf, (∀ fuel, (2 * length (moveQueue w) + 1 ≤ fuel)%nat →
                 drain fuel w = Ok wf) ∧
        idle wf ∧ isAnimating wf = false.
Proof.
  intros HI Hcb Hfl Ha.
  destruct (drain_from_quiet (set_isProcessingQueue false (set_callbacks 0 w)))
    as (wf&Hd&Hi&Haf); try done.
  { by apply Inv_set_isProcessingQueue, Inv_set_callbacks. }
  exists wf. split; [|done]. intros fuel Hfuel.
  destruct fuel as [|k]; [lia|].
  rewrite (drain_callback k 0 w Hcb). apply Hd. simpl. lia.
Qed.

End Queue.

(** X11: when [moveBlock] calls only arrive once the due [then] callbacks
    have run (they are microtasks) and not while a [shuffle] is running,
    then outside a [shuffle] [isAnimating] is set exactly while a move is in
    flight, and 2·|queue| + 2 turns of the event loop always bring the board
    to rest: no move in flight, empty queue, no callback due, [isAnimating]
    false. *)
Theorem board_always_comes_to_rest (N : Z) (w : World) :
  1 ≤ N → reachable_in_turn N w → shuffles w = [] →
  (isAnimating w = true ↔ flights w ≠ []) ∧
  ∃ wf, (∀ fuel, (2 * length (moveQueue w) + 2 ≤ fuel)%nat →
                 drain fuel w = Ok wf) ∧
        idle wf ∧ isAnimating wf = false.
Proof.
  intros HN Hr Hsh.
  pose proof (reachable_in_turn_queue_ok N w HN Hr) as Hq.
  destruct (reachable_Inv N w HN (reachable_in_turn_reachable N w Hr))
    as [HI Hp].
  assert (flights w = [] → isAnimating w = false) as Hrest.
  { intros Hfl. destruct (isAnimating w) eqn:Ha; [|done].
    by destruct (q_lock _ Hq Ha Hsh). }
  split.
  { split; [intros Ha; by apply (q_lock _ Hq)|].
    intros Hne. destruct (isAnimating w) eqn:Ha; [done|].
    by destruct (Hne (inv_anim _ _ HI Ha)). }
  destruct (callbacks w) as [|n] eqn:Hcb.
  - destruct (flights w) as [|f fs] eqn:Hfl.
    + assert (moveQueue w = []) as Hqu.
      { destruct (moveQueue w) eqn:E; [done|].
        destruct (q_pending _ Hq) as [?|?]; [by rewrite E|congruence|lia]. }
      exists w. split; [|by rewrite Hrest]. intros fuel _.
      by apply drain_quiet.
    + assert (fs = []) as ->.
      { pose proof (inv_single _ _ HI) as Hlen. rewrite Hfl in Hlen.
        destruct fs; [done|simpl in Hlen; lia]. }
      destruct (finished_fields f w Hfl) as (F1&F2&F3&F4&F5&_).
      pose proof (finished_Inv N f w HI Hfl) as HI1.
      destruct (f_chained f) eqn:Hc.
      * assert (isProcessingQueue w = true) as Hb.
        { apply (q_chained _ Hq f); [rewrite Hfl; by left|done]. }
        destruct (drain_from_callback N
                    (set_callbacks (S (callbacks (finished 0 f w)))
                       (finished 0 f w))) as (wf&Hd&Hi&Haf).
        { by apply Inv_set_callbacks. }
        { change (S (callbacks (finished 0 f w)) = 1%nat).
          by rewrite F3, Hcb. }
        { done. }
        { done. }
        exists wf. split; [|done]. intros fuel Hfuel.
        destruct fuel as [|k]; [lia|].
        rewrite (drain_settle k f w Hcb Hfl).
        rewrite processQueue_busy by congruence.
        rewrite bind_Ok, Hc. apply Hd.
        change (2 * length (moveQueue (finished 0 f w)) + 1 ≤ k)%nat.
        rewrite F5. lia.
      * destruct (drain_from_quiet N (finished 0 f w)) as (wf&Hd&Hi&Haf);
          try done; try congruence.
        { rewrite F4. by apply (settled_not_processing w f). }
        exists wf. split; [|done]. intros fuel Hfuel.
        destruct fuel as [|k]; [lia|].
        rewrite (drain_settle k f w Hcb Hfl), Hc.
        apply Hd. rewrite F5. lia.
  - assert (n = O) as -> by (pose proof (q_one _ Hq); lia).
    assert (flights w = []) as Hfl by (apply (q_micro _ Hq); lia).
    destruct (drain_from_callback N w HI Hcb Hfl (Hrest Hfl))
      as (wf&Hd&Hi&Haf).
    exists wf. split; [|done]. intros fuel Hfuel. apply Hd. lia.
Qed.

Lemma board_always_comes_to_rest_witness :
  ∃ w wf,
    (w ← new_Board 4; '(_, w) ← moveAt 3 2 true w;
     snd <$> moveAt 3 1 true w) = Ok w ∧
    length (moveQueue w) = 1%nat ∧
    drain 4 w = Ok wf ∧ idle wf ∧ isAnimating wf = false.
Proof.
  assert (∃ w, (w ← new_Board 4; '(_, w) ← moveAt 3 2 true w;
                snd <$> moveAt 3 1 true w) = Ok w ∧
               length (moveQueue w) = 1%nat ∧ shuffles w = [] ∧
               reachable_in_turn 4 w) as (w&Hw&Hlen&Hsh&Hr).
  { eexists. split; [vm_compute; reflexivity|]. split; [reflexivity|].
    split; [reflexivity|].
    eapply turn_step with (e := EMove (Some 13%nat) true);
      [eapply turn_step with (e := EMove (Some 14%nat) true);
         [apply turn_new; vm_compute; reflexivity
         |split; [simpl; set_solver|by split]
         |vm_compute; reflexivity]
      |split; [simpl; set_solver|by split]
      |vm_compute; reflexivity]. }
  destruct (board_always_comes_to_rest 4 w ltac:(lia) Hr Hsh)
    as (_&wf&Hd&Hi&Ha).
  exists w, wf. split; [exact Hw|]. split; [exact Hlen|].
  split; [|split; [exact Hi|exact Ha]].
  apply Hd. rewrite Hlen. simpl. lia.
Defined.

(** X12: on a board used as in X11, [destroy()] while an animated move is
    in flight stops its tween, and the move never resumes: [isAnimating]
    stays true with nothing left to settle, and every later [moveBlock]
    resolves to false and leaves the grid alone. *)
Theorem destroy_in_flight_never_releases_the_lock (N : Z) (w : World)
    (f : Flight) :
  1 ≤ N → reachable_in_turn N w → flights w = [f] → f_animate f = true →
  flights (destroy w) = [] ∧ isAnimating (destroy w) = true ∧
  (∀ fuel, drain fuel (destroy w) = Ok (destroy w)) ∧
  (∀ o animate,
     ∃ w', moveBlock o animate (destroy w) = Ok (Resolved false, w') ∧
           grid w' = grid w ∧ flights w' = [] ∧ isAnimating w' = true).
Proof.
  intros HN Hr Hfl Hanim.
  pose proof (reachable_in_turn_queue_ok N w HN Hr) as Hq.
  destruct (reachable_Inv N w HN (reachable_in_turn_reachable N w Hr))
    as [HI _].
  assert (isAnimating w = true) as Ha.
  { destruct (isAnimating w) eqn:Ha; [done|].
    pose proof (inv_anim _ _ HI Ha). congruence. }
  assert (callbacks w = O) as Hcb.
  { destruct (callbacks w) eqn:E; [done|].
    pose proof (q_micro _ Hq ltac:(lia)). congruence. }
  assert (flights (destroy w) = []) as Hfl'.
  { unfold destroy, stop_tweens. simpl. rewrite Hfl.
    rewrite filter_cons_False; [done|].
    intros Hn. apply Hn. split; [done|].
    destruct (inv_flight _ _ HI f) as (b&[Hin _]&_); [rewrite Hfl; by left|].
    done. }
  split; [done|]. split; [done|]. split.
  { intros fuel. by apply drain_quiet. }
  intros o animate. unfold moveBlock. rewrite moveBlock_from_attempt.
  rewrite attempt_animating by done.
  destruct o as [a|]; [|by eexists].
  destruct (legal_at _ _); by eexists.
Qed.

Lemma destroy_in_flight_never_releases_the_lock_witness :
  ∃ w, (w ← new_Board 3; snd <$> moveAt 2 1 true w) = Ok w ∧
       isAnimating (destroy w) = true ∧
       drain 5 (destroy w) = Ok (destroy w).
Proof.
  assert (∃ w f, (w ← new_Board 3; snd <$> moveAt 2 1 true w) = Ok w ∧
                 flights w = [f] ∧ f_animate f = true ∧
                 reachable_in_turn 3 w) as (w&f&Hw&Hfl&Hf&Hr).
  { eexists _, _. split; [vm_compute; reflexivity|].
    split; [reflexivity|]. split; [reflexivity|].
    eapply turn_step with (e := EMove (Some 7%nat) true);
      [apply turn_new; vm_compute; reflexivity
      |split; [simpl; set_solver|by split]
      |vm_compute; reflexivity]. }
  destruct (destroy_in_flight_never_releases_the_lock 3 w f ltac:(lia) Hr Hfl Hf)
    as (_&Ha&Hd&_).
  exists w. split; [exact Hw|]. split; [exact Ha|]. exact (Hd 5%nat).
Defined.

(** A suspended [shuffle] that is resumed runs to its end without an
    exception and without a look at the queue. *)
Lemma resume_all_keeps_queue (N : Z) (n : nat) :
  ∀ w, Inv N w → shuffling_ok w → flights w = [] →
       (shuffles w = [] → isAnimating w = false) →
       ∃ w', resume_all n w = Ok w' ∧ moveQueue w' = moveQueue w ∧
             callbacks w' = callbacks w ∧ flights w' = [] ∧
             (shuffles w' = [] → isAnimating w' = false).
Proof.
  induction n as [|n IH]; intros w HI Hsok Hfl Hrest; [by exists w|].
  cbn [resume_all]. unfold shuffle_resume.
  destruct (shuffles w !! 0%nat) as [s|] eqn:Hk.
  2:{ simpl. destruct (IH w HI Hsok Hfl Hrest) as (w'&?&?). by exists w'. }
  destruct Hsok as [Hlen Hlock].
  destruct Hlock as [_ Ha]; [intros E; by rewrite E in Hk|].
  destruct (shuffle_from_Inv N (sc_moves s) (sc_i s) (sc_lastDirection s)
              (sc_rand s) (set_shuffles (delete 0%nat (shuffles w)) w))
    as (w1&Hw1&HI1&Hsok1&F1&F2&_&F3&F4); try done.
  { by apply Inv_set_shuffles. }
  { simpl. destruct (shuffles w) as [|s0 [|s1 ss]]; simpl in *; [done..|lia]. }
  rewrite Hw1. simpl.
  destruct (IH w1 HI1 Hsok1 F1 F4) as (w'&Hr&G1&G2&G3&G4).
  exists w'. split; [done|]. split; [by rewrite G1, F3|].
  split; [by rewrite G2, F2|]. done.
Qed.

(** X13: a [moveBlock] call for a tile next to the blank that arrives
    while a [shuffle] is suspended resolves to false and only puts the tile
    on the queue; however often the [shuffle] is resumed, it raises nothing
    and leaves the queue alone, and once it has ended the tile is still
    queued on a board that is otherwise at rest: the lock is free, nothing
    is in flight and the event loop has nothing to run. *)
Theorem touch_during_shuffle_stays_queued (N : Z) (w : World) (a : addr)
    (b : Block) (animate : bool) :
  1 ≤ N → reachable N w → shuffles w ≠ [] →
  block_of w a b → value b ≠ 0 → canMove w (row b) (col b) = true →
  ∃ w1, moveBlock (Some a) animate w = Ok (Resolved false, w1) ∧
        w1 = set_moveQueue (moveQueue w ++ [(a, animate)]) w ∧
        ∀ n, ∃ w2, resume_all n w1 = Ok w2 ∧
                   moveQueue w2 = moveQueue w ++ [(a, animate)] ∧
                   flights w2 = [] ∧
                   (shuffles w2 = [] →
                    isAnimating w2 = false ∧
                    (callbacks w = O → ∀ fuel, drain fuel w2 = Ok w2)).
Proof.
  intros HN Hr Hne [Hin Hb] Hv Hc.
  destruct (reachable_invariants N w HN Hr) as (HI&_&Hsok).
  destruct (proj2 Hsok Hne) as [Hfl Ha].
  exists (set_moveQueue (moveQueue w ++ [(a, animate)]) w).
  split.
  { unfold moveBlock, moveBlock_from. rewrite Hb.
    apply Z.eqb_neq in Hv. by rewrite Hv, Hc, Ha. }
  split; [done|]. intros n.
  destruct (resume_all_keeps_queue N n
              (set_moveQueue (moveQueue w ++ [(a, animate)]) w))
    as (w2&Hw2&F1&F2&F3&F4); try done.
  { apply Inv_set_moveQueue; [|done].
    intros a' an' [Hq|Hq%list_elem_of_singleton]%elem_of_app.
    - by apply (inv_queue _ _ HI a' an').
    - by injection Hq as -> ->. }
  exists w2. split; [done|]. split; [done|]. split; [done|].
  intros Hsh. split; [by apply F4|].
  intros Hcb fuel. apply drain_quiet; [|done]. by rewrite F2.
Qed.

Lemma touch_during_shuffle_stays_queued_witness :
  ∃ w w1 w2,
    (w ← new_Board 4; shuffle_start (Some 12) (λ _, O) w) = Ok w ∧
    moveBlock (Some 1%nat) true w = Ok (Resolved false, w1) ∧
    resume_all 1 w1 = Ok w2 ∧
    moveQueue w2 = moveQueue w ++ [(1%nat, true)] ∧ flights w2 = [].
Proof.
  assert (∃ w b, (w ← new_Board 4; shuffle_start (Some 12) (λ _, O) w) = Ok w ∧
                 reachable 4 w ∧ shuffles w ≠ [] ∧ block_of w 1%nat b ∧
                 value b ≠ 0 ∧ canMove w (row b) (col b) = true)
    as (w&b&Hw&Hr&Hne&Hb&Hv&Hc).
  { eexists _, _. split; [vm_compute; reflexivity|].
    split; [by_event (EShuffle (Some 12) (λ _, O)) fresh_board|].
    split; [done|]. split; [split; [simpl; set_solver|reflexivity]|].
    split; [done|reflexivity]. }
  destruct (touch_during_shuffle_stays_queued 4 w 1%nat b true
              ltac:(lia) Hr Hne Hb Hv Hc) as (w1&Hm&_&Hres).
  destruct (Hres 1%nat) as (w2&Hw2&Hq&Hfl&_).
  exists w, w1, w2. split; [exact Hw|]. split; [exact Hm|].
  split; [exact Hw2|]. split; [exact Hq|exact Hfl].
Defined.

(** * The timer and the rating *)

(** ** The timer *)

Section TimerProperties.
Import Timer.

(** X14: for a running timer the time between [pause] and [resume],
    between [stop] and [start] or between [pause] and [start] is not counted,
    and the reading is frozen by [pause] and by [stop]; [resume] after [stop]
    does nothing, and [stop] after [pause] does nothing (the timer stays
    paused). *)
Theorem timer_interruptions_do_not_count (t : Timer) (t1 t2 t3 : Z) :
  isRunning t = true → isPaused t = false →
  getTime t3 (resume t2 (pause t1 t)) = getTime t1 t + (t3 - t2) ∧
  getTime t3 (start t2 (stop t1 t)) = getTime t1 t + (t3 - t2) ∧
  getTime t3 (start t2 (pause t1 t)) = getTime t1 t + (t3 - t2) ∧
  getTime t3 (pause t1 t) = getTime t1 t ∧
  getTime t3 (stop t1 t) = getTime t1 t ∧
  resume t2 (stop t1 t) = stop t1 t ∧
  stop t2 (pause t1 t) = pause t1 t.
Proof.
  intros Hr Hp. unfold getTime, resume, start, pause, stop.
  rewrite Hr, Hp. simpl. repeat split; lia.
Qed.

Lemma timer_interruptions_do_not_count_witness :
  getTime 9000 (resume 7000 (pause 3000 (start 1000 new_Timer))) = 4000.
Proof.
  rewrite (proj1 (timer_interruptions_do_not_count
                    (start 1000 new_Timer) 3000 7000 9000 eq_refl eq_refl)).
  reflexivity.
Defined.

Lemma timer_call_ok (c : TimerCall) (tl now : Z) (t : Timer) :
  tl ≤ now → timer_ok tl t → timer_ok now (timer_call c now t).
Proof.
  intros Hle [H1 H2 H3].
  destruct c; simpl; unfold start, stop, pause, resume, reset;
    destruct (isRunning t) eqn:Hr, (isPaused t) eqn:Hp; simpl;
    split; simpl; rewrite ?Hr, ?Hp; try done; try lia;
    try naive_solver lia.
Qed.

Lemma timer_run_ok (cs : list (TimerCall * Z)) :
  ∀ (tl : Z) (t : Timer),
    clock_from tl cs.*2 → timer_ok tl t →
    timer_ok (last_reading tl cs.*2) (timer_run cs t).
Proof.
  induction cs as [|[c now] cs IH]; intros tl t Hclock Hok; [done|].
  destruct Hclock as [Hle Hclock]. simpl.
  apply IH; [done|]. by apply (timer_call_ok c tl).
Qed.

Lemma clock_from_app (t0 : Z) (ts : list Z) (now : Z) :
  clock_from t0 (ts ++ [now]) ↔ clock_from t0 ts ∧ last_reading t0 ts ≤ now.
Proof.
  revert t0. induction ts as [|t ts IH]; intros t0; simpl.
  - naive_solver.
  - rewrite IH. naive_solver.
Qed.

(** X15: with a clock that never goes back, whatever calls are made on a new
    timer, [getTime()] is never negative, the timer is never both running and
    paused, and the reading of a timer that is not running does not depend on
    the clock. *)
Theorem timer_reading_is_never_negative (cs : list (TimerCall * Z))
    (t0 now : Z) :
  clock_from t0 (cs.*2 ++ [now]) →
  let t := timer_run cs new_Timer in
  0 ≤ getTime now t ∧
  ¬ (isActive t = true ∧ isOnPause t = true) ∧
  (isActive t = false → ∀ later, getTime later t = getTime now t).
Proof.
  intros [Hcs Hlast]%clock_from_app t.
  destruct (timer_run_ok cs t0 new_Timer Hcs) as [H1 H2 H3].
  { split; simpl; try done. naive_solver. }
  fold t in H1, H2, H3. unfold getTime, isActive, isOnPause.
  split; [|split; [done|]].
  - destruct (isRunning t); [|done]. specialize (H3 eq_refl). lia.
  - by intros ->.
Qed.

Lemma timer_reading_is_never_negative_witness :
  0 ≤ getTime 50
        (timer_run [(TStart, 10); (TPause, 20); (TStop, 30); (TResume, 40)]
           new_Timer).
Proof.
  apply (timer_reading_is_never_negative
           [(TStart, 10); (TPause, 20); (TStop, 30); (TResume, 40)] 0 50).
  simpl. lia.
Defined.

(** X16: for a reading that is not negative, [getTimeObject()] splits it
    exactly: minutes·60000 + seconds·1000 + milliseconds is the total, with
    0 ≤ seconds < 60 and 0 ≤ milliseconds < 1000. *)
Theorem getTimeObject_splits_the_reading (now : Z) (t : Timer) :
  0 ≤ getTime now t →
  let o := getTimeObject now t in
  totalMilliseconds o = getTime now t ∧
  minutes o * 60000 + seconds o * 1000 + milliseconds o = totalMilliseconds o ∧
  0 ≤ minutes o ∧ 0 ≤ seconds o < 60 ∧ 0 ≤ milliseconds o < 1000.
Proof.
  intros Hpos. unfold getTimeObject. simpl.
  set (time := getTime now t) in *.
  rewrite !Z.rem_mod_nonneg by (try apply Z.div_pos; lia).
  split; [done|].
  pose proof (Z.div_pos time 1000 Hpos ltac:(lia)).
  Z.div_mod_to_equations. lia.
Qed.

Lemma getTimeObject_splits_the_reading_witness :
  let o := getTimeObject 0 (mkTimer 0 754321 false false) in
  minutes o * 60000 + seconds o * 1000 + milliseconds o = 754321.
Proof.
  refine (proj1 (proj2 (getTimeObject_splits_the_reading 0
                          (mkTimer 0 754321 false false) _))).
  unfold getTime. simpl. lia.
Defined.

(** ** The printed time *)

Lemma padStart_two_digits (n : Z) :
  0 ≤ n < 100 → padStart 2 "0"%char (toString n) = two_digits n.
Proof.
  intros Hn.
  assert (Forall (λ n, padStart 2 "0"%char (toString n) = two_digits n)
            (seqZ 0 100)) as Hall.
  { apply (bool_decide_unpack _). vm_compute. exact I. }
  rewrite Forall_forall in Hall. apply Hall. apply elem_of_seqZ. lia.
Qed.

(** X17: for a reading that is not negative, [getFormattedTime()] is the
    minutes padded to two digits, a colon and the two digits of the seconds,
    then a dot and the two digits of the hundredths when they are asked for;
    below 100 minutes the minutes are two digits and the short form has five
    characters. *)
Theorem getFormattedTime_is_mm_ss (now : Z) (t : Timer)
    (showMilliseconds : bool) :
  0 ≤ getTime now t →
  let time := getTime now t in
  getFormattedTime showMilliseconds now t
  = padStart 2 "0"%char (toString (time / 60000)) +:+ ":" +:+
    two_digits ((time / 1000) mod 60) +:+
    (if showMilliseconds then "." +:+ two_digits ((time mod 1000) / 10)
     else "") ∧
  (time < 6000000 →
   padStart 2 "0"%char (toString (time / 60000)) = two_digits (time / 60000) ∧
   String.length (getFormattedTime false now t) = 5%nat).
Proof.
  intros Hpos time. fold time in Hpos.
  pose proof (Z.div_pos time 1000 Hpos ltac:(lia)) as Hs.
  assert (0 ≤ (time / 1000) mod 60 < 100) as Hss
    by (pose proof (Z.mod_pos_bound (time / 1000) 60); lia).
  assert (0 ≤ (time mod 1000) / 10 < 100) as Hms.
  { pose proof (Z.mod_pos_bound time 1000 ltac:(lia)).
    split; [apply Z.div_pos; lia|apply Z.div_lt_upper_bound; lia]. }
  assert (∀ b, getFormattedTime b now t
          = padStart 2 "0"%char (toString (time / 60000)) +:+ ":" +:+
            two_digits ((time / 1000) mod 60) +:+
            (if b then "." +:+ two_digits ((time mod 1000) / 10) else ""))
    as Hform.
  { intros b. unfold getFormattedTime. fold time. cbv zeta.
    rewrite !Z.rem_mod_nonneg by lia.
    rewrite Z.div_div by lia. change (1000 * 60) with 60000.
    rewrite (padStart_two_digits ((time / 1000) mod 60)) by done.
    rewrite (padStart_two_digits ((time mod 1000) / 10)) by done.
    destruct b; reflexivity. }
  split; [apply Hform|]. intros Hlt.
  assert (0 ≤ time / 60000 < 100) as Hm.
  { split; [apply Z.div_pos; lia|apply Z.div_lt_upper_bound; lia]. }
  split; [by apply padStart_two_digits|].
  rewrite Hform, padStart_two_digits by done. reflexivity.
Qed.

Lemma getFormattedTime_is_mm_ss_witness :
  getFormattedTime true 0 (mkTimer 0 754321 false false) = "12:34.32" ∧
  getFormattedTime false 0 (mkTimer 0 754321 false false) = "12:34".
Proof.
  split.
  - rewrite (proj1 (getFormattedTime_is_mm_ss 0
                      (mkTimer 0 754321 false false) true
                      ltac:(unfold getTime; simpl; lia))).
    vm_compute. reflexivity.
  - rewrite (proj1 (getFormattedTime_is_mm_ss 0
                      (mkTimer 0 754321 false false) false
                      ltac:(unfold getTime; simpl; lia))).
    vm_compute. reflexivity.
Defined.

(** ** The rating *)

Lemma stars_for_cases (boardSize elapsed : Z) :
  stars_for boardSize elapsed
  = if boardSize =? 4
    then (if elapsed <=? 60 then 3 else if elapsed <=? 180 then 2
          else if elapsed <=? 300 then 1 else 0)
    else (if elapsed <=? 150 then 3 else if elapsed <=? 360 then 2
          else if elapsed <=? 720 then 1 else 0).
Proof. unfold stars_for. by destruct (boardSize =? 4). Qed.

(** X18: [_calculateStars] gives 0 to 3 stars: on a 4x4 board 3 below
    61 000 ms, 2 below 181 000, 1 below 301 000 and 0 from there on; on 5x5
    the bounds are 151 000, 361 000 and 721 000; a board of any size other
    than 4 is rated with the 5x5 limits. *)
Theorem calculateStars_thresholds (boardSize ms : Z) :
  0 ≤ _calculateStars boardSize ms ≤ 3 ∧
  (boardSize ≠ 4 → _calculateStars boardSize ms = _calculateStars 5 ms) ∧
  (_calculateStars 4 ms = 3 ↔ ms < 61000) ∧
  (_calculateStars 4 ms = 2 ↔ 61000 ≤ ms < 181000) ∧
  (_calculateStars 4 ms = 1 ↔ 181000 ≤ ms < 301000) ∧
  (_calculateStars 4 ms = 0 ↔ 301000 ≤ ms) ∧
  (_calculateStars 5 ms = 3 ↔ ms < 151000) ∧
  (_calculateStars 5 ms = 2 ↔ 151000 ≤ ms < 361000) ∧
  (_calculateStars 5 ms = 1 ↔ 361000 ≤ ms < 721000) ∧
  (_calculateStars 5 ms = 0 ↔ 721000 ≤ ms).
Proof.
  unfold _calculateStars. rewrite !stars_for_cases. simpl.
  split.
  { destruct (boardSize =? 4); repeat case_match; lia. }
  split.
  { intros Hne. apply Z.eqb_neq in Hne. by rewrite Hne. }
  repeat split; repeat case_match; intros; try lia;
    repeat match goal with
           | H : (_ <=? _) = true |- _ => apply Z.leb_le in H
           | H : (_ <=? _) = false |- _ => apply Z.leb_gt in H
           end;
    Z.div_mod_to_equations; lia.
Qed.

(** X19: the rating read from the timer never rises as the clock advances,
    and once the running timer is stopped the rating is that of the moment of
    the stop, whenever it is computed. *)
Theorem calculateStars_never_rises_with_time (boardSize : Z) (t : Timer)
    (now later : Z) :
  now ≤ later →
  _calculateStars boardSize (getTime later t)
  ≤ _calculateStars boardSize (getTime now t) ∧
  (isRunning t = true →
   ∀ after, _calculateStars boardSize (getTime after (stop now t))
            = _calculateStars boardSize (getTime now t)).
Proof.
  intros Hle. split.
  - assert (getTime now t ≤ getTime later t) as Ht
      by (unfold getTime; destruct (isRunning t); lia).
    revert Ht. generalize (getTime now t) (getTime later t). intros a b Hab.
    unfold _calculateStars. rewrite !stars_for_cases.
    assert (a / 1000 ≤ b / 1000) by (apply Z.div_le_mono; lia).
    destruct (boardSize =? 4); repeat case_match; lia.
  - intros Hr after. unfold getTime, stop. rewrite Hr. done.
Qed.

Lemma calculateStars_never_rises_with_time_witness :
  _calculateStars 4 (getTime 70000 (start 1000 new_Timer))
  ≤ _calculateStars 4 (getTime 50000 (start 1000 new_Timer)).
Proof.
  apply (calculateStars_never_rises_with_time 4 (start 1000 new_Timer)
           50000 70000).
  lia.
Defined.

End TimerProperties.

(** * The event emitter *)

(** ** The event emitter *)

Section EmitterProperties.
Import EventEmitter.

Lemma slot_own (e : EventEmitter) (ev : string) (l : list Callback) :
  events e !! ev = Some l → slot e ev = Listeners l.
Proof. intros H. unfold slot. by rewrite H. Qed.

Lemma filter_ne_notin (c : Callback) (l : list Callback) :
  c ∉ l → filter (λ c', c' ≠ c) l = l.
Proof.
  induction l as [|x l IH]; [done|]. intros Hn.
  apply not_elem_of_cons in Hn as [Hne Hn].
  rewrite filter_cons_True by done. by rewrite IH.
Qed.

(** The walk of [emit] over the rest [s] of the array, once the lasting
    listeners [q] before it have been called. *)
Lemma emit_walk {A : Type} (ev : string) (args : A) (s : list Callback) :
  ∀ (q : list Callback) (e : EventEmitter) (log : list (nat * A)),
    events e !! ev = Some (q ++ s) →
    Forall lasting q →
    (∀ k ev' i, OnceCallback k ev' i ∈ s → ev' = ev) →
    NoDup (filter (λ c, ¬ lasting c) s) →
    ∃ e', foldl (λ st cb, invoke cb args st) (e, log) s
          = (e', log ++ ((λ c, (target c, args)) <$> s)) ∧
          events e' = <[ev := q ++ filter lasting s]> (events e) ∧
          closures e' = closures e.
Proof.
  induction s as [|c s IH]; intros q e log Hev Hq Hs Hnd.
  - exists e. simpl. rewrite !app_nil_r. split; [done|].
    rewrite app_nil_r in Hev. by rewrite insert_id.
  - destruct c as [i|k ev' i].
    + destruct (IH (q ++ [Listener i]) e (log ++ [(i, args)]))
        as (e'&Hf&He&Hc).
      * by rewrite <- app_assoc.
      * apply Forall_app. split; [done|]. by constructor.
      * intros k ev' j Hin. apply (Hs k ev' j). by right.
      * by rewrite filter_cons_False in Hnd by (simpl; tauto).
      * exists e'. simpl. rewrite Hf, <- !app_assoc. split; [done|].
        split; [|done]. rewrite He, filter_cons_True by done.
        by rewrite <- app_assoc.
    + assert (ev' = ev) as -> by (apply (Hs k ev' i); by left).
      rewrite filter_cons_True in Hnd by (simpl; tauto).
      apply NoDup_cons in Hnd as [Hnotin Hnd].
      assert (OnceCallback k ev i ∉ s) as Hns.
      { intros Hin. apply Hnotin. apply list_elem_of_filter.
        split; [simpl; tauto|done]. }
      assert (OnceCallback k ev i ∉ q) as Hnq.
      { intros Hin. rewrite Forall_forall in Hq. by apply (Hq _ Hin). }
      simpl. unfold off. rewrite (slot_own e ev _ Hev).
      rewrite filter_app, filter_cons_False by naive_solver.
      rewrite !filter_ne_notin by done. simpl.
      destruct (IH q (set_events (<[ev := q ++ s]> (events e)) e)
                  (log ++ [(i, args)])) as (e'&Hf&He&Hc).
      * simpl. by rewrite lookup_insert_eq.
      * done.
      * intros k' ev' j Hin. apply (Hs k' ev' j). by right.
      * done.
      * exists e'. rewrite Hf, <- !app_assoc. split; [done|].
        split; [|done]. rewrite He. simpl.
        rewrite insert_insert_eq.
        by rewrite filter_cons_False by (simpl; tauto).
Qed.

Lemma emit_ok {A : Type} (ev : string) (args : A) (e : EventEmitter)
    (log : list (nat * A)) (l : list Callback) :
  emitter_ok e → events e !! ev = Some l →
  ∃ e', emit ev args (e, log)
        = Ok (e', log ++ ((λ c, (target c, args)) <$> l)) ∧
        events e' = <[ev := filter lasting l]> (events e) ∧
        closures e' = closures e.
Proof.
  intros [H1 H2 H3] Hev. unfold emit. simpl. rewrite (slot_own e ev l Hev).
  destruct (emit_walk ev args l [] e log) as (e'&Hf&He&Hc); try done.
  - intros k ev' i Hin. by destruct (H1 ev l k ev' i Hev Hin).
  - by apply (H2 ev).
  - exists e'. by rewrite Hf.
Qed.

Lemma NoDup_filter_filter {A : Type} (P Q : A → Prop)
    `{∀ x, Decision (P x)} `{∀ x, Decision (Q x)} (l : list A) :
  NoDup (filter P l) → NoDup (filter P (filter Q l)).
Proof.
  induction l as [|x l IH]; [done|]. intros Hnd.
  destruct (decide (Q x)) as [HQ|HQ].
  - rewrite (filter_cons_True Q) by done.
    destruct (decide (P x)) as [HP|HP].
    + rewrite filter_cons_True in Hnd |- * by done.
      apply NoDup_cons in Hnd as [Hn Hnd]. apply NoDup_cons. split; [|auto].
      intros Hin. apply Hn.
      apply list_elem_of_filter in Hin as [? Hin%list_elem_of_filter].
      apply list_elem_of_filter. naive_solver.
    + rewrite filter_cons_False in Hnd |- * by done. auto.
  - rewrite (filter_cons_False Q) by done. apply IH.
    destruct (decide (P x)).
    + rewrite filter_cons_True in Hnd by done. by apply NoDup_cons in Hnd as [_ ?].
    + by rewrite filter_cons_False in Hnd.
Qed.

Lemma emitter_ok_insert (e : EventEmitter) (ev : string) (l : list Callback)
    (n : nat) :
  emitter_ok e → ev ∉ Object_prototype → (closures e ≤ n)%nat →
  (∀ k ev' i, OnceCallback k ev' i ∈ l → ev' = ev ∧ (k < n)%nat) →
  NoDup (filter (λ c, ¬ lasting c) l) →
  emitter_ok (mkEventEmitter (<[ev := l]> (events e)) n).
Proof.
  intros [H1 H2 H3] Hev Hn Hl Hnd. split; simpl.
  - intros ev0 l0 k ev' i Hlook Hin.
    destruct (decide (ev0 = ev)) as [->|Hne].
    + rewrite lookup_insert_eq in Hlook. injection Hlook as <-. eauto.
    + rewrite lookup_insert_ne in Hlook by done.
      destruct (H1 ev0 l0 k ev' i Hlook Hin). split; [done|lia].
  - intros ev0 l0 Hlook. destruct (decide (ev0 = ev)) as [->|Hne].
    + rewrite lookup_insert_eq in Hlook. by injection Hlook as <-.
    + rewrite lookup_insert_ne in Hlook by done. eauto.
  - intros ev0 Hsome. destruct (decide (ev0 = ev)) as [->|Hne]; [done|].
    rewrite lookup_insert_ne in Hsome by done. eauto.
Qed.

Lemma slot_cases (e : EventEmitter) (ev : string) :
  emitter_ok e →
  match slot e ev with
  | Undefined => events e !! ev = None ∧ ev ∉ Object_prototype
  | Inherited => events e !! ev = None ∧ ev ∈ Object_prototype
  | Listeners l => events e !! ev = Some l ∧ ev ∉ Object_prototype
  end.
Proof.
  intros Hok. unfold slot. destruct (events e !! ev) as [l|] eqn:Hl.
  - split; [done|]. apply (ok_own _ Hok). by rewrite Hl.
  - case_bool_decide; by split.
Qed.

Lemma on_ok (e e' : EventEmitter) (ev : string) (c : Callback) :
  emitter_ok e →
  (∀ k ev' i, c = OnceCallback k ev' i →
              ev' = ev ∧ (k < closures e)%nat ∧
              ∀ l, events e !! ev = Some l → c ∉ l) →
  on ev c e = Ok e' → emitter_ok e'.
Proof.
  intros Hok Hc. unfold on. pose proof (slot_cases e ev Hok) as Hslot.
  destruct (slot e ev) as [| |l]; [|done|]; destruct Hslot as [Hev Hnp];
    intros [= <-]; apply emitter_ok_insert; try done.
  - intros k ev' i Heq%list_elem_of_singleton.
    destruct (Hc k ev' i (eq_sym Heq)) as (?&?&_). done.
  - destruct c; simpl.
    + rewrite filter_cons_False by (simpl; tauto). constructor.
    + rewrite filter_cons_True by (simpl; tauto). apply NoDup_singleton.
  - intros k ev' i [Hin|Hin%list_elem_of_singleton]%elem_of_app.
    + by apply (ok_once _ Hok ev l k ev' i).
    + destruct (Hc k ev' i (eq_sym Hin)) as (?&?&_). done.
  - rewrite filter_app. destruct c as [j|k ev' j]; simpl.
    + rewrite (filter_cons_False _ (Listener j)) by (simpl; tauto).
      rewrite app_nil_r. by apply (ok_nodup _ Hok ev).
    + rewrite (filter_cons_True _ (OnceCallback k ev' j)) by (simpl; tauto).
      apply NoDup_app. split; [by apply (ok_nodup _ Hok ev)|].
      split; [|apply NoDup_singleton].
      intros x Hx%list_elem_of_filter ->%list_elem_of_singleton.
      destruct (Hc k ev' j eq_refl) as (_&_&Hnotin).
      destruct Hx as [_ Hx]. by apply (Hnotin l).
Qed.

Lemma emitter_ok_closures (e : EventEmitter) (n : nat) :
  emitter_ok e → (closures e ≤ n)%nat →
  emitter_ok (mkEventEmitter (events e) n).
Proof.
  intros [H1 H2 H3] Hn. split; simpl; try done.
  intros ev l k ev' i Hl Hin. destruct (H1 ev l k ev' i Hl Hin).
  split; [done|lia].
Qed.

Lemma off_ok (e e' : EventEmitter) (ev : string) (c : option Callback) :
  emitter_ok e → off ev c e = Ok e' → emitter_ok e'.
Proof.
  intros Hok. unfold off. pose proof (slot_cases e ev Hok) as Hslot.
  destruct (slot e ev) as [| |l], c as [c|]; try done;
    destruct Hslot as [Hev Hnp]; intros [= <-]; try done.
  - apply emitter_ok_insert; try done.
    + intros k ev' i [_ Hin]%list_elem_of_filter.
      by apply (ok_once _ Hok ev l k ev' i).
    + apply NoDup_filter_filter. by apply (ok_nodup _ Hok ev).
  - destruct Hok as [H1 H2 H3]. split; simpl.
    + intros ev0 l0 k ev' i [_ Hl]%lookup_delete_Some. eauto.
    + intros ev0 l0 [_ Hl]%lookup_delete_Some. eauto.
    + intros ev0 [l0 [_ Hl]%lookup_delete_Some]. eauto.
Qed.

Lemma filter_lasting_only (l : list Callback) :
  filter (λ c, ¬ lasting c) (filter lasting l) = [].
Proof.
  induction l as [|c l IH]; [done|]. destruct c; simpl.
  - rewrite (filter_cons_True lasting) by done.
    by rewrite filter_cons_False by (simpl; tauto).
  - by rewrite (filter_cons_False lasting) by (simpl; tauto).
Qed.

Lemma emitter_call_ok (c : EmitterCall) (e e' : EventEmitter) :
  emitter_ok e → emitter_call c e = Ok e' → emitter_ok e'.
Proof.
  intros Hok. destruct c as [ev i|ev i|ev i|ev]; simpl.
  - apply on_ok; done.
  - by apply off_ok.
  - unfold once. apply on_ok.
    + by apply emitter_ok_closures; [|simpl; lia].
    + simpl. intros k ev' j [= <- <- <-]. split; [done|]. split; [lia|].
      intros l Hl Hin. destruct (ok_once _ Hok ev l _ _ _ Hl Hin). lia.
  - pose proof (slot_cases e ev Hok) as Hslot. unfold emit. simpl.
    destruct (slot e ev) as [| |l] eqn:Hs; [by intros [= <-]|done|].
    destruct Hslot as [Hev Hnp].
    destruct (emit_ok ev () e [] l Hok Hev) as (e1&He&Hev1&Hc1).
    unfold emit in He. simpl in He. rewrite Hs in He.
    injection He as He. rewrite He. simpl. intros [= <-].
    destruct e1 as [ev1 n1]. simpl in *. subst ev1 n1.
    apply emitter_ok_insert; try done.
    + intros k ev' i [Hl _]%list_elem_of_filter. done.
    + rewrite filter_lasting_only. constructor.
Qed.

Lemma emitter_reachable_ok (e : EventEmitter) :
  emitter_reachable e → emitter_ok e.
Proof.
  induction 1 as [|e c e' _ IH Hc].
  - split; simpl; intros ev l; rewrite ?lookup_empty in *; done.
  - by eapply emitter_call_ok.
Qed.

(** X20: on an emitter built by [on], [off], [once] and [emit], [emit] calls
    every callback registered for the event, once per registration and in the
    order of registration, with the arguments of the call; afterwards the
    callbacks added by [once] are gone and the others remain in their order.
    For an event without listeners it does nothing, except that a name of
    [Object.prototype] raises a TypeError. *)
Theorem emit_calls_the_listeners_in_order {A : Type} (e : EventEmitter)
    (ev : string) (args : A) (log : list (nat * A)) :
  emitter_reachable e →
  match events e !! ev with
  | Some l =>
    ∃ e', emit ev args (e, log)
          = Ok (e', log ++ ((λ c, (target c, args)) <$> l)) ∧
          events e' = <[ev := filter lasting l]> (events e)
  | None =>
    emit ev args (e, log)
    = if bool_decide (ev ∈ Object_prototype) then TypeError else Ok (e, log)
  end.
Proof.
  intros Hr%emitter_reachable_ok.
  destruct (events e !! ev) as [l|] eqn:Hev.
  - destruct (emit_ok ev args e log l Hr Hev) as (e'&He&Hev'&_). eauto.
  - unfold emit, slot. simpl. rewrite Hev. by case_bool_decide.
Qed.

Lemma emit_calls_the_listeners_in_order_witness :
  ∃ e e',
    (e ← on "tick" (Listener 1) new_EventEmitter; e ← once "tick" 2 e;
     on "tick" (Listener 3) e) = Ok e ∧
    emit "tick" 7 (e, []) = Ok (e', [(1%nat, 7); (2%nat, 7); (3%nat, 7)]) ∧
    events e' !! "tick" = Some [Listener 1; Listener 3].
Proof.
  assert (∃ e, (e ← on "tick" (Listener 1) new_EventEmitter;
                e ← once "tick" 2 e; on "tick" (Listener 3) e) = Ok e ∧
               events e !! "tick"
               = Some [Listener 1; OnceCallback 0 "tick" 2; Listener 3] ∧
               emitter_reachable e) as (e&He&Hev&Hr).
  { eexists. split; [vm_compute; reflexivity|]. split; [reflexivity|].
    eapply er_call with (c := COn "tick" 3);
      [eapply er_call with (c := COnce "tick" 2);
         [eapply er_call with (c := COn "tick" 1);
            [apply er_new|vm_compute; reflexivity]
         |vm_compute; reflexivity]
      |vm_compute; reflexivity]. }
  pose proof (emit_calls_the_listeners_in_order e "tick" 7 [] Hr) as Hemit.
  rewrite Hev in Hemit. destruct Hemit as (e'&Hemit&Hev').
  exists e, e'. split; [done|]. split; [done|].
  rewrite Hev'. by rewrite lookup_insert_eq.
Defined.

Lemma emit_reachable {A : Type} (ev : string) (args : A)
    (e e' : EventEmitter) (log log' : list (nat * A)) :
  emitter_reachable e → emit ev args (e, log) = Ok (e', log') →
  emitter_reachable e'.
Proof.
  intros Hr He. pose proof (emitter_reachable_ok e Hr) as Hok.
  destruct (events e !! ev) as [l|] eqn:Hev.
  - destruct (emit_ok ev args e log l Hok Hev) as (e1&H1&Hev1&Hc1).
    destruct (emit_ok ev () e [] l Hok Hev) as (e2&H2&Hev2&Hc2).
    rewrite He in H1. injection H1 as -> _.
    assert (e1 = e2) as ->.
    { destruct e1, e2. simpl in *. congruence. }
    apply (er_call e (CEmit ev)); [done|]. unfold emitter_call.
    by rewrite H2.
  - unfold emit, slot in He. simpl in He. rewrite Hev in He.
    case_bool_decide; [done|]. by injection He as <- _.
Qed.

(** X21: a listener added with [once] is not removed by [off] called with
    that listener, since the emitter holds a closure around it: the next
    [emit] still calls it, after the other listeners, and the [emit] after
    that one no longer does. *)
Theorem once_runs_once_and_off_does_not_remove_it {A : Type}
    (e : EventEmitter) (ev : string) (i : nat) (a b : A) :
  emitter_reachable e → ev ∉ Object_prototype →
  let others := filter (λ c, c ≠ Listener i) (default [] (events e !! ev)) in
  ∃ e1 e2 e3 e4,
    once ev i e = Ok e1 ∧
    off ev (Some (Listener i)) e1 = Ok e2 ∧
    emit ev a (e2, [])
    = Ok (e3, ((λ c, (target c, a)) <$> others) ++ [(i, a)]) ∧
    emit ev b (e3, [])
    = Ok (e4, (λ c, (target c, b)) <$> filter lasting others) ∧
    ∀ x, (i, x) ∉ (λ c, (target c, b)) <$> filter lasting others.
Proof.
  intros Hr Hnp others.
  pose proof (emitter_reachable_ok e Hr) as Hok.
  set (c := OnceCallback (closures e) ev i).
  set (l := default [] (events e !! ev)) in *.
  set (e1 := mkEventEmitter (<[ev := l ++ [c]]> (events e)) (S (closures e))).
  set (e2 := mkEventEmitter (<[ev := others ++ [c]]> (events e))
               (S (closures e))).
  assert (once ev i e = Ok e1) as H1.
  { unfold once, on, slot. simpl. subst e1 l.
    destruct (events e !! ev) as [l0|] eqn:Hev; simpl; [done|].
    by rewrite bool_decide_eq_false_2. }
  assert (emitter_reachable e1) as Hr1
    by (by apply (er_call e (COnce ev i))).
  assert (off ev (Some (Listener i)) e1 = Ok e2) as H2.
  { unfold off, slot. simpl. rewrite lookup_insert_eq.
    unfold set_events. simpl. rewrite insert_insert_eq, filter_app.
    by rewrite (filter_cons_True _ c). }
  assert (emitter_reachable e2) as Hr2
    by (by apply (er_call e1 (COff ev (Some i)))).
  destruct (emit_ok ev a e2 [] (others ++ [c]) (emitter_reachable_ok _ Hr2))
    as (e3&H3&Hev3&_).
  { simpl. by rewrite lookup_insert_eq. }
  pose proof (emit_reachable ev a e2 e3 _ _ Hr2 H3) as Hr3.
  assert (events e3 !! ev = Some (filter lasting others)) as Hl3.
  { rewrite Hev3, lookup_insert_eq, filter_app.
    rewrite (filter_cons_False _ c) by (simpl; tauto).
    by rewrite app_nil_r. }
  destruct (emit_ok ev b e3 [] _ (emitter_reachable_ok _ Hr3) Hl3)
    as (e4&H4&_).
  exists e1, e2, e3, e4. split; [done|]. split; [done|].
  rewrite fmap_app in H3. split; [done|]. split; [done|].
  intros x Hin. apply list_elem_of_fmap in Hin as (c'&Hc'&Hin).
  apply list_elem_of_filter in Hin as [Hlast Hin].
  apply list_elem_of_filter in Hin as [Hne _].
  destruct c' as [j|]; [|done]. simpl in Hc'. congruence.
Qed.

Lemma once_runs_once_and_off_does_not_remove_it_witness :
  ∃ e1 e2 e3 e4,
    once "win" 5 new_EventEmitter = Ok e1 ∧
    off "win" (Some (Listener 5)) e1 = Ok e2 ∧
    emit "win" 1 (e2, []) = Ok (e3, [(5%nat, 1)]) ∧
    emit "win" 2 (e3, []) = Ok (e4, []).
Proof.
  destruct (once_runs_once_and_off_does_not_remove_it
              new_EventEmitter "win" 5 1 2 er_new)
    as (e1&e2&e3&e4&H1&H2&H3&H4&_).
  { apply (bool_decide_unpack _). vm_compute. exact I. }
  exists e1, e2, e3, e4. by repeat split.
Defined.

(** X22: an event name that [Object.prototype] defines (toString,
    constructor, ...) never becomes an own property of [events]: [on],
    [once], [emit] and [off] with a callback raise a TypeError for it, and
    [off] without a callback does nothing. *)
Theorem inherited_names_are_not_events {A : Type} (e : EventEmitter)
    (ev : string) (cb : Callback) (i : nat) (args : A)
    (log : list (nat * A)) :
  emitter_reachable e → ev ∈ Object_prototype →
  on ev cb e = TypeError ∧ once ev i e = TypeError ∧
  emit ev args (e, log) = TypeError ∧
  off ev (Some cb) e = TypeError ∧ off ev None e = Ok e.
Proof.
  intros Hok%emitter_reachable_ok Hin.
  assert (events e !! ev = None) as Hev.
  { destruct (events e !! ev) eqn:E; [|done].
    destruct (ok_own _ Hok ev); [by rewrite E|done]. }
  unfold on, once, on, emit, off, slot. simpl. rewrite Hev.
  by rewrite bool_decide_eq_true_2.
Qed.

Lemma inherited_names_are_not_events_witness :
  on "toString" (Listener 0) new_EventEmitter = TypeError ∧
  emit "constructor" 0 (new_EventEmitter, []) = TypeError.
Proof.
  split.
  - refine (proj1 (inherited_names_are_not_events new_EventEmitter "toString"
                     (Listener 0) 0%nat 0 [] er_new _)).
    apply (bool_decide_unpack _). vm_compute. exact I.
  - refine (proj1 (proj2 (proj2 (inherited_names_are_not_events
                     new_EventEmitter "constructor" (Listener 0) 0%nat 0 []
                     er_new _)))).
    apply (bool_decide_unpack _). vm_compute. exact I.
Defined.

End EmitterProperties.
